(** * Document pipeline: a shallow embedding of the stage handlers

  The development follows the TypeScript sources of the three stage
  services (OCR, validation, persistence):

  - [JsString], [Regex], [JsNumber]: the parts of the JavaScript runtime
    the handlers rely on (string helpers, backtracking regular
    expressions, [parseFloat] and number comparison);
  - [Invoice]: [extractInvoiceMetadata] and [validateInvoiceMetadata];
  - [Doc]: the document types;
  - [Redis], [Client]: the store and the broker as explicit state, with
    the commands the handlers issue, each of which may raise;
  - [Pipeline]: the three handlers and the body of the consumer loops;
  - [Observe], [Samples]: the vocabulary the properties are stated in,
    and sample worlds;
  - [RegexSpec], [Shapes], [Conduct]: what an expression matches, the
    shapes of extracted fields, and the relations a handler or a loop
    keeps whatever the client does.

  Strings are [string]s whose characters stand for code units below 256. *)

From Stdlib Require Import String Ascii List ZArith Lia Bool.
From Stdlib Require Import SpecFloat.
From stdpp Require Import gmap strings.

Local Open Scope string_scope.
Local Open Scope list_scope.

(** ** JavaScript strings *)

Module JsString.

Definition chars (s : string) : list ascii := list_ascii_of_string s.
Definition str (l : list ascii) : string := string_of_list_ascii l.

Definition code (c : ascii) : nat := nat_of_ascii c.

(** [\d] *)
Definition is_digit (c : ascii) : bool :=
  (48 <=? code c)%nat && (code c <=? 57)%nat.

(** [[A-Z]] and [[a-z]] *)
Definition is_upper (c : ascii) : bool :=
  (65 <=? code c)%nat && (code c <=? 90)%nat.
Definition is_lower (c : ascii) : bool :=
  (97 <=? code c)%nat && (code c <=? 122)%nat.

(** Line terminators below 256: LF and CR. *)
Definition is_line_terminator (c : ascii) : bool :=
  (code c =? 10)%nat || (code c =? 13)%nat.

(** [\s] and the characters [trim] strips: white space and line
    terminators (TAB, LF, VT, FF, CR, SP, NBSP). *)
Definition is_space (c : ascii) : bool :=
  ((9 <=? code c)%nat && (code c <=? 13)%nat)
  || (code c =? 32)%nat || (code c =? 160)%nat.

Definition upper_char (c : ascii) : ascii :=
  if is_lower c then ascii_of_nat (code c - 32) else c.
Definition lower_char (c : ascii) : ascii :=
  if is_upper c then ascii_of_nat (code c + 32) else c.

(** [s.toUpperCase()]; the handlers call it on runs of ASCII letters only. *)
Definition toUpperCase (s : string) : string :=
  str (map upper_char (chars s)).

Fixpoint trim_start (l : list ascii) : list ascii :=
  match l with
  | c :: tl => if is_space c then trim_start tl else l
  | [] => []
  end.

(** [s.trim()] *)
Definition trim (s : string) : string :=
  str (rev (trim_start (rev (trim_start (chars s))))).

(** [s.replace(/,/g, '')] *)
Definition remove_commas (s : string) : string :=
  str (filter (fun c => negb (Ascii.eqb c ","%char)) (chars s)).

(** Truthiness of a possibly undefined string: defined and not empty. *)
Definition truthy (o : option string) : bool :=
  match o with
  | Some s => negb (String.eqb s "")
  | None => false
  end.

End JsString.

(** ** Regular expressions with the backtracking semantics of the runtime *)

Module Regex.
Import JsString.

Inductive regex : Type :=
| Empty
| Char (c : ascii)
| Class (p : ascii -> bool)
| Seq (a b : regex)
| Alt (a b : regex)
| Star (a : regex)
| Group (i : nat) (a : regex)
| InputStart
| InputEnd.

Infix "·" := Seq (at level 41, right associativity).

(** Derived forms: [a+], [a?], [a{n}], [a{n,n+m}] (all greedy) and a
    literal run of characters. *)
Definition Plus (a : regex) : regex := a · Star a.
Definition Opt (a : regex) : regex := Alt a Empty.

Fixpoint Times (n : nat) (a : regex) : regex :=
  match n with
  | O => Empty
  | S n' => a · Times n' a
  end.

Fixpoint UpTo (m : nat) (a : regex) : regex :=
  match m with
  | O => Empty
  | S m' => Opt (a · UpTo m' a)
  end.

Definition Between (n m : nat) (a : regex) : regex :=
  Times n a · UpTo (m - n) a.

Fixpoint LitChars (l : list ascii) : regex :=
  match l with
  | [] => Empty
  | c :: tl => Char c · LitChars tl
  end.

Definition Lit (s : string) : regex := LitChars (chars s).

(** Character classes used by the services. *)
Definition ws : regex := Class is_space.                        (* \s *)
Definition nonws : regex := Class (fun c => negb (is_space c)). (* \S *)
Definition digit : regex := Class is_digit.                     (* \d *)
Definition dot : regex := Class (fun c => negb (is_line_terminator c)). (* . *)
Definition upperAZ : regex := Class is_upper.                   (* [A-Z] *)
Definition sep : regex :=
  Class (fun c => Ascii.eqb c "."%char || Ascii.eqb c ","%char). (* [.,] *)

(** Matcher state: the unread input, the index reached and the text
    captured by each group that took part in the match. *)
Record MState : Type := mkMState {
  rest : list ascii;
  pos : nat;
  caps : list (nat * string)
}.

Definition char_matches (icase : bool) (c x : ascii) : bool :=
  if icase then Ascii.eqb (upper_char c) (upper_char x) else Ascii.eqb c x.

Definition class_matches (icase : bool) (p : ascii -> bool) (x : ascii) : bool :=
  if icase then p x || p (upper_char x) || p (lower_char x) else p x.

Definition step (st : MState) (tl : list ascii) : MState :=
  mkMState tl (S (pos st)) (caps st).

Definition capture (i : nat) (st0 st1 : MState) : MState :=
  mkMState (rest st1) (pos st1)
           ((i, str (firstn (pos st1 - pos st0) (rest st0))) :: caps st1).

(** [rmatch icase r k st]: match [r] at [st], then continue with [k];
    alternatives are tried in order and the first overall success wins.
    An iteration of [Star] that consumes nothing is rejected. *)
Fixpoint rmatch (icase : bool) (r : regex) (k : MState -> option MState)
         (st : MState) {struct r} : option MState :=
  match r with
  | Empty => k st
  | Char c =>
      match rest st with
      | x :: tl => if char_matches icase c x then k (step st tl) else None
      | [] => None
      end
  | Class p =>
      match rest st with
      | x :: tl => if class_matches icase p x then k (step st tl) else None
      | [] => None
      end
  | Seq a b => rmatch icase a (rmatch icase b k) st
  | Alt a b =>
      match rmatch icase a k st with
      | Some res => Some res
      | None => rmatch icase b k st
      end
  | Star a =>
      (fix loop (fuel : nat) (st0 : MState) {struct fuel} : option MState :=
         match fuel with
         | O => k st0
         | S fuel' =>
             match rmatch icase a
                     (fun st1 => if (pos st0 <? pos st1)%nat
                                 then loop fuel' st1 else None) st0 with
             | Some res => Some res
             | None => k st0
             end
         end) (S (List.length (rest st))) st
  | Group i a => rmatch icase a (fun st1 => k (capture i st st1)) st
  | InputStart => if (pos st =? 0)%nat then k st else None
  | InputEnd => match rest st with [] => k st | _ :: _ => None end
  end.

(** The result array of [String.prototype.match] for a non-global
    expression: index [0] is the matched text, index [i] the text of
    group [i], undefined when the group took no part. *)
Record MatchResult : Type := mkMatch {
  index : nat;
  whole : string;
  groups : list (nat * string)
}.

Fixpoint assoc (i : nat) (l : list (nat * string)) : option string :=
  match l with
  | [] => None
  | (j, s) :: tl => if (i =? j)%nat then Some s else assoc i tl
  end.

Definition group (m : MatchResult) (i : nat) : option string :=
  match i with
  | O => Some (whole m)
  | _ => assoc i (groups m)
  end.

Definition match_at (icase : bool) (r : regex) (input : list ascii) (i : nat)
  : option MatchResult :=
  let st := mkMState input i [] in
  match rmatch icase r Some st with
  | Some st' =>
      Some (mkMatch i (str (firstn (pos st' - i) input)) (caps st'))
  | None => None
  end.

(** Leftmost match: start positions are tried from the left, the end of
    the input included. *)
Fixpoint search (icase : bool) (r : regex) (input : list ascii) (i : nat)
  : option MatchResult :=
  match match_at icase r input i with
  | Some m => Some m
  | None =>
      match input with
      | [] => None
      | _ :: tl => search icase r tl (S i)
      end
  end.

(** [s.match(/r/)] and [s.match(/r/i)] *)
Definition exec (icase : bool) (r : regex) (s : string) : option MatchResult :=
  search icase r (chars s) 0.

(** [/r/.test(s)] *)
Definition test (icase : bool) (r : regex) (s : string) : bool :=
  match exec icase r s with Some _ => true | None => false end.

End Regex.

(** ** JavaScript numbers *)

Module JsNumber.
Import JsString.

(** A number is an IEEE 754 binary64 value. *)
Definition number : Type := spec_float.

Definition prec : Z := 53.
Definition emax : Z := 1024.

Definition NaN : number := S754_nan.
Definition zero : number := S754_zero false.

(** [isNaN(x)] *)
Definition isNaN (x : number) : bool :=
  match x with S754_nan => true | _ => false end.

(** [x <= y] and [x > y]; both are false when an operand is NaN. *)
Definition le (x y : number) : bool := SFleb x y.
Definition gt (x y : number) : bool := SFltb y x.

(** The number nearest to [m * 10^e] (ties to even), as a decimal
    literal or [parseFloat] produce it. *)
Definition of_decimal (neg : bool) (m : N) (e : Z) : number :=
  match m with
  | N0 => S754_zero neg
  | Npos p =>
      let num := (p * Z.to_pos (10 ^ Z.max e 0))%positive in
      let den := Z.to_pos (10 ^ Z.max (- e) 0) in
      SFdiv prec emax (S754_finite neg num 0) (S754_finite false den 0)
  end.

Definition digit_value (c : ascii) : N := N.of_nat (code c - 48).

(** Reads a run of decimal digits: the digits read, as a number and a
    count, and the unread input. *)
Fixpoint read_digits (l : list ascii) (acc : N) (n : nat)
  : N * nat * list ascii :=
  match l with
  | c :: tl =>
      if is_digit c then read_digits tl (acc * 10 + digit_value c)%N (S n)
      else (acc, n, l)
  | [] => (acc, n, [])
  end.

Definition read_sign (l : list ascii) : bool * list ascii :=
  match l with
  | "-"%char :: tl => (true, tl)
  | "+"%char :: tl => (false, tl)
  | _ => (false, l)
  end.

(** The exponent part [e[+-]ddd], zero when there is none. *)
Definition read_exponent (l : list ascii) : Z :=
  match l with
  | c :: tl =>
      if Ascii.eqb c "e"%char || Ascii.eqb c "E"%char then
        let '(neg, tl') := read_sign tl in
        let '(v, n, _) := read_digits tl' 0%N 0%nat in
        match n with
        | O => 0%Z
        | S _ => if neg then (- Z.of_N v)%Z else Z.of_N v
        end
      else 0%Z
  | [] => 0%Z
  end.

Fixpoint starts_with (p l : list ascii) : bool :=
  match p, l with
  | [], _ => true
  | c :: p', x :: l' => Ascii.eqb c x && starts_with p' l'
  | _ :: _, [] => false
  end.

(** [parseFloat(s)]: skips leading white space and reads the longest
    prefix that is a decimal literal; NaN when there is none. *)
Definition parseFloat (s : string) : number :=
  let '(neg, l) := read_sign (trim_start (chars s)) in
  if starts_with (chars "Infinity") l then S754_infinity neg
  else
    let '(ip, ni, l1) := read_digits l 0%N 0%nat in
    let '(m, nf, l2) :=
      match l1 with
      | "."%char :: tl =>
          let '(m, nd, l2) := read_digits tl ip ni in (m, (nd - ni)%nat, l2)
      | _ => (ip, 0%nat, l1)
      end in
    match (ni + nf)%nat with
    | O => NaN
    | S _ => of_decimal neg m (read_exponent l2 - Z.of_nat nf)
    end.

End JsNumber.

(** ** Invoice metadata: extraction and validation (validation service) *)

Module Invoice.
Import JsString Regex JsNumber.

(** [Partial<InvoiceMetadata>]: every field may be undefined. *)
Record PartialInvoiceMetadata : Type := mkMetadata {
  invoiceNumber : option string;
  customerName : option string;
  totalAmount : option number;
  currency : option string;
  issueDate : option string
}.

Definition empty_metadata : PartialInvoiceMetadata :=
  mkMetadata None None None None None.

Definition set_invoiceNumber (v : string) (m : PartialInvoiceMetadata) :=
  mkMetadata (Some v) (customerName m) (totalAmount m) (currency m) (issueDate m).
Definition set_customerName (v : string) (m : PartialInvoiceMetadata) :=
  mkMetadata (invoiceNumber m) (Some v) (totalAmount m) (currency m) (issueDate m).
Definition set_totalAmount (v : number) (m : PartialInvoiceMetadata) :=
  mkMetadata (invoiceNumber m) (customerName m) (Some v) (currency m) (issueDate m).
Definition set_currency (v : string) (m : PartialInvoiceMetadata) :=
  mkMetadata (invoiceNumber m) (customerName m) (totalAmount m) (Some v) (issueDate m).
Definition set_issueDate (v : string) (m : PartialInvoiceMetadata) :=
  mkMetadata (invoiceNumber m) (customerName m) (totalAmount m) (currency m) (Some v).

(** [\d{4}-\d{2}-\d{2}] *)
Definition date_pattern : regex :=
  Times 4 digit · Char "-" · Times 2 digit · Char "-" · Times 2 digit.

(** [/Invoice Number:\s*(\S+)/i] *)
Definition invoiceNumberRegex : regex :=
  Lit "Invoice Number:" · Star ws · Group 1 (Plus nonws).

(** [/Customer:\s*(.+)/i] *)
Definition customerNameRegex : regex :=
  Lit "Customer:" · Star ws · Group 1 (Plus dot).

(** [/Total(?:\s+Amount)?:\s*(\d{1,3}(?:[.,]\d{3})*(?:[.,]\d{2})?)\s*([A-Z]{3})?/i] *)
Definition totalAmountRegex : regex :=
  Lit "Total" · Opt (Plus ws · Lit "Amount") · Char ":" · Star ws
  · Group 1 (Between 1 3 digit · Star (sep · Times 3 digit)
             · Opt (sep · Times 2 digit))
  · Star ws · Opt (Group 2 (Times 3 upperAZ)).

(** [/Currency:\s*([A-Z]{3})/i] *)
Definition currencyRegex : regex :=
  Lit "Currency:" · Star ws · Group 1 (Times 3 upperAZ).

(** [/Date:\s*(\d{4}-\d{2}-\d{2})/] *)
Definition issueDateRegex : regex :=
  Lit "Date:" · Star ws · Group 1 date_pattern.

(** [/^\d{4}-\d{2}-\d{2}$/] *)
Definition isoDateRegex : regex := InputStart · date_pattern · InputEnd.

(** A group read as [m[i]] after [m] was found to be a match; in the
    three places below the group always takes part in the match. *)
Definition group_text (m : MatchResult) (i : nat) : string :=
  match group m i with Some s => s | None => "" end.

Definition extractInvoiceMetadata (ocrText : string) : PartialInvoiceMetadata :=
  let metadata := empty_metadata in
  let metadata :=
    match exec true invoiceNumberRegex ocrText with
    | Some invoiceNumberMatch =>
        set_invoiceNumber (trim (group_text invoiceNumberMatch 1)) metadata
    | None => metadata
    end in
  let metadata :=
    match exec true customerNameRegex ocrText with
    | Some customerNameMatch =>
        set_customerName (trim (group_text customerNameMatch 1)) metadata
    | None => metadata
    end in
  let metadata :=
    match exec true totalAmountRegex ocrText with
    | Some totalAmountMatch =>
        let amountStr := remove_commas (group_text totalAmountMatch 1) in
        let metadata := set_totalAmount (parseFloat amountStr) metadata in
        if truthy (group totalAmountMatch 2)
        then set_currency (toUpperCase (group_text totalAmountMatch 2)) metadata
        else metadata
    | None => metadata
    end in
  let metadata :=
    if negb (truthy (currency metadata)) then
      match exec true currencyRegex ocrText with
      | Some currencyMatch =>
          set_currency (toUpperCase (group_text currencyMatch 1)) metadata
      | None => metadata
      end
    else metadata in
  let metadata :=
    match exec false issueDateRegex ocrText with
    | Some issueDateMatch => set_issueDate (group_text issueDateMatch 1) metadata
    | None => metadata
    end in
  metadata.

(** The five checks of [validateInvoiceMetadata], in source order: each
    is true when the check FAILS and its message is pushed. *)
Definition invoiceNumber_bad (m : PartialInvoiceMetadata) : bool :=
  match invoiceNumber m with
  | None => true
  | Some s => String.eqb s "" || (String.length s =? 0)%nat
  end.

Definition customerName_bad (m : PartialInvoiceMetadata) : bool :=
  match customerName m with
  | None => true
  | Some s => String.eqb s "" || (String.length s =? 0)%nat
  end.

Definition totalAmount_bad (m : PartialInvoiceMetadata) : bool :=
  match totalAmount m with
  | None => true
  | Some x => isNaN x || le x zero
  end.

Definition currency_bad (m : PartialInvoiceMetadata) : bool :=
  match currency m with
  | None => true
  | Some s => String.eqb s "" || (String.length s =? 0)%nat
  end.

Definition issueDate_bad (m : PartialInvoiceMetadata) : bool :=
  match issueDate m with
  | None => true
  | Some s => String.eqb s "" || negb (test false isoDateRegex s)
  end.

Definition push_if (b : bool) (msg : string) (errors : list string) : list string :=
  if b then errors ++ [msg] else errors.

Definition validateInvoiceMetadata (metadata : PartialInvoiceMetadata) : list string :=
  let errors := [] in
  let errors := push_if (invoiceNumber_bad metadata)
                  "Invoice Number is missing or empty." errors in
  let errors := push_if (customerName_bad metadata)
                  "Customer Name is missing or empty." errors in
  let errors := push_if (totalAmount_bad metadata)
                  "Total Amount is missing, invalid, or zero/negative." errors in
  let errors := push_if (currency_bad metadata)
                  "Currency is missing or empty." errors in
  let errors := push_if (issueDate_bad metadata)
                  "Issue Date is missing or invalid (expected YYYY-MM-DD)." errors in
  errors.

End Invoice.


(** ** Documents (types/document) *)

Module Doc.
Import JsNumber Invoice.

Inductive DocumentStatus : Type :=
| UPLOADED
| OCR_PENDING
| OCR_COMPLETED
| OCR_FAILED
| VALIDATION_PENDING
| VALIDATED
| VALIDATION_FAILED
| PERSISTENCE_PENDING
| PERSISTED
| FAILED.


Record OCRResult : Type := mkOCRResult {
  text : string;
  confidence : number;
  language : string
}.

Definition Buffer : Type := list Byte.byte.

(** [Document], as the handlers rebuild it from a hash: a field read
    from the hash is undefined when the hash does not have it. *)
Record Document : Type := mkDocument {
  id : option string;
  filename : option string;
  originalContent : Buffer;
  status : option DocumentStatus;
  ocrResult : option OCRResult;
  extractedMetadata : option PartialInvoiceMetadata;
  validationErrors : option (list string);
  createdAt : option string;
  updatedAt : option string
}.

Definition with_originalContent (b : Buffer) (d : Document) : Document :=
  mkDocument (id d) (filename d) b (status d) (ocrResult d)
             (extractedMetadata d) (validationErrors d) (createdAt d) (updatedAt d).
Definition with_status (s : DocumentStatus) (d : Document) : Document :=
  mkDocument (id d) (filename d) (originalContent d) (Some s) (ocrResult d)
             (extractedMetadata d) (validationErrors d) (createdAt d) (updatedAt d).
Definition with_ocrResult (r : OCRResult) (d : Document) : Document :=
  mkDocument (id d) (filename d) (originalContent d) (status d) (Some r)
             (extractedMetadata d) (validationErrors d) (createdAt d) (updatedAt d).
Definition with_extractedMetadata (m : PartialInvoiceMetadata) (d : Document) : Document :=
  mkDocument (id d) (filename d) (originalContent d) (status d) (ocrResult d)
             (Some m) (validationErrors d) (createdAt d) (updatedAt d).
Definition with_validationErrors (l : list string) (d : Document) : Document :=
  mkDocument (id d) (filename d) (originalContent d) (status d) (ocrResult d)
             (extractedMetadata d) (Some l) (createdAt d) (updatedAt d).

End Doc.

(** ** The store and the broker (lib/redis) *)

Module Redis.
Import JsNumber Invoice Doc.

(** A document hash, typed by the fields the services keep in it; the
    values kept as JSON text ([ocrResult], [extractedMetadata],
    [validationErrors]) are held as the values they serialise. *)
Record DocHash : Type := mkHash {
  h_id : option string;
  h_filename : option string;
  h_status : option DocumentStatus;
  h_createdAt : option string;
  h_updatedAt : option string;
  h_ocrResult : option OCRResult;
  h_extractedMetadata : option PartialInvoiceMetadata;
  h_validationErrors : option (list string)
}.

Definition empty_hash : DocHash :=
  mkHash None None None None None None None None.

(** [Object.keys(docHash).length === 0] *)
Definition hash_is_empty (h : DocHash) : bool :=
  match h with
  | mkHash None None None None None None None None => true
  | _ => false
  end.

(** A field/value pair of an [hset] call. *)
Inductive Field : Type :=
| F_id (v : string)
| F_filename (v : string)
| F_status (v : DocumentStatus)
| F_createdAt (v : string)
| F_updatedAt (v : string)
| F_ocrResult (v : OCRResult)
| F_extractedMetadata (v : PartialInvoiceMetadata)
| F_validationErrors (v : list string).

Definition set_field (h : DocHash) (f : Field) : DocHash :=
  match f with
  | F_id v => mkHash (Some v) (h_filename h) (h_status h) (h_createdAt h)
        (h_updatedAt h) (h_ocrResult h) (h_extractedMetadata h) (h_validationErrors h)
  | F_filename v => mkHash (h_id h) (Some v) (h_status h) (h_createdAt h)
        (h_updatedAt h) (h_ocrResult h) (h_extractedMetadata h) (h_validationErrors h)
  | F_status v => mkHash (h_id h) (h_filename h) (Some v) (h_createdAt h)
        (h_updatedAt h) (h_ocrResult h) (h_extractedMetadata h) (h_validationErrors h)
  | F_createdAt v => mkHash (h_id h) (h_filename h) (h_status h) (Some v)
        (h_updatedAt h) (h_ocrResult h) (h_extractedMetadata h) (h_validationErrors h)
  | F_updatedAt v => mkHash (h_id h) (h_filename h) (h_status h) (h_createdAt h)
        (Some v) (h_ocrResult h) (h_extractedMetadata h) (h_validationErrors h)
  | F_ocrResult v => mkHash (h_id h) (h_filename h) (h_status h) (h_createdAt h)
        (h_updatedAt h) (Some v) (h_extractedMetadata h) (h_validationErrors h)
  | F_extractedMetadata v => mkHash (h_id h) (h_filename h) (h_status h) (h_createdAt h)
        (h_updatedAt h) (h_ocrResult h) (Some v) (h_validationErrors h)
  | F_validationErrors v => mkHash (h_id h) (h_filename h) (h_status h) (h_createdAt h)
        (h_updatedAt h) (h_ocrResult h) (h_extractedMetadata h) (Some v)
  end.

(** The commands that change the store or the broker. *)
Inductive Command : Type :=
| HSET (key : string) (fields : list Field)
| DEL (key : string)
| XADD (topic : string) (entry : list string)
| XACK (topic group messageId : string).

Inductive Level : Type := LOG | WARN | ERROR.

(** The arguments of a console call; a template literal is the
    sequence of its pieces. *)
Inductive LogArg : Type :=
| Str (s : string)
| Data (d : list string)
| Errors (l : list string)
| Metadata (m : PartialInvoiceMetadata)
| Status (s : option DocumentStatus).

(** The world a service runs in: hashes and binary contents by key,
    topics with their entries in append order, the commands carried out
    so far (oldest first), the console, the timestamps the next
    [new Date()] calls return, and for each coming call of the client
    whether it raises (and with what message). *)
Record World : Type := mkWorld {
  hashes : gmap string DocHash;
  contents : gmap string Buffer;
  streams : gmap string (list (list string));
  journal : list Command;
  console : list (Level * list LogArg);
  clock : list string;
  faults : list (option string)
}.

Definition with_hashes (v : gmap string DocHash) (w : World) : World :=
  mkWorld v (contents w) (streams w) (journal w) (console w) (clock w) (faults w).
Definition with_contents (v : gmap string Buffer) (w : World) : World :=
  mkWorld (hashes w) v (streams w) (journal w) (console w) (clock w) (faults w).
Definition with_streams (v : gmap string (list (list string))) (w : World) : World :=
  mkWorld (hashes w) (contents w) v (journal w) (console w) (clock w) (faults w).
Definition with_journal (v : list Command) (w : World) : World :=
  mkWorld (hashes w) (contents w) (streams w) v (console w) (clock w) (faults w).
Definition with_console (v : list (Level * list LogArg)) (w : World) : World :=
  mkWorld (hashes w) (contents w) (streams w) (journal w) v (clock w) (faults w).
Definition with_clock (v : list string) (w : World) : World :=
  mkWorld (hashes w) (contents w) (streams w) (journal w) (console w) v (faults w).
Definition with_faults (v : list (option string)) (w : World) : World :=
  mkWorld (hashes w) (contents w) (streams w) (journal w) (console w) (clock w) v.

Definition record (c : Command) (w : World) : World :=
  with_journal (journal w ++ [c]) w.

(** *** Computations that read and change a state and may raise *)

Inductive Outcome (A : Type) : Type :=
| Returned (a : A)
| Thrown (message : string).
Arguments Returned {A} a.
Arguments Thrown {A} message.

Definition Eff (S A : Type) : Type := S -> Outcome A * S.

Definition ret {S A : Type} (a : A) : Eff S A := fun s => (Returned a, s).

Definition bind {S A B : Type} (c : Eff S A) (k : A -> Eff S B) : Eff S B :=
  fun s =>
    match c s with
    | (Returned a, s') => k a s'
    | (Thrown e, s') => (Thrown e, s')
    end.

(** [throw new Error(message)] *)
Definition throw {S A : Type} (message : string) : Eff S A :=
  fun s => (Thrown message, s).

(** [try { body } catch (error) { handler }], with [error.message]
    passed to the handler. *)
Definition try_catch {S A : Type} (body : Eff S A) (handler : string -> Eff S A)
  : Eff S A :=
  fun s =>
    match body s with
    | (Returned a, s') => (Returned a, s')
    | (Thrown e, s') => handler e s'
    end.

End Redis.

Declare Scope eff_scope.
Delimit Scope eff_scope with eff.
Notation "x <- c ;; k" := (Redis.bind c (fun x => k))
(at level 100, c at next level, right associativity) : eff_scope.
Notation "c ;; k" := (Redis.bind c (fun _ => k))
(at level 100, right associativity) : eff_scope.

Local Open Scope eff_scope.

(** *** The client ([RedisClient]), the console and the clock *)

Module Client.
Import Doc Redis.

(** A call of the client: it raises when the next entry of [faults]
    says so, and otherwise carries out the command. *)
Definition call {A : Type} (op : World -> A * World) : Eff World A :=
  fun w =>
    match faults w with
    | Some message :: later => (Thrown message, with_faults later w)
    | None :: later =>
        let '(a, w') := op (with_faults later w) in (Returned a, w')
    | [] => let '(a, w') := op w in (Returned a, w')
    end.

Definition lookup_hash (key : string) (w : World) : DocHash :=
  default empty_hash (hashes w !! key).

Definition lookup_stream (topic : string) (w : World) : list (list string) :=
  default [] (streams w !! topic).

(** [hgetall(key)]: the empty object when the key does not exist. *)
Definition hgetall (key : string) : Eff World DocHash :=
  call (fun w => (lookup_hash key w, w)).

(** [hset(key, field, value, ...)] *)
Definition hset (key : string) (fields : list Field) : Eff World unit :=
  call (fun w =>
    (tt, record (HSET key fields)
           (with_hashes
              (<[key := fold_left set_field fields (lookup_hash key w)]> (hashes w))
              w))).

(** [getBuffer(key)]: null when the key does not exist. *)
Definition getBuffer (key : string) : Eff World (option Buffer) :=
  call (fun w => (contents w !! key, w)).

(** [del(key)] *)
Definition del (key : string) : Eff World unit :=
  call (fun w =>
    (tt, record (DEL key)
           (with_contents (delete key (contents w))
              (with_hashes (delete key (hashes w)) w)))).

(** [xadd(topic, '*', field, value, ...)] *)
Definition xadd (topic : string) (entry : list string) : Eff World unit :=
  call (fun w =>
    (tt, record (XADD topic entry)
           (with_streams
              (<[topic := lookup_stream topic w ++ [entry]]> (streams w)) w))).

(** [xack(topic, group, id)] *)
Definition xack (topic group messageId : string) : Eff World unit :=
  call (fun w => (tt, record (XACK topic group messageId) w)).

(** [xreadgroup(...)]: the reply is the broker's choice. *)
Definition xreadgroup {R : Type} (reply : R) : Eff World R :=
  call (fun w => (reply, w)).

Definition console_write (l : Level) (args : list LogArg) : Eff World unit :=
  fun w => (Returned tt, with_console (console w ++ [(l, args)]) w).

Definition epoch : string := "1970-01-01T00:00:00.000Z".

(** [new Date().toISOString()] *)
Definition now : Eff World string :=
  fun w => (Returned (hd epoch (clock w)), with_clock (tl (clock w)) w).

End Client.

(** ** The stage handlers and the consumer loops *)

Module Pipeline.
Import JsString JsNumber Invoice Doc Redis Client.

(** The frame of a handler: the world and its local [document], which
    the [catch] block reads. *)
Record Frame : Type := mkFrame {
  world : World;
  document : option Document
}.

Definition io {A : Type} (c : Eff World A) : Eff Frame A :=
  fun f => let '(o, w') := c (world f) in (o, mkFrame w' (document f)).

Definition get_document : Eff Frame (option Document) :=
  fun f => (Returned (document f), f).

Definition set_document (d : Document) : Eff Frame unit :=
  fun f => (Returned tt, mkFrame (world f) (Some d)).

Definition update_document (g : Document -> Document) : Eff Frame unit :=
  fun f => (Returned tt, mkFrame (world f) (option_map g (document f))).

(** A handler call: [document] starts as null. *)
Definition invoke (h : Eff Frame unit) : Eff World unit :=
  fun w => let '(o, f) := h (mkFrame w None) in (o, world f).

Definition document_key (documentId : string) : string :=
  "document:" +:+ documentId.
Definition content_key (documentId : string) : string :=
  "document_content:" +:+ documentId.

Definition nl : string := String (ascii_of_nat 10) "".

(** [simulateOCR] (lib/ocr): a fixed result for every buffer. *)
Definition simulatedText : string :=
  nl +:+ "        Invoice Number: INV-2025-001"
  +:+ nl +:+ "        Customer: Acme Corp"
  +:+ nl +:+ "        Date: 2025-07-08"
  +:+ nl +:+ "        Total: 1234.56 USD"
  +:+ nl +:+ "        Currency: USD"
  +:+ nl +:+ "        Description: Consulting Services"
  +:+ nl +:+ "        Item 1: Product A - 10 units @ 50.00 USD"
  +:+ nl +:+ "        Item 2: Product B - 5 units @ 100.00 USD"
  +:+ nl +:+ "        Tax: 100.00 USD"
  +:+ nl +:+ "        Subtotal: 1134.56 USD"
  +:+ nl +:+ "        Vendor: Example Solutions Inc."
  +:+ nl +:+ "        Address: 123 Business Rd, City, Country"
  +:+ nl +:+ "        VAT ID: GB123456789"
  +:+ nl +:+ "      ".

Definition simulateOCR (imageBuffer : Buffer) : OCRResult :=
  mkOCRResult simulatedText (of_decimal false 98 (-2)) "en".

(** *** OCR service *)

Definition processDocumentForOCR (documentId : string) : Eff Frame unit :=
  try_catch
    (docHash <- io (hgetall (document_key documentId)) ;;
     if hash_is_empty docHash then
       io (console_write ERROR
             [Str "[OCR Processor] Document not found: "; Str documentId])
     else
       set_document
         (mkDocument (h_id docHash) (h_filename docHash) [] (h_status docHash)
                     None None None (h_createdAt docHash) (h_updatedAt docHash)) ;;
       originalContent <- io (getBuffer (content_key documentId)) ;;
       match originalContent with
       | None =>
           throw ("Original content not found for document: " +:+ documentId)
       | Some content =>
           update_document (with_originalContent content) ;;
           t <- io now ;;
           io (hset (document_key documentId) [F_status OCR_PENDING; F_updatedAt t]) ;;
           io (console_write LOG
                 [Str "[OCR Processor] Document "; Str documentId;
                  Str " status updated to OCR_PENDING."]) ;;
           let ocrResult := simulateOCR content in
           update_document (with_ocrResult ocrResult) ;;
           t <- io now ;;
           io (hset (document_key documentId)
                 [F_ocrResult ocrResult; F_status OCR_COMPLETED; F_updatedAt t]) ;;
           io (console_write LOG
                 [Str "[OCR Processor] OCR completed for document: "; Str documentId;
                  Str ". Status updated to OCR_COMPLETED."]) ;;
           io (xadd "ocr_result_queue"
                 ["documentId"; documentId; "status"; "OCR_COMPLETED"]) ;;
           io (console_write LOG
                 [Str "[OCR Processor] Document "; Str documentId;
                  Str " queued for validation."])
       end)
    (fun error =>
       io (console_write ERROR
             [Str "[OCR Processor] Error during OCR for document "; Str documentId;
              Str ":"; Str error]) ;;
       document <- get_document ;;
       match document with
       | Some _ =>
           t <- io now ;;
           io (hset (document_key documentId) [F_status OCR_FAILED; F_updatedAt t]) ;;
           io (xadd "dlq_ocr_failed" ["documentId"; documentId; "error"; error]) ;;
           io (console_write LOG
                 [Str "[OCR Processor] Document "; Str documentId;
                  Str " marked as OCR_FAILED and sent to DLQ."])
       | None => ret tt
       end).

(** *** Validation service *)

Definition processDocumentForValidation (documentId : string) : Eff Frame unit :=
  try_catch
    (docHash <- io (hgetall (document_key documentId)) ;;
     if hash_is_empty docHash then
       io (console_write ERROR
             [Str "[Validation Service] Document not found for validation: ";
              Str documentId])
     else
       set_document
         (mkDocument (h_id docHash) (h_filename docHash) [] (h_status docHash)
                     (h_ocrResult docHash) None None
                     (h_createdAt docHash) (h_updatedAt docHash)) ;;
       match h_ocrResult docHash with
       | Some ocr =>
           if String.eqb (text ocr) "" then
             throw ("OCR result missing for document " +:+ documentId
                    +:+ ". Cannot validate.")
           else
             t <- io now ;;
             io (hset (document_key documentId)
                   [F_status VALIDATION_PENDING; F_updatedAt t]) ;;
             io (console_write LOG
                   [Str "[Validation Service] Document "; Str documentId;
                    Str " status updated to VALIDATION_PENDING."]) ;;
             io (console_write LOG
                   [Str "[Validation Service] Extracting metadata for document ";
                    Str documentId; Str "... "; Str (text ocr)]) ;;
             let extractedMetadata := extractInvoiceMetadata (text ocr) in
             let validationErrors := validateInvoiceMetadata extractedMetadata in
             if (0 <? List.length validationErrors)%nat then
               update_document (with_status VALIDATION_FAILED) ;;
               update_document (with_validationErrors validationErrors) ;;
               update_document (with_extractedMetadata extractedMetadata) ;;
               t <- io now ;;
               io (hset (document_key documentId)
                     [F_extractedMetadata extractedMetadata;
                      F_validationErrors validationErrors;
                      F_status VALIDATION_FAILED; F_updatedAt t]) ;;
               io (console_write WARN
                     [Str "[Validation Service] Validation failed for document ";
                      Str documentId; Str ":"; Errors validationErrors]) ;;
               io (xadd "validation_queue"
                     ["documentId"; documentId; "status"; "VALIDATION_FAILED"]) ;;
               io (console_write LOG
                     [Str "[Validation Service] Document "; Str documentId;
                      Str " (VALIDATION_FAILED) queued for persistence."])
             else
               update_document (with_status VALIDATED) ;;
               update_document (with_extractedMetadata extractedMetadata) ;;
               t <- io now ;;
               io (hset (document_key documentId)
                     [F_extractedMetadata extractedMetadata;
                      F_status VALIDATED; F_updatedAt t]) ;;
               io (console_write LOG
                     [Str "[Validation Service] Validation succeeded for document ";
                      Str documentId; Str ". Extracted:"; Metadata extractedMetadata]) ;;
               io (xadd "validation_queue"
                     ["documentId"; documentId; "status"; "VALIDATED"]) ;;
               io (console_write LOG
                     [Str "[Validation Service] Document "; Str documentId;
                      Str " (VALIDATED) queued for persistence."])
       | None =>
           throw ("OCR result missing for document " +:+ documentId
                  +:+ ". Cannot validate.")
       end)
    (fun error =>
       io (console_write ERROR
             [Str "[Validation Service] Error during validation for document ";
              Str documentId; Str ":"; Str error]) ;;
       document <- get_document ;;
       match document with
       | Some _ =>
           t <- io now ;;
           io (hset (document_key documentId)
                 [F_status VALIDATION_FAILED; F_updatedAt t]) ;;
           io (xadd "dlq_validation_failed"
                 ["documentId"; documentId; "error"; error]) ;;
           io (console_write LOG
                 [Str "[Validation Service] Document "; Str documentId;
                  Str " marked as VALIDATION_FAILED and sent to DLQ."])
       | None => ret tt
       end).

(** *** Persistence service *)

Definition persistDocument (documentId : string) : Eff Frame unit :=
  try_catch
    (docHash <- io (hgetall (document_key documentId)) ;;
     if hash_is_empty docHash then
       io (console_write ERROR
             [Str "[Persistence Service] Document not found for persistence: ";
              Str documentId])
     else
       set_document
         (mkDocument (h_id docHash) (h_filename docHash) [] (h_status docHash)
                     (h_ocrResult docHash) (h_extractedMetadata docHash)
                     (h_validationErrors docHash)
                     (h_createdAt docHash) (h_updatedAt docHash)) ;;
       match h_status docHash with
       | Some VALIDATED =>
           t <- io now ;;
           io (hset (document_key documentId) [F_status PERSISTED; F_updatedAt t]) ;;
           io (console_write LOG
                 [Str "[Persistence Service] Document "; Str documentId;
                  Str " successfully persisted. Final status: PERSISTED."]) ;;
           io (del (content_key documentId)) ;;
           io (console_write LOG
                 [Str "[Persistence Service] Original content for document ";
                  Str documentId; Str " removed from temporary storage."])
       | Some VALIDATION_FAILED =>
           t <- io now ;;
           io (hset (document_key documentId) [F_status FAILED; F_updatedAt t]) ;;
           io (console_write LOG
                 [Str "[Persistence Service] Document "; Str documentId;
                  Str " not persisted due to validation failure. Final status: FAILED."])
       | other =>
           io (console_write WARN
                 [Str "[Persistence Service] Document "; Str documentId;
                  Str " received for persistence with unexpected status: ";
                  Status other; Str ". No specific action taken."])
       end)
    (fun error =>
       io (console_write ERROR
             [Str "[Persistence Service] Error during persistence for document ";
              Str documentId; Str ":"; Str error]) ;;
       document <- get_document ;;
       match document with
       | Some _ =>
           t <- io now ;;
           io (hset (document_key documentId) [F_status FAILED; F_updatedAt t]) ;;
           io (xadd "dlq_persistence_failed"
                 ["documentId"; documentId; "error"; error]) ;;
           io (console_write LOG
                 [Str "[Persistence Service] Document "; Str documentId;
                  Str " marked as FAILED and sent to DLQ."])
       | None => ret tt
       end).

(** *** The consumer loops *)

(** [data.indexOf(x)]: the first index holding [x], or -1. *)
Fixpoint indexOf (data : list string) (x : string) : Z :=
  match data with
  | [] => (-1)%Z
  | y :: tl =>
      if String.eqb y x then 0%Z
      else match indexOf tl x with
           | Zneg _ => (-1)%Z
           | i => (i + 1)%Z
           end
  end.

(** [data[i]]: undefined outside the array. *)
Definition element (data : list string) (i : Z) : option string :=
  if (i <? 0)%Z then None else nth_error data (Z.to_nat i).

(** What distinguishes the three services' loops. *)
Record Service : Type := mkService {
  STREAM_KEY : string;
  GROUP_NAME : string;
  tag : string;
  logs_data : bool;
  handler : string -> Eff Frame unit
}.

Definition ocrService : Service :=
  mkService "document_queue" "ocr_processor_group" "[OCR Processor]"
            true processDocumentForOCR.
Definition validationService : Service :=
  mkService "ocr_result_queue" "validation_processor_group" "[Validation Service]"
            false processDocumentForValidation.
Definition persistenceService : Service :=
  mkService "validation_queue" "persistence_processor_group" "[Persistence Service]"
            false persistDocument.

(** The body of the inner [for] loop: one message of a reply. *)
Definition handleMessage (s : Service) (message : string * list string)
  : Eff World unit :=
  let messageId := fst message in
  let data := snd message in
  (if logs_data s then
     console_write LOG [Str (tag s); Str " Received message ID: "; Str messageId;
                        Str " with data: "; Data data]
   else ret tt) ;;
  let documentIdIndex := indexOf data "documentId" in
  let documentId :=
    if negb (documentIdIndex =? -1)%Z then element data (documentIdIndex + 1)
    else None in
  if truthy documentId then
    let documentId := default "" documentId in
    console_write LOG [Str (tag s); Str " Received message ID: "; Str messageId;
                       Str " for document: "; Str documentId] ;;
    invoke (handler s documentId) ;;
    xack (STREAM_KEY s) (GROUP_NAME s) messageId ;;
    console_write LOG [Str (tag s); Str " Message ID "; Str messageId;
                       Str " acknowledged for document "; Str documentId; Str "."]
  else
    console_write WARN [Str (tag s); Str " Received message without documentId: ";
                        Data data; Str ". Acknowledging to avoid reprocessing."] ;;
    xack (STREAM_KEY s) (GROUP_NAME s) messageId.

Fixpoint for_each {A : Type} (body : A -> Eff World unit) (l : list A)
  : Eff World unit :=
  match l with
  | [] => ret tt
  | x :: tl => body x ;; for_each body tl
  end.

(** A reply of [xreadgroup]: null, or for each stream its messages. *)
Definition Reply : Type := option (list (string * list (string * list string))).

(** One turn of the [while (true)] loop, for the reply the broker gives. *)
Definition turn (s : Service) (reply : Reply) : Eff World unit :=
  try_catch
    (messages <- xreadgroup reply ;;
     match messages with
     | Some (stream :: more) =>
         for_each (fun stream => for_each (handleMessage s) (snd stream))
                  (stream :: more)
     | _ => ret tt
     end)
    (fun error =>
       console_write ERROR [Str (tag s); Str " Error in main processing loop:";
                            Str error]).

(** The loop, for the replies of a finite run. *)
Definition run (s : Service) (replies : list Reply) : Eff World unit :=
  for_each (turn s) replies.

End Pipeline.

(** ** What a run did, and the vocabulary of the specification *)

Module Observe.
Import JsString JsNumber Invoice Doc Redis Client Pipeline.

(** The commands carried out between [w] and [w']. *)
Definition performed (w w' : World) : list Command :=
  drop (List.length (journal w)) (journal w').

Definition statuses_of (fields : list Field) : list DocumentStatus :=
  flat_map (fun f => match f with F_status s => [s] | _ => [] end) fields.

(** The fields written to [key], in order. *)
Definition fields_written (key : string) (cmds : list Command) : list Field :=
  flat_map (fun c => match c with
                     | HSET k fields => if String.eqb k key then fields else []
                     | _ => []
                     end) cmds.

(** The status values written to [key], in order. *)
Definition status_writes (key : string) (cmds : list Command)
  : list DocumentStatus :=
  statuses_of (fields_written key cmds).

(** The entries appended to [topic], in order. *)
Definition emitted (topic : string) (cmds : list Command) : list (list string) :=
  flat_map (fun c => match c with
                     | XADD t entry => if String.eqb t topic then [entry] else []
                     | _ => []
                     end) cmds.

(** The keys deleted. *)
Definition deleted (cmds : list Command) : list string :=
  flat_map (fun c => match c with DEL k => [k] | _ => [] end) cmds.

(** No call of the client raises. *)
Definition reliable (w : World) : Prop := faults w = [].

(** The first call of the client, the fetch of the record, raises. *)
Definition fetch_raises (w : World) : Prop :=
  exists message later, faults w = Some message :: later.

(** The record of a document exists: its hash is not empty. *)
Definition record_exists (documentId : string) (w : World) : Prop :=
  hash_is_empty (lookup_hash (document_key documentId) w) = false.

Definition current_status (documentId : string) (w : World)
  : option DocumentStatus :=
  h_status (lookup_hash (document_key documentId) w).

(** The recognized text the validation handler works on, when the record
    has a recognition result with a text that is not empty. *)
Definition recognized_text (documentId : string) (w : World) : option string :=
  match h_ocrResult (lookup_hash (document_key documentId) w) with
  | Some ocr => if String.eqb (text ocr) "" then None else Some (text ocr)
  | None => None
  end.

(** A run that returned, changed nothing in the store or the broker and
    wrote one error line on the console. *)
Definition dropped (w : World) (r : Outcome unit * World) : Prop :=
  fst r = Returned tt
  /\ journal (snd r) = journal w
  /\ hashes (snd r) = hashes w
  /\ contents (snd r) = contents w
  /\ streams (snd r) = streams w
  /\ exists args, console (snd r) = console w ++ [(ERROR, args)].

(** The three stages and what the specification attaches to each. *)
Inductive Stage : Type := Recognition | ExtractionValidation | Persistence.

Definition service_of (stage : Stage) : Service :=
  match stage with
  | Recognition => ocrService
  | ExtractionValidation => validationService
  | Persistence => persistenceService
  end.

(** A call of the handler of a stage. *)
Definition run_stage (stage : Stage) (documentId : string) (w : World)
  : Outcome unit * World :=
  invoke (handler (service_of stage) documentId) w.


Definition failure_status (stage : Stage) : DocumentStatus :=
  match stage with
  | Recognition => OCR_FAILED
  | ExtractionValidation => VALIDATION_FAILED
  | Persistence => FAILED
  end.

(** The topic a stage emits to on success; persistence is the last stage. *)
Definition success_topic (stage : Stage) : option string :=
  match stage with
  | Recognition => Some "ocr_result_queue"
  | ExtractionValidation => Some "validation_queue"
  | Persistence => None
  end.

Definition dead_letter_topic (stage : Stage) : string :=
  match stage with
  | Recognition => "dlq_ocr_failed"
  | ExtractionValidation => "dlq_validation_failed"
  | Persistence => "dlq_persistence_failed"
  end.

Definition emitted_downstream (stage : Stage) (cmds : list Command)
  : list (list string) :=
  match success_topic stage with
  | Some topic => emitted topic cmds
  | None => []
  end.


(** The transition graph of the status state machine, as the
    specification draws it:
    UPLOADED -> OCR_PENDING -> OCR_COMPLETED | OCR_FAILED;
    OCR_COMPLETED -> VALIDATION_PENDING -> VALIDATED | VALIDATION_FAILED;
    VALIDATED -> PERSISTED; VALIDATION_FAILED -> FAILED. *)
Definition edge (a b : DocumentStatus) : bool :=
  match a, b with
  | UPLOADED, OCR_PENDING
  | OCR_PENDING, OCR_COMPLETED
  | OCR_PENDING, OCR_FAILED
  | OCR_COMPLETED, VALIDATION_PENDING
  | VALIDATION_PENDING, VALIDATED
  | VALIDATION_PENDING, VALIDATION_FAILED
  | VALIDATED, PERSISTED
  | VALIDATION_FAILED, FAILED => true
  | _, _ => false
  end.

(** Each write is an edge from the status current when it is made. *)
Fixpoint follows_graph (current : option DocumentStatus)
         (writes : list DocumentStatus) : bool :=
  match writes with
  | [] => true
  | s :: later =>
      match current with
      | Some c => edge c s
      | None => false
      end && follows_graph (Some s) later
  end.



(** The field names of a flat field/value array: the elements at even
    indices. *)
Fixpoint field_names (data : list string) : list string :=
  match data with
  | name :: _ :: more => name :: field_names more
  | name :: [] => [name]
  | [] => []
  end.

(** What a loop does for an entry it takes to have no [documentId]: a
    warning, then the acknowledgement; the handler is not called. *)
Definition skip_and_ack (s : Service) (message : string * list string)
  : Eff World unit :=
  (if logs_data s then
     console_write LOG [Str (tag s); Str " Received message ID: ";
                        Str (fst message); Str " with data: "; Data (snd message)]
   else ret tt) ;;
  console_write WARN [Str (tag s); Str " Received message without documentId: ";
                      Data (snd message);
                      Str ". Acknowledging to avoid reprocessing."] ;;
  xack (STREAM_KEY s) (GROUP_NAME s) (fst message).

(** What a loop does for an entry it reads the identifier [documentId]
    from: the handler is called, then the entry is acknowledged. *)
Definition handle_and_ack (s : Service) (message : string * list string)
           (documentId : string) : Eff World unit :=
  (if logs_data s then
     console_write LOG [Str (tag s); Str " Received message ID: ";
                        Str (fst message); Str " with data: "; Data (snd message)]
   else ret tt) ;;
  console_write LOG [Str (tag s); Str " Received message ID: "; Str (fst message);
                     Str " for document: "; Str documentId] ;;
  invoke (handler s documentId) ;;
  xack (STREAM_KEY s) (GROUP_NAME s) (fst message) ;;
  console_write LOG [Str (tag s); Str " Message ID "; Str (fst message);
                     Str " acknowledged for document "; Str documentId; Str "."].

(** The checks of the validation, in the specification's words. *)
Definition present (o : option string) : Prop :=
  exists s, o = Some s /\ s <> "".

Definition positive_number (o : option number) : Prop :=
  exists x, o = Some x /\ isNaN x = false /\ gt x zero = true.

(** Four digits, a dash, two digits, a dash, two digits. *)
Definition iso_date_shape (s : string) : Prop :=
  exists y1 y2 y3 y4 m1 m2 d1 d2 : ascii,
    chars s = [y1; y2; y3; y4; "-"%char; m1; m2; "-"%char; d1; d2]
    /\ Forall (fun c => is_digit c = true) [y1; y2; y3; y4; m1; m2; d1; d2].

(** The same shape, as a check on the characters. *)
Definition iso_date_chars (l : list ascii) : bool :=
  match l with
  | [y1; y2; y3; y4; h1; m1; m2; h2; d1; d2] =>
      is_digit y1 && is_digit y2 && is_digit y3 && is_digit y4
      && Ascii.eqb "-"%char h1 && is_digit m1 && is_digit m2
      && Ascii.eqb "-"%char h2 && is_digit d1 && is_digit d2
  | _ => false
  end.

Definition dated (o : option string) : Prop :=
  exists s, o = Some s /\ iso_date_shape s.

Definition message_invoiceNumber : string := "Invoice Number is missing or empty.".
Definition message_customerName : string := "Customer Name is missing or empty.".
Definition message_totalAmount : string :=
  "Total Amount is missing, invalid, or zero/negative.".
Definition message_currency : string := "Currency is missing or empty.".
Definition message_issueDate : string :=
  "Issue Date is missing or invalid (expected YYYY-MM-DD).".

End Observe.

(** ** Sample worlds *)

Module Samples.
Import JsString JsNumber Invoice Doc Redis Client Pipeline Observe.

Definition stamp : string := "2025-07-08T10:00:00.000Z".

Definition pdf : Buffer := [Byte.x25; Byte.x50; Byte.x44; Byte.x46].

(** The record of document [doc-1]. *)
Definition record_of (s : DocumentStatus) (ocr : option OCRResult) : DocHash :=
  mkHash (Some "doc-1") (Some "invoice.pdf") (Some s) (Some stamp) (Some stamp)
         ocr None None.

(** A world holding that record, with or without its payload. *)
Definition world_of (h : DocHash) (payload : option Buffer)
           (fs : list (option string)) : World :=
  mkWorld {[ document_key "doc-1" := h ]}
          (match payload with
           | Some b => {[ content_key "doc-1" := b ]}
           | None => ∅
           end)
          ∅ [] [] [] fs.

(** A world without any record. *)
Definition empty_world (fs : list (option string)) : World :=
  mkWorld ∅ ∅ ∅ [] [] [] fs.

(** The five lines of the sample invoice. *)
Definition invoice_lines : string :=
  "Invoice Number: INV-2025-001" +:+ nl
  +:+ "Customer: Acme Corp" +:+ nl
  +:+ "Total: 1234.56 USD" +:+ nl
  +:+ "Currency: USD" +:+ nl
  +:+ "Date: 2025-07-08".

(** The same invoice without its customer line. *)
Definition invoice_without_customer : string :=
  "Invoice Number: INV-2025-001" +:+ nl
  +:+ "Total: 1234.56 USD" +:+ nl
  +:+ "Currency: USD" +:+ nl
  +:+ "Date: 2025-07-08".

Definition recognized (t : string) : OCRResult :=
  mkOCRResult t (of_decimal false 98 (-2)) "en".

(** Document [doc-1] just uploaded, with and without its payload. *)
Definition uploaded_world : World :=
  world_of (record_of UPLOADED None) (Some pdf) [].
Definition payloadless_world : World :=
  world_of (record_of UPLOADED None) None [].

(** The same, when the store fails on the first call. *)
Definition unreachable_world : World :=
  world_of (record_of UPLOADED None) (Some pdf) [Some "ECONNREFUSED"].


(** Document [doc-1] after recognition of an invoice without customer. *)
Definition incomplete_world : World :=
  world_of (record_of OCR_COMPLETED (Some (recognized invoice_without_customer)))
           (Some pdf) [].

(** Document [doc-1] after validation, and after a failed validation. *)
Definition validated_world : World :=
  world_of (record_of VALIDATED (Some (recognized invoice_lines))) (Some pdf) [].
Definition rejected_world : World :=
  world_of (record_of VALIDATION_FAILED
              (Some (recognized invoice_without_customer))) (Some pdf) [].


(** An entry without a [documentId] field, one of whose values is the
    text [documentId]. *)
Definition odd_entry : list string := ["note"; "documentId"; "doc-1"; "memo"].

End Samples.

(** ** What an expression matches *)

Module RegexSpec.
Import JsString Regex.

(** The texts an expression matches, whatever comes before and after:
    [lang icase r l] holds when [r] can consume exactly [l]. *)
Inductive lang (icase : bool) : regex -> list ascii -> Prop :=
| lang_empty : lang icase Empty []
| lang_char c x : char_matches icase c x = true -> lang icase (Char c) [x]
| lang_class p x : class_matches icase p x = true -> lang icase (Class p) [x]
| lang_seq a b l1 l2 :
    lang icase a l1 -> lang icase b l2 -> lang icase (Seq a b) (l1 ++ l2)
| lang_alt_l a b l : lang icase a l -> lang icase (Alt a b) l
| lang_alt_r a b l : lang icase b l -> lang icase (Alt a b) l
| lang_star_stop a : lang icase (Star a) []
| lang_star_more a l1 l2 :
    lang icase a l1 -> lang icase (Star a) l2 -> lang icase (Star a) (l1 ++ l2)
| lang_group i a l : lang icase a l -> lang icase (Group i a) l
| lang_start : lang icase InputStart []
| lang_end : lang icase InputEnd [].

(** The bodies of the groups numbered [i] in an expression. *)
Fixpoint group_bodies (r : regex) (i : nat) : list regex :=
  match r with
  | Seq a b | Alt a b => group_bodies a i ++ group_bodies b i
  | Star a => group_bodies a i
  | Group j a => (if (i =? j)%nat then [a] else []) ++ group_bodies a i
  | _ => []
  end.

(** A captured text is one the body of its group matches. *)
Definition captured_by (icase : bool) (r : regex) (e : nat * string) : Prop :=
  exists a, In a (group_bodies r (fst e)) /\ lang icase a (chars (snd e)).

(** [st'] is [st] after [consumed] was read and [new] was captured. *)
Definition advanced (st st' : MState) (consumed : list ascii)
           (new : list (nat * string)) : Prop :=
  rest st = consumed ++ rest st'
  /\ pos st' = (pos st + List.length consumed)%nat
  /\ caps st' = new ++ caps st.

End RegexSpec.

(** ** Shapes of extracted fields *)

Module Shapes.
Import JsString JsNumber.

(** Three capital letters. *)
Definition three_capitals (s : string) : Prop :=
  exists x y z, chars s = [x; y; z]
    /\ is_upper x = true /\ is_upper y = true /\ is_upper z = true.

(** No white space anywhere. *)
Definition spaceless (s : string) : Prop :=
  Forall (fun c => is_space c = false) (chars s).

(** On one line. *)
Definition single_line (s : string) : Prop :=
  Forall (fun c => is_line_terminator c = false) (chars s).

(** No white space at either end. *)
Definition trimmed (s : string) : Prop :=
  (forall x tl, chars s = x :: tl -> is_space x = false)
  /\ (forall x front, chars s = front ++ [x] -> is_space x = false).

(** The values a rounding to nearest can give for a mantissa that is not
    negative: zero, a finite number or infinity, with the sign asked for. *)
Definition signed_value (s : bool) (x : number) : Prop :=
  match x with
  | S754_nan => False
  | S754_zero s' | S754_infinity s' | S754_finite s' _ _ => s' = s
  end.

End Shapes.

(** ** What a handler and a loop do, whatever the client does *)

Module Conduct.
Import Doc Redis Client Pipeline Observe.

(** The status values a stage writes. *)
Definition stage_statuses (stage : Stage) : list DocumentStatus :=
  match stage with
  | Recognition => [OCR_PENDING; OCR_COMPLETED; OCR_FAILED]
  | ExtractionValidation => [VALIDATION_PENDING; VALIDATED; VALIDATION_FAILED]
  | Persistence => [PERSISTED; FAILED]
  end.

(** The topics a stage appends to. *)
Definition stage_topics (stage : Stage) : list string :=
  match success_topic stage with
  | Some topic => [topic; dead_letter_topic stage]
  | None => [dead_letter_topic stage]
  end.

(** The fields the stages fill in; [id], [filename] and [createdAt] are
    the upload's. *)
Definition result_field (f : Field) : bool :=
  match f with
  | F_id _ | F_filename _ | F_createdAt _ => false
  | _ => true
  end.

(** The commands the handler of a stage issues for a document: writes of
    result fields to the record of the document, with status values of
    the stage; entries for the document on the topics of the stage; for
    persistence, the deletion of the payload of the document.  No
    acknowledgement. *)
Definition own_command (stage : Stage) (documentId : string) (c : Command)
  : Prop :=
  match c with
  | HSET key fields =>
      key = document_key documentId
      /\ forallb result_field fields = true
      /\ List.incl (statuses_of fields) (stage_statuses stage)
  | XADD topic entry =>
      In topic (stage_topics stage)
      /\ exists name value, entry = ["documentId"; documentId; name; value]
  | DEL key => stage = Persistence /\ key = content_key documentId
  | XACK _ _ _ => False
  end.

(** The commands the loop of a stage issues: those of its handler, for
    some document, and acknowledgements on its own topic and group. *)
Definition loop_command (stage : Stage) (c : Command) : Prop :=
  (exists documentId, own_command stage documentId c)
  \/ exists messageId,
       c = XACK (STREAM_KEY (service_of stage)) (GROUP_NAME (service_of stage))
                messageId.

(** From [w] to [w'] the journal grew by commands in [P]. *)
Definition issues (P : Command -> Prop) (w w' : World) : Prop :=
  exists cmds, journal w' = journal w ++ cmds /\ Forall P cmds.

(** From [w] to [w'] nothing changed under the keys of other documents,
    and every topic kept its entries, in order, at its front. *)
Definition others_kept (documentId : string) (w w' : World) : Prop :=
  (forall key, key <> document_key documentId ->
               key <> content_key documentId ->
               hashes w' !! key = hashes w !! key)
  /\ (forall key, key <> content_key documentId ->
                  contents w' !! key = contents w !! key)
  /\ (forall topic, exists new,
         lookup_stream topic w' = lookup_stream topic w ++ new).

(** From [w] to [w'] the record of the document kept the fields of the
    upload, and was not removed. *)
Definition record_kept (documentId : string) (w w' : World) : Prop :=
  let h := lookup_hash (document_key documentId) w in
  let h' := lookup_hash (document_key documentId) w' in
  h_id h' = h_id h
  /\ h_filename h' = h_filename h
  /\ h_createdAt h' = h_createdAt h
  /\ (hash_is_empty h = false -> hash_is_empty h' = false).

(** From [w] to [w'] calls of the client used up a front part of the
    schedule of faults. *)
Definition consumed (w w' : World) : Prop :=
  exists used, faults w = used ++ faults w'.

Definition confined (stage : Stage) (documentId : string) (w w' : World)
  : Prop :=
  issues (own_command stage documentId) w w'
  /\ others_kept documentId w w'
  /\ record_kept documentId w w'
  /\ consumed w w'.

Definition loop_confined (stage : Stage) (w w' : World) : Prop :=
  issues (loop_command stage) w w' /\ consumed w w'.

(** The world itself, as the part of a state a relation looks at. *)
Definition whole (w : World) : World := w.

(** A computation relates, by [R], the world it starts in to the world
    it ends in, whether it returns or raises. *)
Definition kept {St A : Type} (view : St -> World)
           (R : World -> World -> Prop) (c : Eff St A) : Prop :=
  forall s, R (view s) (view (snd (c s))).

(** [e] is what a call of the client raised between [w] and [w']. *)
Definition client_error (e : string) (w w' : World) : Prop :=
  exists used, faults w = used ++ Some e :: faults w'.

(** Whatever a computation raises was raised by the client, in its last
    call. *)
Definition escapes {St A : Type} (view : St -> World) (c : Eff St A) : Prop :=
  forall s e, fst (c s) = Thrown e ->
              client_error e (view s) (view (snd (c s))).

(** The acknowledgements among commands: topic, group and entry. *)
Definition acknowledged (cmds : list Command)
  : list (string * string * string) :=
  flat_map (fun c => match c with
                     | XACK topic group messageId => [(topic, group, messageId)]
                     | _ => []
                     end) cmds.

(** The entries of a reply, in the order the loop takes them. *)
Definition entries_of (reply : Reply) : list (string * list string) :=
  match reply with
  | Some streams => flat_map snd streams
  | None => []
  end.

(** The acknowledgement a service gives an entry. *)
Definition ack_of (s : Service) (message : string * list string)
  : string * string * string :=
  (STREAM_KEY s, GROUP_NAME s, fst message).

(** A computation acknowledges [acks], in order, when it returns, and a
    front part of [acks] when it raises. *)
Definition acknowledges {A : Type} (acks : list (string * string * string))
           (c : Eff World A) : Prop :=
  forall w, exists cmds,
    journal (snd (c w)) = journal w ++ cmds
    /\ match fst (c w) with
       | Returned _ => acknowledged cmds = acks
       | Thrown _ => acknowledged cmds `prefix_of` acks
       end.

(** The input the handler of a stage goes on with: the payload for
    recognition, a recognized text for extraction/validation, the status
    VALIDATED for persistence. *)
Definition ready (stage : Stage) (documentId : string) (w : World) : Prop :=
  match stage with
  | Recognition => contents w !! content_key documentId <> None
  | ExtractionValidation => recognized_text documentId w <> None
  | Persistence => current_status documentId w = Some VALIDATED
  end.

(** The calls of the client the [try] block of a handler makes after the
    fetch of the record, when the input is there. *)
Definition later_calls (stage : Stage) : nat :=
  match stage with
  | Recognition => 4
  | ExtractionValidation => 3
  | Persistence => 2
  end.

(** The lines a loop logs for an entry before it calls the handler. *)
Definition announce (s : Service) (message : string * list string)
           (documentId : string) : Eff World unit :=
  (if logs_data s then
     console_write LOG [Str (tag s); Str " Received message ID: ";
                        Str (fst message); Str " with data: "; Data (snd message)]
   else ret tt) ;;
  console_write LOG [Str (tag s); Str " Received message ID: "; Str (fst message);
                     Str " for document: "; Str documentId].

(** The entries a loop handles to the end, one after the other from [w]
    on: those before the first whose handling raises. *)
Fixpoint handled (s : Service) (entries : list (string * list string))
         (w : World) : list (string * list string) :=
  match entries with
  | [] => []
  | message :: later =>
      match handleMessage s message w with
      | (Returned _, w') => message :: handled s later w'
      | (Thrown _, _) => []
      end
  end.

(** A computation issues the acknowledgement [ack] as its last command
    when it returns, and acknowledges nothing when it raises. *)
Definition acknowledges_last {A : Type} (ack : Command) (c : Eff World A)
  : Prop :=
  forall w, exists cmds,
    journal (snd (c w)) = journal w ++ cmds
    /\ match fst (c w) with
       | Returned _ =>
           exists before, cmds = before ++ [ack] /\ acknowledged before = []
       | Thrown _ => acknowledged cmds = []
       end.

End Conduct.
(** * Supporting lemmas *)

Import JsString Regex JsNumber Invoice Doc Redis Client Pipeline Observe.

Lemma performed_app (w w' : World) (cmds : list Command) :
  journal w' = journal w ++ cmds -> performed w w' = cmds.
Proof.
  intros E. unfold performed. rewrite E. apply drop_app_length.
Qed.

Lemma performed_same (w w' : World) :
  journal w' = journal w -> performed w w' = [].
Proof.
  intros E. apply performed_app. rewrite E. symmetry. apply app_nil_r.
Qed.

Lemma keys_apart (documentId : string) :
  content_key documentId <> document_key documentId.
Proof.
  unfold content_key, document_key. intros E. injection E. discriminate.
Qed.

(** Evaluates a run of a handler, leaving keys, texts and maps folded. *)
Ltac run :=
  lazy beta iota zeta delta
    [run_stage service_of handler ocrService validationService
     persistenceService invoke processDocumentForOCR
     processDocumentForValidation persistDocument try_catch bind io hgetall
     getBuffer hset xadd del xack call now console_write get_document
     set_document update_document ret throw lookup_hash lookup_stream record
     with_hashes with_contents with_streams with_journal with_console
     with_clock with_faults hashes contents streams journal console clock
     faults world document fst snd option_map fold_left set_field
     h_id h_filename h_status h_createdAt h_updatedAt h_ocrResult
     h_extractedMetadata h_validationErrors
     dropped current_status record_exists recognized_text reliable
     Nat.ltb Nat.leb List.length from_option Datatypes.id].

Ltac run_in H :=
  lazy beta iota zeta delta
    [run_stage service_of handler ocrService validationService
     persistenceService invoke processDocumentForOCR
     processDocumentForValidation persistDocument try_catch bind io hgetall
     getBuffer hset xadd del xack call now console_write get_document
     set_document update_document ret throw lookup_hash lookup_stream record
     with_hashes with_contents with_streams with_journal with_console
     with_clock with_faults hashes contents streams journal console clock
     faults world document fst snd option_map fold_left set_field
     h_id h_filename h_status h_createdAt h_updatedAt h_ocrResult
     h_extractedMetadata h_validationErrors
     dropped current_status record_exists recognized_text reliable
     Nat.ltb Nat.leb List.length from_option Datatypes.id] in H.

(** Reads back what was just written to a hash. *)
Ltac read_back := rewrite !lookup_insert_eq; run.

(** Names the hash of an existing record. *)
Ltac fetch Hrec h Hh :=
  run_in Hrec;
  match type of Hrec with
  | context [?H !! ?k] =>
      destruct (H !! k) as [h|] eqn:Hh; [|discriminate Hrec]
  end.

(** Opens a world whose client is reliable. *)
Ltac open_world w Hrel :=
  let F := fresh "F" in
  destruct w as [? ? ? ? ? ? F]; run_in Hrel; subst F.

(** ** Runs of the OCR handler *)

Section OcrRuns.
Variables (w : World) (documentId : string).
Hypothesis Hrel : reliable w.
Hypothesis Hrec : record_exists documentId w.

Let key := document_key documentId.
Let r := run_stage Recognition documentId w.

Lemma ocr_transform (content : Buffer) :
  contents w !! content_key documentId = Some content ->
  fst r = Returned tt
  /\ journal (snd r)
     = journal w ++
       [HSET key [F_status OCR_PENDING; F_updatedAt (hd epoch (clock w))];
        HSET key [F_ocrResult (simulateOCR content); F_status OCR_COMPLETED;
                  F_updatedAt (hd epoch (tl (clock w)))];
        XADD "ocr_result_queue"
             ["documentId"; documentId; "status"; "OCR_COMPLETED"]]
  /\ current_status documentId (snd r) = Some OCR_COMPLETED
  /\ h_ocrResult (lookup_hash key (snd r)) = Some (simulateOCR content).
Proof.
  intros Hc. subst r key. open_world w Hrel. run_in Hc. fetch Hrec h Hh.
  run. rewrite Hh. run. rewrite Hrec. run. rewrite Hc. run.
  read_back. rewrite <- !app_assoc. auto.
Qed.

Lemma ocr_payload_missing :
  contents w !! content_key documentId = None ->
  fst r = Returned tt
  /\ journal (snd r)
     = journal w ++
       [HSET key [F_status OCR_FAILED; F_updatedAt (hd epoch (clock w))];
        XADD "dlq_ocr_failed"
             ["documentId"; documentId; "error";
              "Original content not found for document: " +:+ documentId]]
  /\ current_status documentId (snd r) = Some OCR_FAILED.
Proof.
  intros Hc. subst r key. open_world w Hrel. run_in Hc. fetch Hrec h Hh.
  run. rewrite Hh. run. rewrite Hrec. run. rewrite Hc. run.
  read_back. rewrite <- !app_assoc. auto.
Qed.

End OcrRuns.

(** ** Runs of the validation handler *)

Section ValidationRuns.
Variables (w : World) (documentId : string).
Hypothesis Hrel : reliable w.
Hypothesis Hrec : record_exists documentId w.

Let key := document_key documentId.
Let r := run_stage ExtractionValidation documentId w.

Lemma validation_checks (ocrText : string) :
  recognized_text documentId w = Some ocrText ->
  let metadata := extractInvoiceMetadata ocrText in
  let errors := validateInvoiceMetadata metadata in
  let pending :=
    HSET key [F_status VALIDATION_PENDING; F_updatedAt (hd epoch (clock w))] in
  let stamp := F_updatedAt (hd epoch (tl (clock w))) in
  fst r = Returned tt
  /\ h_extractedMetadata (lookup_hash key (snd r)) = Some metadata
  /\ match errors with
     | [] =>
         journal (snd r)
         = journal w ++
           [pending;
            HSET key [F_extractedMetadata metadata; F_status VALIDATED; stamp];
            XADD "validation_queue"
                 ["documentId"; documentId; "status"; "VALIDATED"]]
         /\ current_status documentId (snd r) = Some VALIDATED
         /\ h_validationErrors (lookup_hash key (snd r))
            = h_validationErrors (lookup_hash key w)
     | _ :: _ =>
         journal (snd r)
         = journal w ++
           [pending;
            HSET key [F_extractedMetadata metadata; F_validationErrors errors;
                      F_status VALIDATION_FAILED; stamp];
            XADD "validation_queue"
                 ["documentId"; documentId; "status"; "VALIDATION_FAILED"]]
         /\ current_status documentId (snd r) = Some VALIDATION_FAILED
         /\ h_validationErrors (lookup_hash key (snd r)) = Some errors
     end.
Proof.
  intros Ht metadata errors pending stamp.
  subst r key pending stamp errors metadata.
  open_world w Hrel. run_in Ht. fetch Hrec h Hh.
  run. rewrite Hh. run. rewrite Hrec. run.
  destruct h as [? ? ? ? ? [ocr|] ? ?]; [|discriminate].
  run. run_in Ht.
  destruct (String.eqb (text ocr) "") eqn:Hempty; [discriminate|].
  injection Ht as <-. run.
  destruct (validateInvoiceMetadata (extractInvoiceMetadata (text ocr)))
    as [|e errors] eqn:Herr; run;
    read_back; rewrite <- !app_assoc, ?Hh; run;
    repeat split; reflexivity.
Qed.


End ValidationRuns.

(** ** Runs of the persistence handler *)

Section PersistenceRuns.
Variables (w : World) (documentId : string).
Hypothesis Hrel : reliable w.
Hypothesis Hrec : record_exists documentId w.

Let key := document_key documentId.
Let r := run_stage Persistence documentId w.

Lemma persist_validated :
  current_status documentId w = Some VALIDATED ->
  fst r = Returned tt
  /\ journal (snd r)
     = journal w ++
       [HSET key [F_status PERSISTED; F_updatedAt (hd epoch (clock w))];
        DEL (content_key documentId)]
  /\ current_status documentId (snd r) = Some PERSISTED
  /\ contents (snd r) = delete (content_key documentId) (contents w)
  /\ streams (snd r) = streams w.
Proof.
  intros Hs. subst r key. open_world w Hrel. run_in Hs. fetch Hrec h Hh.
  run. rewrite Hh. run. rewrite Hrec. run. rewrite Hs. run.
  rewrite lookup_delete_ne.
  - read_back. rewrite <- !app_assoc. auto.
  - apply keys_apart.
Qed.

Lemma persist_validation_failed :
  current_status documentId w = Some VALIDATION_FAILED ->
  fst r = Returned tt
  /\ journal (snd r)
     = journal w ++
       [HSET key [F_status FAILED; F_updatedAt (hd epoch (clock w))]]
  /\ current_status documentId (snd r) = Some FAILED
  /\ contents (snd r) = contents w
  /\ streams (snd r) = streams w.
Proof.
  intros Hs. subst r key. open_world w Hrel. run_in Hs. fetch Hrec h Hh.
  run. rewrite Hh. run. rewrite Hrec. run. rewrite Hs. run.
  read_back. auto.
Qed.

Lemma persist_other_status :
  current_status documentId w <> Some VALIDATED ->
  current_status documentId w <> Some VALIDATION_FAILED ->
  fst r = Returned tt
  /\ journal (snd r) = journal w
  /\ hashes (snd r) = hashes w
  /\ contents (snd r) = contents w
  /\ streams (snd r) = streams w
  /\ console (snd r)
     = console w ++
       [(WARN, [Str "[Persistence Service] Document "; Str documentId;
                Str " received for persistence with unexpected status: ";
                Status (current_status documentId w);
                Str ". No specific action taken."])].
Proof.
  intros Hs1 Hs2. subst r key. open_world w Hrel.
  run_in Hs1. run_in Hs2. fetch Hrec h Hh.
  run. rewrite Hh. run. rewrite Hrec. run.
  destruct h as [? ? [[]|] ? ? ? ? ?]; run;
    run_in Hs1; run_in Hs2; try congruence; repeat split; reflexivity.
Qed.

End PersistenceRuns.

(** ** Runs that end before the record is rebuilt *)

Lemma record_absent_dropped (stage : Stage) (w : World) (documentId : string) :
  hash_is_empty (lookup_hash (document_key documentId) w) = true ->
  dropped w (run_stage stage documentId w).
Proof.
  intros He. destruct w as [H C S J L K F]. run_in He.
  destruct (H !! document_key documentId) as [h|] eqn:Hh;
    destruct stage; destruct F as [|[message|] later]; run;
    rewrite ?Hh; run; rewrite ?He; run; repeat split; eauto.
Qed.

Lemma fetch_raises_dropped (stage : Stage) (w : World) (documentId : string) :
  fetch_raises w ->
  dropped w (run_stage stage documentId w).
Proof.
  intros (message & later & Hf).
  destruct w as [H C S J L K F]. simpl in Hf. subst F.
  destruct stage; run; repeat split; eauto.
Qed.

(** ** The loop body *)

Lemma indexOf_absent (data : list string) (x : string) :
  ~ In x data -> indexOf data x = (-1)%Z.
Proof.
  induction data as [|y tl IH]; simpl; intros Hn; [reflexivity|].
  destruct (String.eqb_spec y x) as [->|Hne].
  - exfalso. apply Hn. now left.
  - rewrite IH; [reflexivity|]. intros Hin. apply Hn. now right.
Qed.

(** An entry in which the text [documentId] occurs nowhere, neither as a
    field name nor as a value, is acknowledged and skipped, whatever the
    handler. *)
Lemma absent_everywhere_skipped (s : Service) (messageId : string)
      (data : list string) (w : World) :
  ~ In "documentId" data ->
  handleMessage s (messageId, data) w = skip_and_ack s (messageId, data) w.
Proof.
  intros Hn. unfold handleMessage, skip_and_ack. simpl fst. simpl snd.
  rewrite (indexOf_absent _ _ Hn). reflexivity.
Qed.

(** ** The checks of the validation *)

Lemma chars_str (l : list ascii) : chars (str l) = l.
Proof. apply list_ascii_of_string_of_list_ascii. Qed.

Lemma str_chars (s : string) : str (chars s) = s.
Proof. apply string_of_list_ascii_of_string. Qed.

Lemma nonempty_check (s : string) :
  String.eqb s "" || (String.length s =? 0)%nat = false <-> s <> "".
Proof.
  destruct s as [|c s]; simpl; split; intros H; try congruence; try discriminate.
Qed.

Lemma present_check (o : option string) :
  match o with
  | None => true
  | Some s => String.eqb s "" || (String.length s =? 0)%nat
  end = false <-> present o.
Proof.
  unfold present. destruct o as [s|].
  - rewrite nonempty_check. split.
    + intros H. exists s. auto.
    + intros (s' & [= <-] & H). exact H.
  - split; [discriminate|]. intros (s & H & _). discriminate.
Qed.

Lemma amount_check (o : option number) :
  match o with
  | None => true
  | Some x => isNaN x || le x zero
  end = false <-> positive_number o.
Proof.
  unfold positive_number. destruct o as [x|].
  - split.
    + intros H. exists x. split; [reflexivity|].
      destruct x as [[]|[]| |[] m e]; simpl in *; try discriminate; auto.
    + intros (y & [= <-] & Hn & Hg).
      destruct x as [[]|[]| |[] m e]; simpl in *; try discriminate; auto.
  - split; [discriminate|]. intros (x & H & _). discriminate.
Qed.

(** The anchored date expression can only match from the start. *)
Lemma anchored_later (l : list ascii) (i : nat) :
  search false isoDateRegex l (S i) = None.
Proof.
  revert i. induction l as [|c l IH]; intros i; simpl; auto.
Qed.

Lemma anchored_start (l : list ascii) :
  match match_at false isoDateRegex l 0 with Some _ => true | None => false end
  = iso_date_chars l.
Proof.
  unfold match_at, isoDateRegex, date_pattern, digit.
  cbn [rmatch Times rest pos caps step class_matches char_matches Nat.eqb].
  do 11 (destruct l as [|? l]; cbn;
         [repeat match goal with
                 | |- context [if ?b then _ else _] =>
                     match type of b with bool => destruct b; cbn end
                 end; reflexivity|]).
  repeat match goal with
         | |- context [if ?b then _ else _] =>
                     match type of b with bool => destruct b; cbn end
         end; reflexivity.
Qed.

Lemma date_test (s : string) :
  test false isoDateRegex s = iso_date_chars (chars s).
Proof.
  unfold test, exec. rewrite <- anchored_start.
  destruct (chars s) as [|c l]; [reflexivity|].
  - cbn [search]. rewrite anchored_later.
    destruct (match_at false isoDateRegex (c :: l) 0); reflexivity.
Qed.

Lemma iso_date_chars_shape (s : string) :
  iso_date_chars (chars s) = true <-> iso_date_shape s.
Proof.
  unfold iso_date_shape. split.
  - intros H. destruct (chars s) as [|y1 [|y2 [|y3 [|y4 [|h1 [|m1 [|m2 [|h2
      [|d1 [|d2 [|x l]]]]]]]]]]]; try discriminate.
    cbv beta iota delta [iso_date_chars] in H. rewrite !andb_true_iff in H.
    destruct H as (((((((((H1 & H2) & H3) & H4) & H5) & H6) & H7) & H8) & H9) & H10).
    apply Ascii.eqb_eq in H5, H8. subst h1 h2.
    exists y1, y2, y3, y4, m1, m2, d1, d2. split; [reflexivity|].
    repeat constructor; assumption.
  - intros (y1 & y2 & y3 & y4 & m1 & m2 & d1 & d2 & Hs & Hd). rewrite Hs.
    repeat match goal with
           | H : Forall _ (_ :: _) |- _ => inversion H; clear H; subst
           end.
    cbv beta iota delta [iso_date_chars].
    repeat match goal with H : is_digit _ = true |- _ => rewrite H; clear H end.
    reflexivity.
Qed.

Lemma date_check (o : option string) :
  match o with
  | None => true
  | Some s => String.eqb s "" || negb (test false isoDateRegex s)
  end = false <-> dated o.
Proof.
  unfold dated. destruct o as [s|].
  - rewrite date_test. split.
    + intros H. apply orb_false_iff in H. destruct H as [_ H].
      apply negb_false_iff in H. exists s. split; [reflexivity|].
      now apply iso_date_chars_shape.
    + intros (s' & [= <-] & H). apply iso_date_chars_shape in H.
      rewrite H. destruct s; [discriminate H|reflexivity].
  - split; [discriminate|]. intros (s & H & _). discriminate.
Qed.

(** ** C7: what the validation accepts *)

(** C7. [validateInvoiceMetadata] returns no message exactly when the
    invoice number, the customer name and the currency are present and
    not empty, the total amount is a number that is not NaN and is
    greater than zero, and the issue date has the shape of four digits, a
    dash, two digits, a dash and two digits. Otherwise it returns the
    message of each failed check, once, and nothing else. *)
Theorem C7_validation_checks (m : PartialInvoiceMetadata) :
  let errors := validateInvoiceMetadata m in
  (errors = [] <->
   present (invoiceNumber m) /\ present (customerName m)
   /\ positive_number (totalAmount m) /\ present (currency m)
   /\ dated (issueDate m))
  /\ (In message_invoiceNumber errors <-> ~ present (invoiceNumber m))
  /\ (In message_customerName errors <-> ~ present (customerName m))
  /\ (In message_totalAmount errors <-> ~ positive_number (totalAmount m))
  /\ (In message_currency errors <-> ~ present (currency m))
  /\ (In message_issueDate errors <-> ~ dated (issueDate m))
  /\ List.NoDup errors
  /\ List.incl errors [message_invoiceNumber; message_customerName;
                  message_totalAmount; message_currency; message_issueDate].
Proof.
  intros errors. subst errors.
  pose proof (present_check (invoiceNumber m)) as P1.
  pose proof (present_check (customerName m)) as P2.
  pose proof (amount_check (totalAmount m)) as P3.
  pose proof (present_check (currency m)) as P4.
  pose proof (date_check (issueDate m)) as P5.
  rewrite <- P1, <- P2, <- P3, <- P4, <- P5. clear P1 P2 P3 P4 P5.
  unfold validateInvoiceMetadata, invoiceNumber_bad, customerName_bad,
    totalAmount_bad, currency_bad, issueDate_bad, push_if,
    message_invoiceNumber, message_customerName, message_totalAmount,
    message_currency, message_issueDate.
  generalize (match invoiceNumber m with
              | Some s => String.eqb s "" || (String.length s =? 0)%nat
              | None => true end).
  generalize (match customerName m with
              | Some s => String.eqb s "" || (String.length s =? 0)%nat
              | None => true end).
  generalize (match totalAmount m with
              | Some x => isNaN x || le x zero
              | None => true end).
  generalize (match currency m with
              | Some s => String.eqb s "" || (String.length s =? 0)%nat
              | None => true end).
  generalize (match issueDate m with
              | Some s => String.eqb s "" || negb (test false isoDateRegex s)
              | None => true end).
  intros b5 b4 b3 b2 b1.
  destruct b1, b2, b3, b4, b5; cbn [app];
    (split; [|split; [|split; [|split; [|split; [|split; [|split]]]]]]);
    try (split; intros; simpl in *; intuition (discriminate || congruence));
    try (repeat constructor; simpl; intuition discriminate);
    try (intros x Hx; simpl in *; intuition).
Qed.

(** ** Reading a journal *)

Lemma fields_written_hset (key : string) (fields : list Field)
      (cmds : list Command) :
  fields_written key (HSET key fields :: cmds)
  = fields ++ fields_written key cmds.
Proof.
  unfold fields_written. simpl flat_map. rewrite String.eqb_refl. reflexivity.
Qed.

Lemma fields_written_xadd (key topic : string) (entry : list string)
      (cmds : list Command) :
  fields_written key (XADD topic entry :: cmds) = fields_written key cmds.
Proof. reflexivity. Qed.

Lemma fields_written_del (key k : string) (cmds : list Command) :
  fields_written key (DEL k :: cmds) = fields_written key cmds.
Proof. reflexivity. Qed.

Lemma emitted_hset (topic key : string) (fields : list Field)
      (cmds : list Command) :
  emitted topic (HSET key fields :: cmds) = emitted topic cmds.
Proof. reflexivity. Qed.

Lemma emitted_del (topic k : string) (cmds : list Command) :
  emitted topic (DEL k :: cmds) = emitted topic cmds.
Proof. reflexivity. Qed.

(** Reads the status writes and the emissions off an explicit journal. *)
Ltac read_journal :=
  unfold status_writes;
  rewrite ?fields_written_hset, ?fields_written_xadd, ?fields_written_del,
    ?emitted_hset, ?emitted_del;
  try reflexivity.








(** * The properties of the specification *)

Import Samples.

(** ** C1: the sample invoice *)

(** C1. On the five lines of the sample invoice, and on the text the
    simulated recognition returns, [extractInvoiceMetadata] yields the
    invoice number, customer name, currency and issue date of the invoice,
    and [validateInvoiceMetadata] accepts the result; the total amount,
    however, is read as 123 and not as 1234.56: the amount pattern asks
    for one to three digits before any separator, matches [Total: 123]
    and stops there. *)
Theorem C1_sample_invoice_total_cut_short :
  let expected :=
    mkMetadata (Some "INV-2025-001") (Some "Acme Corp")
               (Some (of_decimal false 123 0)) (Some "USD") (Some "2025-07-08") in
  extractInvoiceMetadata invoice_lines = expected
  /\ extractInvoiceMetadata simulatedText = expected
  /\ validateInvoiceMetadata expected = []
  /\ of_decimal false 123 0 <> of_decimal false 123456 (-2)
  /\ exec true totalAmountRegex "Total: 1234.56 USD"
     = Some (mkMatch 0 "Total: 123" [(1, "123")]).
Proof.
  intros expected. subst expected.
  repeat split; try (vm_compute; reflexivity).
  intros E. vm_compute in E. discriminate E.
Qed.

(** ** C8: entries without a document identifier *)

(** C8. The entry [note=documentId, doc-1=memo] has no [documentId]
    field, yet every loop reads the identifier [doc-1] from it, calls its
    handler on that document and only then acknowledges the entry: the
    lookup searches the flat array of names and values for the text
    [documentId] and takes the element that follows, here a field name.
    The persistence loop, for one, finalises document [doc-1]. *)
Theorem C8_value_taken_for_field_name (s : Service) (messageId : string)
        (w : World) :
  ~ In "documentId" (field_names odd_entry)
  /\ handleMessage s (messageId, odd_entry) w
     = handle_and_ack s (messageId, odd_entry) "doc-1" w
  /\ performed validated_world
       (snd (handleMessage persistenceService ("1-0", odd_entry)
               validated_world))
     = [HSET (document_key "doc-1") [F_status PERSISTED; F_updatedAt epoch];
        DEL (content_key "doc-1");
        XACK "validation_queue" "persistence_processor_group" "1-0"].
Proof.
  split; [|split].
  - simpl. intros [H | [H | []]]; discriminate H.
  - reflexivity.
  - vm_compute. reflexivity.
Qed.

(** ** C2: refusal on a status out of sequence *)




(** ** C3: status writes and the transition graph *)



(** The other two conditions are needed as well.  An uploaded document
    without its payload is marked OCR_FAILED at once, and UPLOADED has
    no edge to OCR_FAILED. *)
Lemma graph_left_without_payload :
  current_status "doc-1" payloadless_world = Some UPLOADED
  /\ status_writes (document_key "doc-1")
       (performed payloadless_world
          (snd (run_stage Recognition "doc-1" payloadless_world)))
     = [OCR_FAILED]
  /\ edge UPLOADED OCR_FAILED = false.
Proof. vm_compute. auto. Qed.

(** When the broker raises as the persistence handler deletes the payload
    of a validated document, the handler has already written PERSISTED
    and its [catch] block writes FAILED; PERSISTED has no edge. *)
Lemma graph_left_when_a_call_raises :
  let w := world_of (record_of VALIDATED None) (Some pdf)
                    [None; None; Some "EPIPE"] in
  current_status "doc-1" w = Some VALIDATED
  /\ status_writes (document_key "doc-1")
       (performed w (snd (run_stage Persistence "doc-1" w)))
     = [PERSISTED; FAILED]
  /\ edge PERSISTED FAILED = false.
Proof. vm_compute. auto. Qed.


(** ** C4: absent record, absent payload *)

(** C4, as amended. When no record exists for the document, every handler
    writes one error line, returns without raising and changes nothing in
    the store or the broker: no dead-letter entry is written. When the
    record exists and only the payload is absent, the recognition handler
    (no call of the client raising) sets OCR_FAILED and writes a
    dead-letter entry. *)
Theorem C4_absent_record_dropped_absent_payload_dead_lettered
        (stage : Stage) (w : World) (documentId : string) :
  (hash_is_empty (lookup_hash (document_key documentId) w) = true ->
   dropped w (run_stage stage documentId w)
   /\ performed w (snd (run_stage stage documentId w)) = [])
  /\ (reliable w ->
      record_exists documentId w ->
      contents w !! content_key documentId = None ->
      let r := run_stage Recognition documentId w in
      fst r = Returned tt
      /\ status_writes (document_key documentId) (performed w (snd r))
         = [OCR_FAILED]
      /\ emitted "dlq_ocr_failed" (performed w (snd r))
         = [["documentId"; documentId; "error";
             "Original content not found for document: " +:+ documentId]]).
Proof.
  split.
  - intros He. pose proof (record_absent_dropped stage w documentId He) as Hd.
    split; [exact Hd|]. destruct Hd as (_ & Hj & _).
    apply (performed_same _ _ Hj).
  - intros Hrel Hrec Hc r. subst r.
    destruct (ocr_payload_missing w documentId Hrel Hrec Hc) as (Ho & Hj & _).
    rewrite (performed_app _ _ _ Hj).
    split; [exact Ho | split; read_journal].
Qed.

(** A record without its payload: the recognition handler dead-letters
    the entry. *)
Lemma C4_counterexample :
  contents payloadless_world !! content_key "doc-1" = None
  /\ emitted "dlq_ocr_failed"
       (performed payloadless_world
          (snd (run_stage Recognition "doc-1" payloadless_world)))
     = [["documentId"; "doc-1"; "error";
         "Original content not found for document: doc-1"]].
Proof. split; vm_compute; reflexivity. Qed.

Lemma C4_witness :
  performed (empty_world []) (snd (run_stage Persistence "doc-1" (empty_world [])))
  = []
  /\ status_writes (document_key "doc-1")
       (performed payloadless_world
          (snd (run_stage Recognition "doc-1" payloadless_world)))
     = [OCR_FAILED].
Proof.
  split.
  - refine (proj2 (proj1 (C4_absent_record_dropped_absent_payload_dead_lettered
                            Persistence (empty_world []) "doc-1") _)).
    vm_compute. reflexivity.
  - refine (proj1 (proj2 (proj2
              (C4_absent_record_dropped_absent_payload_dead_lettered
                 Recognition payloadless_world "doc-1") _ _ _))).
    + reflexivity.
    + vm_compute. reflexivity.
    + vm_compute. reflexivity.
Defined.

(** ** C5: the outcome of the checks is routed forward *)

(** C5. When the extraction/validation handler reaches its checks (the
    record exists and has a recognized text) and no call of the client
    raises: if a check fails, it stores all the messages of the failed
    checks on the record, sets VALIDATION_FAILED and appends an entry
    tagged VALIDATION_FAILED to [validation_queue]; if all checks pass, it
    sets VALIDATED and appends an entry tagged VALIDATED. Nothing goes to
    the dead-letter topic either way. *)
Theorem C5_validation_outcome_routed_forward (w : World)
        (documentId ocrText : string) :
  reliable w ->
  record_exists documentId w ->
  recognized_text documentId w = Some ocrText ->
  let key := document_key documentId in
  let r := run_stage ExtractionValidation documentId w in
  let cmds := performed w (snd r) in
  let errors := validateInvoiceMetadata (extractInvoiceMetadata ocrText) in
  fst r = Returned tt
  /\ emitted "dlq_validation_failed" cmds = []
  /\ match errors with
     | [] =>
         status_writes key cmds = [VALIDATION_PENDING; VALIDATED]
         /\ current_status documentId (snd r) = Some VALIDATED
         /\ emitted "validation_queue" cmds
            = [["documentId"; documentId; "status"; "VALIDATED"]]
     | _ :: _ =>
         status_writes key cmds = [VALIDATION_PENDING; VALIDATION_FAILED]
         /\ current_status documentId (snd r) = Some VALIDATION_FAILED
         /\ In (F_validationErrors errors) (fields_written key cmds)
         /\ h_validationErrors (lookup_hash key (snd r)) = Some errors
         /\ emitted "validation_queue" cmds
            = [["documentId"; documentId; "status"; "VALIDATION_FAILED"]]
     end.
Proof.
  intros Hrel Hrec Ht key r cmds errors. subst key r cmds errors.
  destruct (validation_checks w documentId Hrel Hrec ocrText Ht)
    as (Ho & _ & Hm).
  destruct (validateInvoiceMetadata (extractInvoiceMetadata ocrText))
    as [|e errors]; destruct Hm as (Hj & Hs & He);
    rewrite (performed_app _ _ _ Hj).
  - split; [exact Ho | split; [read_journal|]].
    split; [read_journal | split; [exact Hs | read_journal]].
  - split; [exact Ho | split; [read_journal|]].
    split; [read_journal|]. split; [exact Hs|].
    split; [|split; [exact He | read_journal]].
    rewrite !fields_written_hset. simpl. auto.
Qed.

Lemma C5_witness :
  emitted "validation_queue"
    (performed incomplete_world
       (snd (run_stage ExtractionValidation "doc-1" incomplete_world)))
  = [["documentId"; "doc-1"; "status"; "VALIDATION_FAILED"]]
  /\ h_validationErrors
       (lookup_hash (document_key "doc-1")
          (snd (run_stage ExtractionValidation "doc-1" incomplete_world)))
     = Some [message_customerName].
Proof.
  assert (Hrel : reliable incomplete_world) by reflexivity.
  assert (Hrec : record_exists "doc-1" incomplete_world)
    by (vm_compute; reflexivity).
  assert (Ht : recognized_text "doc-1" incomplete_world
               = Some invoice_without_customer) by (vm_compute; reflexivity).
  pose proof (C5_validation_outcome_routed_forward
                incomplete_world "doc-1" invoice_without_customer Hrel Hrec Ht)
    as H.
  cbv zeta in H. destruct H as (_ & _ & H).
  assert (He : validateInvoiceMetadata
                 (extractInvoiceMetadata invoice_without_customer)
               = [message_customerName]) by (vm_compute; reflexivity).
  rewrite He in H. destruct H as (_ & _ & _ & H4 & H5).
  split; [exact H5 | exact H4].
Defined.

(** ** C6: the persistence handler *)

(** C6. On an existing record, no call of the client raising, the
    persistence handler branches on the current status: VALIDATED, it
    sets PERSISTED and deletes the payload; VALIDATION_FAILED, it sets
    FAILED and deletes nothing; any other status, it writes no status,
    deletes nothing and emits nothing. *)
Theorem C6_persistence_branches_on_status (w : World) (documentId : string) :
  reliable w ->
  record_exists documentId w ->
  let key := document_key documentId in
  let r := run_stage Persistence documentId w in
  let cmds := performed w (snd r) in
  fst r = Returned tt
  /\ match current_status documentId w with
     | Some VALIDATED =>
         status_writes key cmds = [PERSISTED]
         /\ current_status documentId (snd r) = Some PERSISTED
         /\ deleted cmds = [content_key documentId]
         /\ contents (snd r) !! content_key documentId = None
     | Some VALIDATION_FAILED =>
         status_writes key cmds = [FAILED]
         /\ current_status documentId (snd r) = Some FAILED
         /\ deleted cmds = []
         /\ contents (snd r) = contents w
     | _ =>
         cmds = []
         /\ hashes (snd r) = hashes w
         /\ contents (snd r) = contents w
         /\ streams (snd r) = streams w
     end.
Proof.
  intros Hrel Hrec key r cmds. subst key r cmds.
  assert (Hother :
            current_status documentId w <> Some VALIDATED ->
            current_status documentId w <> Some VALIDATION_FAILED ->
            fst (run_stage Persistence documentId w) = Returned tt
            /\ performed w (snd (run_stage Persistence documentId w)) = []
            /\ hashes (snd (run_stage Persistence documentId w)) = hashes w
            /\ contents (snd (run_stage Persistence documentId w)) = contents w
            /\ streams (snd (run_stage Persistence documentId w)) = streams w).
  { intros H1 H2.
    destruct (persist_other_status w documentId Hrel Hrec H1 H2)
      as (Ho & Hj & Hh & Hc & Hs & _).
    repeat split; auto. apply (performed_same _ _ Hj). }
  destruct (current_status documentId w) as [s|] eqn:Hs.
  - destruct s; try (destruct Hother as (Ho & Hrest); [congruence..|];
                     split; [exact Ho | exact Hrest]).
    + destruct (persist_validated w documentId Hrel Hrec Hs)
        as (Ho & Hj & Hs' & Hc & _).
      rewrite (performed_app _ _ _ Hj).
      split; [exact Ho|]. split; [read_journal|]. split; [exact Hs'|].
      split; [reflexivity|]. rewrite Hc. apply lookup_delete_eq.
    + destruct (persist_validation_failed w documentId Hrel Hrec Hs)
        as (Ho & Hj & Hs' & Hc & _).
      rewrite (performed_app _ _ _ Hj).
      split; [exact Ho|]. split; [read_journal|]. split; [exact Hs'|].
      split; [reflexivity | exact Hc].
  - destruct Hother as (Ho & Hrest); [congruence..|].
    split; [exact Ho | exact Hrest].
Qed.

Lemma C6_witness :
  current_status "doc-1"
    (snd (run_stage Persistence "doc-1" validated_world)) = Some PERSISTED
  /\ contents (snd (run_stage Persistence "doc-1" validated_world))
     !! content_key "doc-1" = None.
Proof.
  assert (Hrel : reliable validated_world) by reflexivity.
  assert (Hrec : record_exists "doc-1" validated_world)
    by (vm_compute; reflexivity).
  destruct (C6_persistence_branches_on_status validated_world "doc-1" Hrel Hrec)
    as (_ & _ & H2 & _ & H4).
  split; [exact H2 | exact H4].
Defined.

(** ** C9: the fetch of the record raises *)

(** C9. When the first call of a handler, the fetch of the record,
    raises, the handler returns after one error line without writing a
    status and without a dead-letter entry. A handler that changed
    anything in the store or the broker, the failure status and the
    dead-letter entry of its error path included, did fetch an existing
    record. *)
Theorem C9_failed_fetch_leaves_no_trace (stage : Stage) (w : World)
        (documentId : string) :
  let r := run_stage stage documentId w in
  (fetch_raises w ->
   dropped w r
   /\ status_writes (document_key documentId) (performed w (snd r)) = []
   /\ emitted (dead_letter_topic stage) (performed w (snd r)) = [])
  /\ (performed w (snd r) <> [] ->
      ~ fetch_raises w /\ record_exists documentId w).
Proof.
  intros r. subst r. split.
  - intros Hf. pose proof (fetch_raises_dropped stage w documentId Hf) as Hd.
    split; [exact Hd|]. destruct Hd as (_ & Hj & _).
    rewrite (performed_same _ _ Hj). split; reflexivity.
  - intros Hp. split.
    + intros Hf. apply Hp.
      destruct (fetch_raises_dropped stage w documentId Hf) as (_ & Hj & _).
      apply (performed_same _ _ Hj).
    + unfold record_exists.
      destruct (hash_is_empty (lookup_hash (document_key documentId) w))
        eqn:He; [|reflexivity].
      exfalso. apply Hp.
      destruct (record_absent_dropped stage w documentId He) as (_ & Hj & _).
      apply (performed_same _ _ Hj).
Qed.

Lemma C9_witness :
  performed unreachable_world
    (snd (run_stage Recognition "doc-1" unreachable_world)) = []
  /\ record_exists "doc-1" uploaded_world.
Proof.
  split.
  - assert (Hf : fetch_raises unreachable_world)
      by (exists "ECONNREFUSED", []; reflexivity).
    destruct (proj1 (C9_failed_fetch_leaves_no_trace
                       Recognition unreachable_world "doc-1") Hf)
      as ((_ & Hj & _) & _).
    unfold performed. rewrite Hj. apply drop_all.
  - refine (proj2 (proj2 (C9_failed_fetch_leaves_no_trace
                            Recognition uploaded_world "doc-1") _)).
    vm_compute. discriminate.
Defined.

(** ** C10: the extraction result is stored on both outcomes *)

(** C10. When the extraction/validation handler reaches its checks and no
    call of the client raises, it writes what it extracted to the
    [extractedMetadata] field of the record whether the checks pass or
    not: after a failure the record holds the partial extraction result
    and the messages of the failed checks. *)
Theorem C10_partial_extraction_stored (w : World)
        (documentId ocrText : string) :
  reliable w ->
  record_exists documentId w ->
  recognized_text documentId w = Some ocrText ->
  let key := document_key documentId in
  let r := run_stage ExtractionValidation documentId w in
  let metadata := extractInvoiceMetadata ocrText in
  let errors := validateInvoiceMetadata metadata in
  In (F_extractedMetadata metadata) (fields_written key (performed w (snd r)))
  /\ h_extractedMetadata (lookup_hash key (snd r)) = Some metadata
  /\ match errors with
     | [] => current_status documentId (snd r) = Some VALIDATED
     | _ :: _ =>
         current_status documentId (snd r) = Some VALIDATION_FAILED
         /\ h_validationErrors (lookup_hash key (snd r)) = Some errors
     end.
Proof.
  intros Hrel Hrec Ht key r metadata errors. subst key r errors metadata.
  destruct (validation_checks w documentId Hrel Hrec ocrText Ht)
    as (_ & Hx & Hm).
  destruct (validateInvoiceMetadata (extractInvoiceMetadata ocrText))
    as [|e errors]; destruct Hm as (Hj & Hs & He);
    rewrite (performed_app _ _ _ Hj), !fields_written_hset;
    (split; [simpl; auto | split; [exact Hx | auto]]).
Qed.

Lemma C10_witness :
  h_extractedMetadata
    (lookup_hash (document_key "doc-1")
       (snd (run_stage ExtractionValidation "doc-1" incomplete_world)))
  = Some (mkMetadata (Some "INV-2025-001") None
                     (Some (of_decimal false 123 0)) (Some "USD")
                     (Some "2025-07-08")).
Proof.
  assert (Hrel : reliable incomplete_world) by reflexivity.
  assert (Hrec : record_exists "doc-1" incomplete_world)
    by (vm_compute; reflexivity).
  assert (Ht : recognized_text "doc-1" incomplete_world
               = Some invoice_without_customer) by (vm_compute; reflexivity).
  destruct (C10_partial_extraction_stored
              incomplete_world "doc-1" invoice_without_customer Hrel Hrec Ht)
    as (_ & H & _).
  rewrite H. vm_compute. reflexivity.
Defined.

(** * Further properties *)

Import RegexSpec.

(** ** The matcher returns only what the expression matches *)

Lemma captured_by_seq_l icase a b e :
  captured_by icase a e -> captured_by icase (Seq a b) e.
Proof.
  intros (x & Hin & Hl). exists x. split; [|exact Hl].
  simpl. apply in_or_app. now left.
Qed.

Lemma captured_by_seq_r icase a b e :
  captured_by icase b e -> captured_by icase (Seq a b) e.
Proof.
  intros (x & Hin & Hl). exists x. split; [|exact Hl].
  simpl. apply in_or_app. now right.
Qed.

Lemma captured_by_alt_l icase a b e :
  captured_by icase a e -> captured_by icase (Alt a b) e.
Proof.
  intros (x & Hin & Hl). exists x. split; [|exact Hl].
  simpl. apply in_or_app. now left.
Qed.

Lemma captured_by_alt_r icase a b e :
  captured_by icase b e -> captured_by icase (Alt a b) e.
Proof.
  intros (x & Hin & Hl). exists x. split; [|exact Hl].
  simpl. apply in_or_app. now right.
Qed.

Lemma captured_by_group icase i a e :
  captured_by icase a e -> captured_by icase (Group i a) e.
Proof.
  intros (x & Hin & Hl). exists x. split; [|exact Hl].
  simpl. apply in_or_app. now right.
Qed.

Lemma advanced_refl (st : MState) : advanced st st [] [].
Proof. repeat split. simpl. lia. Qed.

Lemma advanced_trans (st0 st1 st2 : MState) c1 c2 n1 n2 :
  advanced st0 st1 c1 n1 -> advanced st1 st2 c2 n2 ->
  advanced st0 st2 (c1 ++ c2) (n2 ++ n1).
Proof.
  intros (R1 & P1 & C1) (R2 & P2 & C2). repeat split.
  - rewrite R1, R2. apply app_assoc.
  - rewrite P2, P1, length_app. lia.
  - rewrite C2, C1. apply app_assoc.
Qed.

(** Every result of the matcher is a result of its continuation, called
    on a state reached by reading a text the expression matches; what
    was captured on the way is matched by the bodies of the groups. *)
Lemma rmatch_sound (icase : bool) (r : regex) :
  forall (k : MState -> option MState) (st res : MState),
    rmatch icase r k st = Some res ->
    exists st' consumed new,
      k st' = Some res
      /\ advanced st st' consumed new
      /\ lang icase r consumed
      /\ Forall (captured_by icase r) new.
Proof.
  induction r as [|c|p|a IHa b IHb|a IHa b IHb|a IHa|i a IHa| |];
    intros k st res H.
  - simpl in H. exists st, [], []. split; [exact H|].
    split; [apply advanced_refl|]. split; constructor.
  - simpl in H. destruct (rest st) as [|x tl] eqn:Hr; [discriminate|].
    destruct (char_matches icase c x) eqn:Hc; [|discriminate].
    exists (step st tl), [x], []. split; [exact H|]. split.
    + repeat split; simpl; [exact Hr | lia].
    + split; [now constructor | constructor].
  - simpl in H. destruct (rest st) as [|x tl] eqn:Hr; [discriminate|].
    destruct (class_matches icase p x) eqn:Hc; [|discriminate].
    exists (step st tl), [x], []. split; [exact H|]. split.
    + repeat split; simpl; [exact Hr | lia].
    + split; [now constructor | constructor].
  - simpl in H. apply IHa in H.
    destruct H as (st1 & c1 & n1 & H & A1 & L1 & G1).
    apply IHb in H. destruct H as (st2 & c2 & n2 & H & A2 & L2 & G2).
    exists st2, (c1 ++ c2), (n2 ++ n1). split; [exact H|].
    split; [eapply advanced_trans; eassumption|].
    split; [now constructor|].
    apply Forall_app. split.
    + eapply List.Forall_impl; [|exact G2]. intros e. apply captured_by_seq_r.
    + eapply List.Forall_impl; [|exact G1]. intros e. apply captured_by_seq_l.
  - simpl in H. destruct (rmatch icase a k st) as [res'|] eqn:Ha.
    + injection H as <-. apply IHa in Ha.
      destruct Ha as (st1 & c1 & n1 & H & A1 & L1 & G1).
      exists st1, c1, n1. split; [exact H|]. split; [exact A1|].
      split; [now apply lang_alt_l|].
      eapply List.Forall_impl; [|exact G1]. intros e. apply captured_by_alt_l.
    + apply IHb in H. destruct H as (st1 & c1 & n1 & H & A1 & L1 & G1).
      exists st1, c1, n1. split; [exact H|]. split; [exact A1|].
      split; [now apply lang_alt_r|].
      eapply List.Forall_impl; [|exact G1]. intros e. apply captured_by_alt_r.
  - pose (loop :=
            fix loop (fuel : nat) (st0 : MState) {struct fuel} : option MState :=
              match fuel with
              | O => k st0
              | S fuel' =>
                  match rmatch icase a
                          (fun st1 => if (pos st0 <? pos st1)%nat
                                      then loop fuel' st1 else None) st0 with
                  | Some res => Some res
                  | None => k st0
                  end
              end).
    change (loop (S (List.length (rest st))) st = Some res) in H.
    revert H. generalize (S (List.length (rest st))) as fuel. revert st.
    intros st fuel. revert st.
    induction fuel as [|fuel IHfuel]; intros st H.
    + exists st, [], []. split; [exact H|].
      split; [apply advanced_refl|]. split; constructor.
    + change (match rmatch icase a
                      (fun st1 => if (pos st <? pos st1)%nat
                                  then loop fuel st1 else None) st with
              | Some res => Some res
              | None => k st
              end = Some res) in H.
      destruct (rmatch icase a
                  (fun st1 => if (pos st <? pos st1)%nat
                              then loop fuel st1 else None) st)
        as [res'|] eqn:Ha.
      * injection H as <-. apply IHa in Ha.
        destruct Ha as (st1 & c1 & n1 & H & A1 & L1 & G1).
        destruct (pos st <? pos st1)%nat; [|discriminate].
        apply IHfuel in H. destruct H as (st2 & c2 & n2 & H & A2 & L2 & G2).
        exists st2, (c1 ++ c2), (n2 ++ n1). split; [exact H|].
        split; [eapply advanced_trans; eassumption|].
        split; [now apply lang_star_more|].
        apply Forall_app. split; [exact G2|].
        eapply List.Forall_impl; [|exact G1]. intros e (x & Hin & Hl).
        exists x. split; assumption.
      * exists st, [], []. split; [exact H|].
        split; [apply advanced_refl|]. split; constructor.
  - simpl in H. apply IHa in H.
    destruct H as (st1 & c1 & n1 & H & A1 & L1 & G1).
    destruct A1 as (R1 & P1 & C1).
    exists (capture i st st1), c1, ((i, str c1) :: n1). split.
    + replace (str c1) with (str (firstn (pos st1 - pos st) (rest st))).
      * exact H.
      * rewrite R1, P1.
        replace (pos st + List.length c1 - pos st)%nat with (List.length c1)
          by lia.
        rewrite firstn_app, Nat.sub_diag, firstn_all. simpl.
        now rewrite app_nil_r.
    + split.
      * repeat split; simpl; auto.
        unfold capture in *. simpl.
        rewrite R1, P1.
        replace (pos st + List.length c1 - pos st)%nat with (List.length c1)
          by lia.
        rewrite firstn_app, Nat.sub_diag, firstn_all. simpl.
        rewrite app_nil_r, C1. reflexivity.
      * split; [now constructor|]. constructor.
        -- exists a. simpl. rewrite Nat.eqb_refl. split; [now left|].
           unfold chars, str. rewrite list_ascii_of_string_of_list_ascii.
           exact L1.
        -- eapply List.Forall_impl; [|exact G1]. intros e. apply captured_by_group.
  - simpl in H. destruct (pos st =? 0)%nat; [|discriminate].
    exists st, [], []. split; [exact H|].
    split; [apply advanced_refl|]. split; constructor.
  - simpl in H. destruct (rest st) as [|x tl] eqn:Hr; [|discriminate].
    exists st, [], []. split; [exact H|].
    split; [apply advanced_refl|]. split; constructor.
Qed.

(** ** What a match of [exec] holds *)

Lemma search_found icase r input i m :
  search icase r input i = Some m ->
  exists tail j, match_at icase r tail j = Some m.
Proof.
  revert i. induction input as [|c input IH]; intros i H; simpl in H.
  - destruct (match_at icase r [] i) as [m'|] eqn:Hm; [|discriminate].
    injection H as <-. eauto.
  - destruct (match_at icase r (c :: input) i) as [m'|] eqn:Hm.
    + injection H as <-. eauto.
    + eapply IH. exact H.
Qed.

(** The matched text is one the expression matches, and so is every
    captured text for the body of its group. *)
Lemma exec_sound icase r s m :
  exec icase r s = Some m ->
  lang icase r (chars (whole m))
  /\ Forall (captured_by icase r) (groups m).
Proof.
  intros H. apply search_found in H. destruct H as (tail & j & H).
  unfold match_at in H.
  destruct (rmatch icase r Some (mkMState tail j [])) as [st'|] eqn:Hr;
    [|discriminate].
  injection H as <-. simpl.
  apply rmatch_sound in Hr.
  destruct Hr as (st1 & consumed & new & [= ->] & (R1 & P1 & C1) & L & G).
  simpl in R1, P1, C1. rewrite app_nil_r in C1. subst new.
  split; [|exact G].
  rewrite P1, R1.
  replace (j + List.length consumed - j)%nat with (List.length consumed) by lia.
  rewrite firstn_app, Nat.sub_diag, firstn_all. simpl. rewrite app_nil_r.
  unfold chars, str. rewrite list_ascii_of_string_of_list_ascii. exact L.
Qed.

Lemma assoc_Forall (P : nat * string -> Prop) l i txt :
  Forall P l -> assoc i l = Some txt -> P (i, txt).
Proof.
  induction l as [|[j s] l IH]; simpl; intros HF H; [discriminate|].
  inversion HF; subst.
  destruct (Nat.eqb_spec i j) as [->|Hne].
  - injection H as <-. assumption.
  - now apply IH.
Qed.

(** Expressions of the shape [label · spaces · (body)]: group [i] always
    takes part, and holds a text its body matches. *)
Lemma labelled_group icase a b i body s m :
  exec icase (a · b · Group i body) s = Some m ->
  exists l, assoc i (groups m) = Some (str l) /\ lang icase body l.
Proof.
  intros H. apply search_found in H. destruct H as (tail & j & H).
  unfold match_at in H.
  destruct (rmatch icase (a · b · Group i body) Some (mkMState tail j []))
    as [st'|] eqn:Hr; [|discriminate].
  injection H as <-. simpl groups.
  simpl in Hr.
  apply rmatch_sound in Hr. destruct Hr as (st1 & _ & _ & Hr & _).
  apply rmatch_sound in Hr. destruct Hr as (st2 & _ & _ & Hr & _).
  apply rmatch_sound in Hr.
  destruct Hr as (st3 & l & new & [= <-] & (R & P & C) & L & _).
  exists l. split; [|exact L]. simpl. rewrite Nat.eqb_refl.
  rewrite R, P.
  replace (pos st2 + List.length l - pos st2)%nat with (List.length l) by lia.
  rewrite firstn_app, Nat.sub_diag, firstn_all. simpl.
  now rewrite app_nil_r.
Qed.

(** *** Character classes, with and without the [i] flag *)

Lemma nonspace_class (x : ascii) :
  class_matches true (fun c => negb (is_space c)) x = negb (is_space x).
Proof. destruct x as [[] [] [] [] [] [] [] []]; reflexivity. Qed.

Lemma dot_class (x : ascii) :
  class_matches true (fun c => negb (is_line_terminator c)) x
  = negb (is_line_terminator x).
Proof. destruct x as [[] [] [] [] [] [] [] []]; reflexivity. Qed.

Lemma letter_class (x : ascii) :
  class_matches true is_upper x = true -> is_upper (upper_char x) = true.
Proof. destruct x as [[] [] [] [] [] [] [] []]; intros H; exact H || reflexivity. Qed.

Lemma lang_star_class icase p l :
  lang icase (Star (Class p)) l ->
  Forall (fun x => class_matches icase p x = true) l.
Proof.
  intros H. remember (Star (Class p)) as r eqn:Hr.
  induction H; try discriminate.
  - constructor.
  - injection Hr as ->. apply Forall_app. split.
    + inversion H; subst. now repeat constructor.
    + now apply IHlang2.
Qed.

Lemma lang_plus_class icase p l :
  lang icase (Plus (Class p)) l ->
  l <> [] /\ Forall (fun x => class_matches icase p x = true) l.
Proof.
  unfold Plus. intros H. inversion H; subst.
  match goal with
  | H1 : lang _ (Class _) _, H2 : lang _ (Star _) _ |- _ =>
      inversion H1; subst; apply lang_star_class in H2
  end.
  split; [discriminate|]. now constructor.
Qed.

Ltac lang_inv :=
  repeat match goal with
         | H : lang _ (Seq _ _) _ |- _ => inversion H; subst; clear H
         | H : lang _ Empty _ |- _ => inversion H; subst; clear H
         | H : lang _ (Class _) _ |- _ => inversion H; subst; clear H
         | H : lang _ (Char _) _ |- _ => inversion H; subst; clear H
         end.

Lemma lang_date_pattern l :
  lang false date_pattern l -> iso_date_chars l = true.
Proof.
  unfold date_pattern, digit. simpl Times. intros H. lang_inv.
  cbv beta iota delta [app iso_date_chars].
  repeat match goal with
         | H : class_matches false is_digit _ = true |- _ =>
             simpl in H; rewrite H; clear H
         | H : char_matches false _ _ = true |- _ =>
             unfold char_matches in H; apply Ascii.eqb_eq in H; subst
         end.
  reflexivity.
Qed.

Lemma lang_three_letters l :
  lang true (Times 3 upperAZ) l ->
  exists x y z, l = [x; y; z]
    /\ is_upper (upper_char x) = true
    /\ is_upper (upper_char y) = true
    /\ is_upper (upper_char z) = true.
Proof.
  unfold upperAZ. simpl Times. intros H. lang_inv.
  repeat match goal with
         | H : class_matches true is_upper _ = true |- _ =>
             apply letter_class in H
         end.
  eauto 10.
Qed.

(** ** The fields of an extraction *)

Import Shapes.

Lemma extract_invoiceNumber (t : string) :
  invoiceNumber (extractInvoiceMetadata t)
  = option_map (fun m => trim (group_text m 1)) (exec true invoiceNumberRegex t).
Proof.
  unfold extractInvoiceMetadata.
  repeat match goal with
         | |- context [match ?x with _ => _ end] => destruct x
         end; reflexivity.
Qed.

Lemma extract_customerName (t : string) :
  customerName (extractInvoiceMetadata t)
  = option_map (fun m => trim (group_text m 1)) (exec true customerNameRegex t).
Proof.
  unfold extractInvoiceMetadata.
  repeat match goal with
         | |- context [match ?x with _ => _ end] => destruct x
         end; reflexivity.
Qed.

Lemma extract_totalAmount (t : string) :
  totalAmount (extractInvoiceMetadata t)
  = option_map (fun m => parseFloat (remove_commas (group_text m 1)))
               (exec true totalAmountRegex t).
Proof.
  unfold extractInvoiceMetadata.
  repeat match goal with
         | |- context [match ?x with _ => _ end] => destruct x
         end; reflexivity.
Qed.

Lemma extract_issueDate (t : string) :
  issueDate (extractInvoiceMetadata t)
  = option_map (fun m => group_text m 1) (exec false issueDateRegex t).
Proof.
  unfold extractInvoiceMetadata.
  repeat match goal with
         | |- context [match ?x with _ => _ end] => destruct x
         end; reflexivity.
Qed.

(** The currency is the one of the total line when that line has one,
    and else the one of the currency line. *)
Lemma extract_currency (t : string) :
  currency (extractInvoiceMetadata t)
  = match exec true totalAmountRegex t with
    | Some m =>
        if truthy (group m 2)
           && negb (String.eqb (toUpperCase (group_text m 2)) "")
        then Some (toUpperCase (group_text m 2))
        else match exec true currencyRegex t with
             | Some c => Some (toUpperCase (group_text c 1))
             | None =>
                 if truthy (group m 2) then Some (toUpperCase (group_text m 2))
                 else None
             end
    | None => option_map (fun c => toUpperCase (group_text c 1))
                         (exec true currencyRegex t)
    end.
Proof.
  unfold extractInvoiceMetadata.
  destruct (exec true totalAmountRegex t) as [total|];
    destruct (exec true invoiceNumberRegex t), (exec true customerNameRegex t),
      (exec false issueDateRegex t);
    try destruct (truthy (group total 2));
    try destruct (String.eqb (toUpperCase (group_text total 2)) "") eqn:Hu;
    destruct (exec true currencyRegex t);
    cbn [currency set_currency set_issueDate set_totalAmount set_customerName
         set_invoiceNumber empty_metadata truthy negb andb option_map];
    rewrite ?Hu; reflexivity.
Qed.

(** *** What [trim] leaves *)

Lemma trim_start_suffix (l : list ascii) :
  exists front, l = front ++ trim_start l.
Proof.
  induction l as [|c l IH]; simpl.
  - exists []. reflexivity.
  - destruct (is_space c).
    + destruct IH as (front & E). exists (c :: front). simpl. now f_equal.
    + exists []. reflexivity.
Qed.

Lemma trim_start_head (l : list ascii) x tl :
  trim_start l = x :: tl -> is_space x = false.
Proof.
  induction l as [|c l IH]; simpl; [discriminate|].
  destruct (is_space c) eqn:Hc; [exact IH|].
  intros [= <- <-]. exact Hc.
Qed.

Lemma trim_start_spaceless (l : list ascii) :
  Forall (fun c => is_space c = false) l -> trim_start l = l.
Proof.
  intros H. destruct H as [|c l Hc Hl]; simpl; [reflexivity|].
  now rewrite Hc.
Qed.

Lemma chars_trim (s : string) :
  chars (trim s) = rev (trim_start (rev (trim_start (chars s)))).
Proof. unfold trim, chars, str. apply list_ascii_of_string_of_list_ascii. Qed.

Lemma trim_spaceless (l : list ascii) :
  Forall (fun c => is_space c = false) l -> trim (str l) = str l.
Proof.
  intros H. unfold trim. f_equal.
  unfold chars, str. rewrite list_ascii_of_string_of_list_ascii.
  rewrite (trim_start_spaceless l H).
  rewrite trim_start_spaceless; [apply rev_involutive|].
  apply Forall_rev. exact H.
Qed.

Lemma trim_trimmed (s : string) : trimmed (trim s).
Proof.
  unfold trimmed. rewrite chars_trim.
  destruct (trim_start_suffix (rev (trim_start (chars s)))) as (front & E).
  set (inner := trim_start (chars s)) in *.
  set (outer := trim_start (rev inner)) in *.
  split.
  - intros x tl Hx.
    assert (Hin : inner = rev outer ++ rev front).
    { rewrite <- rev_app_distr, <- E. symmetry. apply rev_involutive. }
    rewrite Hx in Hin. simpl in Hin.
    apply (trim_start_head (chars s) x (tl ++ rev front)). exact Hin.
  - intros x front' Hx.
    assert (Ho : outer = x :: rev front').
    { rewrite <- (rev_involutive outer), Hx, rev_app_distr. reflexivity. }
    apply (trim_start_head (rev inner) x (rev front')). exact Ho.
Qed.

Lemma trim_sublist (P : ascii -> Prop) (s : string) :
  Forall P (chars s) -> Forall P (chars (trim s)).
Proof.
  intros H. rewrite chars_trim.
  destruct (trim_start_suffix (chars s)) as (f1 & E1).
  destruct (trim_start_suffix (rev (trim_start (chars s)))) as (f2 & E2).
  rewrite E1 in H. apply Forall_app in H. destruct H as (_ & H).
  apply Forall_rev in H. rewrite E2 in H.
  apply Forall_app in H. destruct H as (_ & H).
  apply Forall_rev. exact H.
Qed.

(** *** What each message of the validation reports *)

Lemma validate_reports (m : PartialInvoiceMetadata) :
  (In message_invoiceNumber (validateInvoiceMetadata m)
   <-> invoiceNumber_bad m = true)
  /\ (In message_customerName (validateInvoiceMetadata m)
      <-> customerName_bad m = true)
  /\ (In message_totalAmount (validateInvoiceMetadata m)
      <-> totalAmount_bad m = true)
  /\ (In message_currency (validateInvoiceMetadata m)
      <-> currency_bad m = true)
  /\ (In message_issueDate (validateInvoiceMetadata m)
      <-> issueDate_bad m = true).
Proof.
  unfold validateInvoiceMetadata, push_if, message_invoiceNumber,
    message_customerName, message_totalAmount, message_currency,
    message_issueDate.
  destruct (invoiceNumber_bad m), (customerName_bad m), (totalAmount_bad m),
    (currency_bad m), (issueDate_bad m); cbn [app];
    repeat split; intros; simpl in *; intuition (discriminate || congruence).
Qed.

(** ** Extraction and validation together *)

Lemma str_nonempty (l : list ascii) : l <> [] -> str l <> "".
Proof. destruct l; [congruence | discriminate]. Qed.

Lemma nonempty_is_good (s : string) :
  s <> "" -> String.eqb s "" || (String.length s =? 0)%nat = false.
Proof. destruct s; [congruence | reflexivity]. Qed.

(** X1. Whatever the recognized text, an invoice number that is
    extracted is never empty and holds no white space, so that the
    validation reports the invoice number exactly when none was found. *)
Theorem extracted_invoice_number_is_a_word (ocrText : string) :
  let metadata := extractInvoiceMetadata ocrText in
  match invoiceNumber metadata with
  | Some n =>
      n <> "" /\ spaceless n
      /\ ~ In message_invoiceNumber (validateInvoiceMetadata metadata)
  | None => In message_invoiceNumber (validateInvoiceMetadata metadata)
  end.
Proof.
  intros metadata. subst metadata.
  destruct (validate_reports (extractInvoiceMetadata ocrText)) as (Hv & _).
  destruct (invoiceNumber (extractInvoiceMetadata ocrText)) as [n|] eqn:Hn;
    rewrite Hv; unfold invoiceNumber_bad; rewrite Hn; [|reflexivity].
  rewrite extract_invoiceNumber in Hn.
  destruct (exec true invoiceNumberRegex ocrText) as [m|] eqn:He;
    [|discriminate].
  injection Hn as <-.
  apply (labelled_group true (Lit "Invoice Number:") (Star ws) 1 (Plus nonws))
    in He.
  destruct He as (l & Ha & Hl).
  unfold group_text, group. rewrite Ha.
  apply lang_plus_class in Hl. destruct Hl as (Hne & Hall).
  assert (Hs : Forall (fun c => is_space c = false) l).
  { eapply List.Forall_impl; [|exact Hall]. intros x Hx. cbv beta in Hx.
    rewrite nonspace_class in Hx. now destruct (is_space x). }
  rewrite (trim_spaceless l Hs).
  split; [now apply str_nonempty|]. split.
  - unfold spaceless, chars, str.
    rewrite list_ascii_of_string_of_list_ascii. exact Hs.
  - rewrite nonempty_is_good by now apply str_nonempty. discriminate.
Qed.

(** X2. Whatever the recognized text, a customer name that is extracted
    lies on one line and has no white space at either end; it may be
    empty (a customer line holding only spaces), and the validation
    reports the customer name exactly when none was found or it is
    empty. *)
Theorem extracted_customer_name_is_a_trimmed_line (ocrText : string) :
  let metadata := extractInvoiceMetadata ocrText in
  match customerName metadata with
  | Some c =>
      single_line c /\ trimmed c
      /\ (In message_customerName (validateInvoiceMetadata metadata)
          <-> c = "")
  | None => In message_customerName (validateInvoiceMetadata metadata)
  end.
Proof.
  intros metadata. subst metadata.
  destruct (validate_reports (extractInvoiceMetadata ocrText)) as (_ & Hv & _).
  destruct (customerName (extractInvoiceMetadata ocrText)) as [c|] eqn:Hn;
    rewrite Hv; unfold customerName_bad; rewrite Hn; [|reflexivity].
  rewrite extract_customerName in Hn.
  destruct (exec true customerNameRegex ocrText) as [m|] eqn:He;
    [|discriminate].
  injection Hn as <-.
  apply (labelled_group true (Lit "Customer:") (Star ws) 1 (Plus dot)) in He.
  destruct He as (l & Ha & Hl).
  unfold group_text, group. rewrite Ha.
  apply lang_plus_class in Hl. destruct Hl as (_ & Hall).
  split; [|split].
  - apply trim_sublist. unfold chars at 1, str.
    rewrite list_ascii_of_string_of_list_ascii.
    eapply List.Forall_impl; [|exact Hall]. intros x Hx. cbv beta in Hx.
    rewrite dot_class in Hx. now destruct (is_line_terminator x).
  - apply trim_trimmed.
  - destruct (trim (str l)) as [|c s]; simpl; split; congruence.
Qed.

(** X3. Whatever the recognized text, an issue date that is extracted has
    the shape the validation asks for, so that the validation reports
    the issue date exactly when none was found. *)
Theorem extracted_issue_date_is_valid (ocrText : string) :
  let metadata := extractInvoiceMetadata ocrText in
  match issueDate metadata with
  | Some d =>
      iso_date_shape d
      /\ ~ In message_issueDate (validateInvoiceMetadata metadata)
  | None => In message_issueDate (validateInvoiceMetadata metadata)
  end.
Proof.
  intros metadata. subst metadata.
  destruct (validate_reports (extractInvoiceMetadata ocrText))
    as (_ & _ & _ & _ & Hv).
  destruct (issueDate (extractInvoiceMetadata ocrText)) as [d|] eqn:Hn;
    rewrite Hv; unfold issueDate_bad; rewrite Hn; [|reflexivity].
  rewrite extract_issueDate in Hn.
  destruct (exec false issueDateRegex ocrText) as [m|] eqn:He;
    [|discriminate].
  injection Hn as <-.
  apply (labelled_group false (Lit "Date:") (Star ws) 1 date_pattern) in He.
  destruct He as (l & Ha & Hl).
  unfold group_text, group. rewrite Ha.
  apply lang_date_pattern in Hl.
  assert (Hshape : iso_date_shape (str l)).
  { apply iso_date_chars_shape. unfold chars, str.
    rewrite list_ascii_of_string_of_list_ascii. exact Hl. }
  split; [exact Hshape|].
  assert (Hd : dated (Some (str l))) by (exists (str l); auto).
  apply date_check in Hd. rewrite Hd. discriminate.
Qed.

Lemma upper_three (txt : string) :
  lang true (Times 3 upperAZ) (chars txt) -> three_capitals (toUpperCase txt).
Proof.
  intros H. apply lang_three_letters in H.
  destruct H as (x & y & z & E & Hx & Hy & Hz).
  exists (upper_char x), (upper_char y), (upper_char z).
  unfold toUpperCase. rewrite E. unfold chars, str.
  rewrite list_ascii_of_string_of_list_ascii. auto.
Qed.

Lemma three_capitals_nonempty (s : string) : three_capitals s -> s <> "".
Proof. intros (x & y & z & E & _) ->. discriminate E. Qed.

Lemma currency_line_capitals (t : string) (c : MatchResult) :
  exec true currencyRegex t = Some c ->
  three_capitals (toUpperCase (group_text c 1)).
Proof.
  intros He.
  apply (labelled_group true (Lit "Currency:") (Star ws) 1 (Times 3 upperAZ))
    in He.
  destruct He as (l & Ha & Hl). unfold group_text, group. rewrite Ha.
  apply upper_three. unfold chars, str.
  rewrite list_ascii_of_string_of_list_ascii. exact Hl.
Qed.

Lemma total_line_capitals (t : string) (m : MatchResult) :
  exec true totalAmountRegex t = Some m ->
  truthy (group m 2) = true ->
  three_capitals (toUpperCase (group_text m 2)).
Proof.
  intros He Ht. apply exec_sound in He. destruct He as (_ & Hg).
  unfold group_text. unfold group in *.
  destruct (assoc 2 (groups m)) as [txt|] eqn:Ha; [|discriminate].
  apply (assoc_Forall _ _ _ _ Hg) in Ha.
  destruct Ha as (a & Hin & Hl). simpl in Hin.
  destruct Hin as [<- | []]. simpl in Hl. now apply upper_three.
Qed.

Lemma extracted_currency_shape (t c : string) :
  currency (extractInvoiceMetadata t) = Some c -> three_capitals c.
Proof.
  rewrite extract_currency.
  destruct (exec true totalAmountRegex t) as [m|] eqn:Hm.
  - destruct (truthy (group m 2)) eqn:Ht.
    + pose proof (total_line_capitals t m Hm Ht) as H3.
      pose proof (three_capitals_nonempty _ H3) as Hne.
      destruct (String.eqb_spec (toUpperCase (group_text m 2)) "") as [E|_];
        [contradiction|].
      simpl. now intros [= <-].
    + simpl. destruct (exec true currencyRegex t) as [x|] eqn:Hc;
        [|discriminate].
      intros [= <-]. now apply (currency_line_capitals t).
  - destruct (exec true currencyRegex t) as [x|] eqn:Hc; [|discriminate].
    simpl. intros [= <-]. now apply (currency_line_capitals t).
Qed.

(** X4. Whatever the recognized text, a currency that is extracted, from
    the total line or from the currency line, is three capital letters,
    so that the validation reports the currency exactly when none was
    found. *)
Theorem extracted_currency_is_three_capitals (ocrText : string) :
  let metadata := extractInvoiceMetadata ocrText in
  match currency metadata with
  | Some c =>
      three_capitals c
      /\ ~ In message_currency (validateInvoiceMetadata metadata)
  | None => In message_currency (validateInvoiceMetadata metadata)
  end.
Proof.
  intros metadata. subst metadata.
  destruct (validate_reports (extractInvoiceMetadata ocrText))
    as (_ & _ & _ & Hv & _).
  destruct (currency (extractInvoiceMetadata ocrText)) as [c|] eqn:Hn;
    rewrite Hv; unfold currency_bad; rewrite Hn; [|reflexivity].
  apply extracted_currency_shape in Hn. split; [exact Hn|].
  rewrite nonempty_is_good by now apply three_capitals_nonempty.
  discriminate.
Qed.

(** ** The total amount *)

(** *** Rounding never yields NaN or a negative number *)

Lemma iter_pos_keeps {A : Type} (I : A -> Prop) (f : A -> A) :
  (forall x, I x -> I (f x)) ->
  forall p x, I x -> I (SpecFloat.iter_pos f p x).
Proof.
  intros Hf. induction p as [p IH|p IH|]; intros x Hx; simpl; auto.
Qed.

Lemma shr_1_nonneg (mrs : shr_record) :
  (0 <= shr_m mrs)%Z -> (0 <= shr_m (shr_1 mrs))%Z.
Proof.
  destruct mrs as [m r s]. simpl.
  destruct m as [|[p|p|]|p]; simpl; intros H; lia.
Qed.

Lemma shr_nonneg (mrs : shr_record) (e n : Z) :
  (0 <= shr_m mrs)%Z -> (0 <= shr_m (fst (shr mrs e n)))%Z.
Proof.
  intros H. unfold shr. destruct n as [|p|p]; simpl; auto.
  apply (iter_pos_keeps (fun x => (0 <= shr_m x)%Z)); auto.
  apply shr_1_nonneg.
Qed.

Lemma shr_fexp_nonneg (m e : Z) (l : location) :
  (0 <= m)%Z -> (0 <= shr_m (fst (shr_fexp prec emax m e l)))%Z.
Proof.
  intros H. unfold shr_fexp. apply shr_nonneg.
  destruct l as [|[]]; simpl; exact H.
Qed.

Lemma round_nearest_even_nonneg (m : Z) (l : location) :
  (0 <= m)%Z -> (0 <= round_nearest_even m l)%Z.
Proof.
  intros H. unfold round_nearest_even.
  destruct l as [|[]]; try destruct (Z.even m); lia.
Qed.

Lemma binary_round_aux_value (s : bool) (m e : Z) (l : location) :
  (0 <= m)%Z -> signed_value s (binary_round_aux prec emax s m e l).
Proof.
  intros H. unfold binary_round_aux.
  pose proof (shr_fexp_nonneg m e l H) as H1.
  destruct (shr_fexp prec emax m e l) as [mrs' e'] eqn:E1. simpl in H1.
  pose proof (shr_fexp_nonneg
                (round_nearest_even (shr_m mrs') (loc_of_shr_record mrs'))
                e' loc_Exact
                (round_nearest_even_nonneg _ _ H1)) as H2.
  destruct (shr_fexp prec emax
              (round_nearest_even (shr_m mrs') (loc_of_shr_record mrs'))
              e' loc_Exact) as [mrs'' e''] eqn:E2.
  simpl in H2.
  destruct (shr_m mrs'') as [|p|p]; simpl; [reflexivity | | lia].
  destruct (e'' <=? emax - prec)%Z; reflexivity.
Qed.

Lemma of_decimal_value (m : N) (e : Z) :
  signed_value false (of_decimal false m e).
Proof.
  unfold of_decimal. destruct m as [|p]; [reflexivity|].
  unfold SFdiv. cbv zeta.
  set (num := (p * Z.to_pos (10 ^ Z.max e 0))%positive).
  set (den := Z.to_pos (10 ^ Z.max (- e) 0)).
  unfold SFdiv_core_binary.
  set (e' := Z.min _ _). set (s := (0 - 0 - e')%Z).
  set (m' := match s with
             | 0%Z => Z.pos num
             | Z.pos _ => Z.shiftl (Z.pos num) s
             | Z.neg _ => 0%Z
             end).
  assert (Hm' : (0 <= m')%Z).
  { subst m'. destruct s; [lia | | lia]. apply Z.shiftl_nonneg. lia. }
  pose proof (Z.div_pos m' (Z.pos den) Hm' ltac:(lia)) as Hq.
  unfold Z.div in Hq.
  destruct (Z.div_eucl m' (Z.pos den)) as [q r]. simpl.
  apply binary_round_aux_value. exact Hq.
Qed.

(** *** [parseFloat] on a text that starts with a digit *)

Lemma digit_class (x : ascii) :
  class_matches true is_digit x = is_digit x.
Proof. destruct x as [[] [] [] [] [] [] [] []]; reflexivity. Qed.

Lemma digit_cases (x : ascii) :
  is_digit x = true ->
  In x ["0"; "1"; "2"; "3"; "4"; "5"; "6"; "7"; "8"; "9"]%char.
Proof.
  destruct x as [[] [] [] [] [] [] [] []]; intros H; try discriminate H;
    simpl; auto 12.
Qed.

Lemma read_digits_count (l : list ascii) :
  forall acc n, (n <= snd (fst (read_digits l acc n)))%nat.
Proof.
  induction l as [|c l IH]; intros acc n; simpl; [lia|].
  destruct (is_digit c); simpl; [|lia].
  specialize (IH (acc * 10 + digit_value c)%N (S n)). lia.
Qed.

Lemma parseFloat_digit (d : ascii) (l : list ascii) :
  is_digit d = true -> signed_value false (parseFloat (str (d :: l))).
Proof.
  intros Hd. apply digit_cases in Hd.
  assert (Hgen : forall v,
            signed_value false
              (let '(ip, ni, l1) := read_digits l v 1 in
               let '(m, nf, l2) :=
                 match l1 with
                 | "."%char :: tl =>
                     let '(m, nd, l2) := read_digits tl ip ni in
                     (m, (nd - ni)%nat, l2)
                 | _ => (ip, 0%nat, l1)
                 end in
               match (ni + nf)%nat with
               | O => NaN
               | S _ => of_decimal false m (read_exponent l2 - Z.of_nat nf)
               end)).
  { intros v. pose proof (read_digits_count l v 1) as Hc.
    destruct (read_digits l v 1) as [[ip ni] l1]. simpl in Hc.
    match goal with
    | |- signed_value _ (match ?x with _ => _ end) =>
        destruct x as [[m nf] l2]
    end.
    destruct (ni + nf)%nat eqn:E; [lia|]. apply of_decimal_value. }
  unfold parseFloat, chars, str.
  rewrite list_ascii_of_string_of_list_ascii.
  simpl in Hd.
  repeat (destruct Hd as [<- | Hd]; [apply Hgen|]). destruct Hd.
Qed.

(** *** The amount group of the total expression *)

Lemma assoc_app_absent (i : nat) (new old : list (nat * string)) :
  Forall (fun e => fst e <> i) new -> assoc i (new ++ old) = assoc i old.
Proof.
  induction 1 as [|[j s] new Hj _ IH]; simpl; [reflexivity|].
  simpl in Hj. destruct (Nat.eqb_spec i j); [congruence | exact IH].
Qed.

(** Expressions with group [i] in fifth place, the rest holding no group
    [i]: the group always takes part, with a text its body matches. *)
Lemma fifth_group icase a b c d i body tail s m :
  group_bodies tail i = [] ->
  exec icase (a · b · c · d · Group i body · tail) s = Some m ->
  exists l, assoc i (groups m) = Some (str l) /\ lang icase body l.
Proof.
  intros Htail H. apply search_found in H. destruct H as (input & j & H).
  unfold match_at in H.
  destruct (rmatch icase (a · b · c · d · Group i body · tail) Some
              (mkMState input j [])) as [st'|] eqn:Hr; [|discriminate].
  injection H as <-. simpl groups. simpl in Hr.
  apply rmatch_sound in Hr. destruct Hr as (st1 & _ & _ & Hr & _).
  apply rmatch_sound in Hr. destruct Hr as (st2 & _ & _ & Hr & _).
  apply rmatch_sound in Hr. destruct Hr as (st3 & _ & _ & Hr & _).
  apply rmatch_sound in Hr. destruct Hr as (st4 & _ & _ & Hr & _).
  apply rmatch_sound in Hr.
  destruct Hr as (st5 & l & _ & Hr & (R & P & _) & L & _).
  apply rmatch_sound in Hr.
  destruct Hr as (st6 & _ & new & [= <-] & (_ & _ & C) & _ & G).
  exists l. split; [|exact L]. rewrite C. rewrite assoc_app_absent.
  - simpl. rewrite Nat.eqb_refl. rewrite R, P.
    replace (pos st4 + List.length l - pos st4)%nat with (List.length l)
      by lia.
    rewrite firstn_app, Nat.sub_diag, firstn_all. simpl.
    now rewrite app_nil_r.
  - eapply List.Forall_impl; [|exact G].
    intros e (x & Hin & _) He. rewrite He, Htail in Hin. destruct Hin.
Qed.

Lemma amount_starts_with_digit (t : string) (m : MatchResult) :
  exec true totalAmountRegex t = Some m ->
  exists d l, group_text m 1 = str (d :: l) /\ is_digit d = true.
Proof.
  intros He.
  apply (fifth_group true (Lit "Total") (Opt (Plus ws · Lit "Amount"))
           (Char ":") (Star ws) 1
           (Between 1 3 digit · Star (sep · Times 3 digit)
            · Opt (sep · Times 2 digit))
           (Star ws · Opt (Group 2 (Times 3 upperAZ)))) in He;
    [|reflexivity].
  destruct He as (l & Ha & Hl).
  unfold group_text, group. rewrite Ha.
  inversion Hl as [| | |? ? l1 l2 H1 _ | | | | | | |]; subst.
  unfold Between in H1. simpl Times in H1.
  inversion H1 as [| | |? ? l3 l4 H3 _ | | | | | | |]; subst.
  inversion H3 as [| | |? ? l5 l6 H5 H6 | | | | | | |]; subst.
  inversion H5 as [| |? d Hd| | | | | | | |]; subst.
  exists d. eexists. split; [reflexivity|].
  now rewrite digit_class in Hd.
Qed.

(** X5. Whatever the recognized text, a total amount that is extracted
    is a number: never NaN and never negative (it may be zero, or
    infinite for an amount of several hundred digits). The validation
    therefore reports the total amount exactly when none was found or
    the amount is zero. *)
Theorem extracted_total_is_a_number (ocrText : string) :
  let metadata := extractInvoiceMetadata ocrText in
  match totalAmount metadata with
  | Some x =>
      isNaN x = false /\ le zero x = true
      /\ (In message_totalAmount (validateInvoiceMetadata metadata)
          <-> x = zero)
  | None => In message_totalAmount (validateInvoiceMetadata metadata)
  end.
Proof.
  intros metadata. subst metadata.
  destruct (validate_reports (extractInvoiceMetadata ocrText))
    as (_ & _ & Hv & _).
  destruct (totalAmount (extractInvoiceMetadata ocrText)) as [x|] eqn:Hn;
    rewrite Hv; unfold totalAmount_bad; rewrite Hn; [|reflexivity].
  rewrite extract_totalAmount in Hn.
  destruct (exec true totalAmountRegex ocrText) as [m|] eqn:He;
    [|discriminate].
  injection Hn as <-.
  destruct (amount_starts_with_digit ocrText m He) as (d & l & -> & Hd).
  assert (Hc : remove_commas (str (d :: l))
               = str (d :: filter (fun c => negb (Ascii.eqb c ","%char)) l)).
  { unfold remove_commas, chars, str.
    rewrite list_ascii_of_string_of_list_ascii. simpl.
    apply digit_cases in Hd. simpl in Hd.
    repeat (destruct Hd as [<- | Hd]; [reflexivity|]). destruct Hd. }
  rewrite Hc.
  pose proof (parseFloat_digit
                d (filter (fun c => negb (Ascii.eqb c ","%char)) l) Hd) as Hs.
  destruct (parseFloat _) as [[]|[]| |[] mx ex]; simpl in Hs;
    try discriminate Hs; try contradiction;
    repeat split; try reflexivity; try discriminate; intros H; discriminate H.
Qed.

(** ** The world a successful run leaves *)

Section WorldAfter.
Variables (w : World) (documentId : string).
Hypothesis Hrel : reliable w.
Hypothesis Hrec : record_exists documentId w.

Lemma ocr_world_after (content : Buffer) :
  contents w !! content_key documentId = Some content ->
  let w' := snd (run_stage Recognition documentId w) in
  reliable w'
  /\ record_exists documentId w'
  /\ contents w' = contents w
  /\ recognized_text documentId w' = Some simulatedText.
Proof.
  intros Hc w'. subst w'. open_world w Hrel. run_in Hc. fetch Hrec h Hh.
  run. rewrite Hh. run. rewrite Hrec. run. rewrite Hc. run.
  read_back. rewrite ?Hh. run.
  destruct h as [[?|] [?|] ? ? ? ? ? ?]; repeat split; reflexivity.
Qed.

Lemma validation_world_after (ocrText : string) :
  recognized_text documentId w = Some ocrText ->
  let w' := snd (run_stage ExtractionValidation documentId w) in
  reliable w'
  /\ record_exists documentId w'
  /\ contents w' = contents w
  /\ recognized_text documentId w' = Some ocrText.
Proof.
  intros Ht w'. subst w'. open_world w Hrel. run_in Ht. fetch Hrec h Hh.
  run. rewrite Hh. run. rewrite Hrec. run.
  destruct h as [[?|] [?|] ? ? ? [ocr|] ? ?]; try discriminate.
  all: run; run_in Ht.
  all:
  destruct (String.eqb (text ocr) "") eqn:Hempty; [discriminate|];
    injection Ht as <-; run;
    destruct (validateInvoiceMetadata (extractInvoiceMetadata (text ocr)));
    run; read_back; rewrite ?Hh; run; rewrite ?Hempty;
    repeat split; reflexivity.
Qed.

End WorldAfter.

Lemma persist_keeps_results (w : World) (documentId : string) :
  reliable w ->
  record_exists documentId w ->
  let key := document_key documentId in
  let w' := snd (run_stage Persistence documentId w) in
  h_ocrResult (lookup_hash key w') = h_ocrResult (lookup_hash key w)
  /\ h_extractedMetadata (lookup_hash key w')
     = h_extractedMetadata (lookup_hash key w)
  /\ h_validationErrors (lookup_hash key w')
     = h_validationErrors (lookup_hash key w).
Proof.
  intros Hrel Hrec key w'. subst key w'. open_world w Hrel. fetch Hrec h Hh.
  run. rewrite Hh. run. rewrite Hrec. run.
  destruct h as [? ? [[]|] ? ? ? ? ?]; run;
    rewrite ?(lookup_delete_ne _ _ _ (keys_apart documentId)),
      ?lookup_insert_eq, ?Hh;
    run; repeat split; reflexivity.
Qed.

Lemma simulated_text_validates :
  validateInvoiceMetadata (extractInvoiceMetadata simulatedText) = [].
Proof. vm_compute. reflexivity. Qed.

(** ** Stages in sequence *)

(** Reads the fields written off a journal of several runs. *)
Ltac read_fields :=
  unfold status_writes; cbn [app];
  repeat (rewrite fields_written_hset || rewrite fields_written_xadd
          || rewrite fields_written_del);
  try reflexivity.

(** X6. Recognition, then extraction/validation, then persistence, on a
    document whose record and payload exist, no call of the client
    raising: the document ends PERSISTED without its payload, the
    statuses written are OCR_PENDING, OCR_COMPLETED, VALIDATION_PENDING,
    VALIDATED and PERSISTED in that order (a path of the transition graph
    from UPLOADED), and the record holds what was extracted from the
    simulated text. *)
Theorem pipeline_persists_a_document_with_payload (w : World)
        (documentId : string) (content : Buffer) :
  reliable w ->
  record_exists documentId w ->
  contents w !! content_key documentId = Some content ->
  let key := document_key documentId in
  let w1 := snd (run_stage Recognition documentId w) in
  let w2 := snd (run_stage ExtractionValidation documentId w1) in
  let w3 := snd (run_stage Persistence documentId w2) in
  current_status documentId w3 = Some PERSISTED
  /\ contents w3 !! content_key documentId = None
  /\ status_writes key (performed w w3)
     = [OCR_PENDING; OCR_COMPLETED; VALIDATION_PENDING; VALIDATED; PERSISTED]
  /\ follows_graph (Some UPLOADED) (status_writes key (performed w w3)) = true
  /\ emitted "ocr_result_queue" (performed w w3)
     = [["documentId"; documentId; "status"; "OCR_COMPLETED"]]
  /\ emitted "validation_queue" (performed w w3)
     = [["documentId"; documentId; "status"; "VALIDATED"]]
  /\ h_extractedMetadata (lookup_hash key w3)
     = Some (extractInvoiceMetadata simulatedText).
Proof.
  intros Hrel Hrec Hc key w1 w2 w3.
  destruct (ocr_transform w documentId Hrel Hrec content Hc) as (_ & Hj1 & _).
  destruct (ocr_world_after w documentId Hrel Hrec content Hc)
    as (Hrel1 & Hrec1 & _ & Ht1).
  fold w1 in Hj1, Hrel1, Hrec1, Ht1.
  destruct (validation_checks w1 documentId Hrel1 Hrec1 simulatedText Ht1)
    as (_ & Hx & Hm).
  rewrite simulated_text_validates in Hm. destruct Hm as (Hj2 & Hs2 & _).
  destruct (validation_world_after w1 documentId Hrel1 Hrec1 simulatedText Ht1)
    as (Hrel2 & Hrec2 & _).
  fold w2 in Hj2, Hs2, Hx, Hrel2, Hrec2.
  destruct (persist_validated w2 documentId Hrel2 Hrec2 Hs2)
    as (_ & Hj3 & Hs3 & Hc3 & _).
  destruct (persist_keeps_results w2 documentId Hrel2 Hrec2) as (_ & Hx3 & _).
  fold w3 in Hj3, Hs3, Hc3, Hx3. fold key in Hj1, Hj2, Hj3, Hx, Hx3.
  assert (Hp : performed w w3
               = [HSET key [F_status OCR_PENDING; F_updatedAt (hd epoch (clock w))];
                  HSET key [F_ocrResult (simulateOCR content);
                            F_status OCR_COMPLETED;
                            F_updatedAt (hd epoch (tl (clock w)))];
                  XADD "ocr_result_queue"
                       ["documentId"; documentId; "status"; "OCR_COMPLETED"];
                  HSET key [F_status VALIDATION_PENDING;
                            F_updatedAt (hd epoch (clock w1))];
                  HSET key [F_extractedMetadata
                              (extractInvoiceMetadata simulatedText);
                            F_status VALIDATED;
                            F_updatedAt (hd epoch (tl (clock w1)))];
                  XADD "validation_queue"
                       ["documentId"; documentId; "status"; "VALIDATED"];
                  HSET key [F_status PERSISTED;
                            F_updatedAt (hd epoch (clock w2))];
                  DEL (content_key documentId)]).
  { apply performed_app. rewrite Hj3, Hj2, Hj1, <- !app_assoc. reflexivity. }
  rewrite Hp.
  split; [exact Hs3|]. split; [rewrite Hc3; apply lookup_delete_eq|].
  split; [read_fields|]. split; [read_fields|].
  split; [reflexivity|]. split; [reflexivity|].
  rewrite Hx3. exact Hx.
Qed.

Lemma pipeline_persists_a_document_with_payload_witness :
  let w1 := snd (run_stage Recognition "doc-1" uploaded_world) in
  let w2 := snd (run_stage ExtractionValidation "doc-1" w1) in
  let w3 := snd (run_stage Persistence "doc-1" w2) in
  current_status "doc-1" w3 = Some PERSISTED
  /\ contents w3 !! content_key "doc-1" = None.
Proof.
  assert (Hrel : reliable uploaded_world) by reflexivity.
  assert (Hrec : record_exists "doc-1" uploaded_world)
    by (vm_compute; reflexivity).
  assert (Hc : contents uploaded_world !! content_key "doc-1" = Some pdf)
    by (vm_compute; reflexivity).
  destruct (pipeline_persists_a_document_with_payload
              uploaded_world "doc-1" pdf Hrel Hrec Hc) as (H1 & H2 & _).
  split; [exact H1 | exact H2].
Defined.

(** X7. Extraction/validation, then persistence, on a document with a
    recognized text, no call of the client raising: when the checks on
    what was extracted pass, the document ends PERSISTED and its payload
    is deleted; when a check fails, it ends FAILED, the messages of the
    failed checks are kept on the record and the payload is left where
    it was.  Either way the record keeps what was extracted and the
    persistence stage emits nothing. *)
Theorem validation_outcome_decides_persistence (w : World)
        (documentId ocrText : string) :
  reliable w ->
  record_exists documentId w ->
  recognized_text documentId w = Some ocrText ->
  let key := document_key documentId in
  let metadata := extractInvoiceMetadata ocrText in
  let w1 := snd (run_stage ExtractionValidation documentId w) in
  let w2 := snd (run_stage Persistence documentId w1) in
  h_extractedMetadata (lookup_hash key w2) = Some metadata
  /\ streams w2 = streams w1
  /\ match validateInvoiceMetadata metadata with
     | [] =>
         current_status documentId w2 = Some PERSISTED
         /\ contents w2 !! content_key documentId = None
         /\ status_writes key (performed w w2)
            = [VALIDATION_PENDING; VALIDATED; PERSISTED]
     | errors =>
         current_status documentId w2 = Some FAILED
         /\ contents w2 = contents w
         /\ h_validationErrors (lookup_hash key w2) = Some errors
         /\ status_writes key (performed w w2)
            = [VALIDATION_PENDING; VALIDATION_FAILED; FAILED]
     end.
Proof.
  intros Hrel Hrec Ht key metadata w1 w2.
  destruct (validation_checks w documentId Hrel Hrec ocrText Ht)
    as (_ & Hx & Hm).
  destruct (validation_world_after w documentId Hrel Hrec ocrText Ht)
    as (Hrel1 & Hrec1 & Hc1 & _).
  fold w1 in Hx, Hm, Hrel1, Hrec1, Hc1. fold metadata in Hx, Hm.
  fold key in Hx, Hm.
  destruct (persist_keeps_results w1 documentId Hrel1 Hrec1)
    as (_ & Hx2 & He2).
  fold w2 key in Hx2, He2.
  split; [rewrite Hx2; exact Hx|].
  destruct (validateInvoiceMetadata metadata) as [|e errors].
  - destruct Hm as (Hj1 & Hs1 & _).
    destruct (persist_validated w1 documentId Hrel1 Hrec1 Hs1)
      as (_ & Hj2 & Hs2 & Hc2 & Hq2).
    fold w2 key in Hj2, Hs2, Hc2, Hq2.
    split; [exact Hq2|]. split; [exact Hs2|].
    split; [rewrite Hc2; apply lookup_delete_eq|].
    rewrite (performed_app w w2 _
               ltac:(rewrite Hj2, Hj1, <- !app_assoc; reflexivity)).
    read_fields.
  - destruct Hm as (Hj1 & Hs1 & He1).
    destruct (persist_validation_failed w1 documentId Hrel1 Hrec1 Hs1)
      as (_ & Hj2 & Hs2 & Hc2 & Hq2).
    fold w2 key in Hj2, Hs2, Hc2, Hq2.
    split; [exact Hq2|]. split; [exact Hs2|].
    split; [rewrite Hc2; exact Hc1|].
    split; [rewrite He2; exact He1|].
    rewrite (performed_app w w2 _
               ltac:(rewrite Hj2, Hj1, <- !app_assoc; reflexivity)).
    read_fields.
Qed.

Lemma validation_outcome_decides_persistence_witness :
  let w1 := snd (run_stage ExtractionValidation "doc-1" incomplete_world) in
  let w2 := snd (run_stage Persistence "doc-1" w1) in
  current_status "doc-1" w2 = Some FAILED
  /\ h_validationErrors (lookup_hash (document_key "doc-1") w2)
     = Some [message_customerName].
Proof.
  assert (Hrel : reliable incomplete_world) by reflexivity.
  assert (Hrec : record_exists "doc-1" incomplete_world)
    by (vm_compute; reflexivity).
  assert (Ht : recognized_text "doc-1" incomplete_world
               = Some invoice_without_customer) by (vm_compute; reflexivity).
  pose proof (validation_outcome_decides_persistence
                incomplete_world "doc-1" invoice_without_customer
                Hrel Hrec Ht) as H.
  cbv zeta in H. destruct H as (_ & _ & H).
  assert (He : validateInvoiceMetadata
                 (extractInvoiceMetadata invoice_without_customer)
               = [message_customerName]) by (vm_compute; reflexivity).
  rewrite He in H. destruct H as (H1 & _ & H3 & _).
  split; [exact H1 | exact H3].
Defined.

(** ** Laws of the relations a computation keeps *)

Import Conduct.

Section KeptLaws.
Context {St : Type} (view : St -> World) (R : World -> World -> Prop).
Hypothesis R_refl : forall w, R w w.
Hypothesis R_trans : forall a b c, R a b -> R b c -> R a c.

Lemma kept_ret {A : Type} (a : A) : kept view R (ret a).
Proof. intros s. apply R_refl. Qed.

Lemma kept_throw {A : Type} (message : string) :
  kept view R (@throw St A message).
Proof. intros s. apply R_refl. Qed.

Lemma kept_bind {A B : Type} (c : Eff St A) (k : A -> Eff St B) :
  kept view R c -> (forall a, kept view R (k a)) -> kept view R (bind c k).
Proof.
  intros Hc Hk s. unfold bind. specialize (Hc s).
  destruct (c s) as [[a|e] s1]; simpl in Hc |- *; [|exact Hc].
  apply (R_trans _ _ _ Hc), Hk.
Qed.

Lemma kept_try_catch {A : Type} (body : Eff St A) (handler : string -> Eff St A) :
  kept view R body -> (forall e, kept view R (handler e)) ->
  kept view R (try_catch body handler).
Proof.
  intros Hb Hh s. unfold try_catch. specialize (Hb s).
  destruct (body s) as [[a|e] s1]; simpl in Hb |- *; [exact Hb|].
  apply (R_trans _ _ _ Hb), Hh.
Qed.

End KeptLaws.

Section KeptFrames.
Variable R : World -> World -> Prop.
Hypothesis R_refl : forall w, R w w.

Lemma kept_io {A : Type} (c : Eff World A) :
  kept whole R c -> kept world R (io c).
Proof.
  intros Hc f. unfold io. specialize (Hc (world f)). unfold whole in Hc.
  destruct (c (world f)) as [o w']. exact Hc.
Qed.

Lemma kept_get_document : kept world R get_document.
Proof. intros f. apply R_refl. Qed.

Lemma kept_set_document (d : Document) : kept world R (set_document d).
Proof. intros f. apply R_refl. Qed.

Lemma kept_update_document (g : Document -> Document) :
  kept world R (update_document g).
Proof. intros f. apply R_refl. Qed.

Lemma kept_invoke (h : Eff Frame unit) :
  kept world R h -> kept whole R (invoke h).
Proof.
  intros Hh w. unfold invoke, whole. specialize (Hh (mkFrame w None)).
  destruct (h (mkFrame w None)) as [o f]. exact Hh.
Qed.

Lemma kept_for_each {A : Type} (R_trans : forall a b c, R a b -> R b c -> R a c)
      (body : A -> Eff World unit) (l : list A) :
  (forall x, kept whole R (body x)) -> kept whole R (for_each body l).
Proof.
  intros Hb. induction l as [|x l IH]; simpl.
  - apply kept_ret, R_refl.
  - apply kept_bind; auto.
Qed.

End KeptFrames.

Lemma kept_weaken {St A : Type} (view : St -> World)
      (R R' : World -> World -> Prop) (c : Eff St A) :
  (forall w w', R w w' -> R' w w') -> kept view R c -> kept view R' c.
Proof. intros HR Hc s. apply HR, Hc. Qed.

(** ** The relations are preorders *)

Lemma issues_refl (P : Command -> Prop) (w : World) : issues P w w.
Proof. exists []. split; [symmetry; apply app_nil_r | constructor]. Qed.

Lemma issues_trans (P : Command -> Prop) (a b c : World) :
  issues P a b -> issues P b c -> issues P a c.
Proof.
  intros (l1 & E1 & F1) (l2 & E2 & F2). exists (l1 ++ l2). split.
  - rewrite E2, E1. symmetry. apply app_assoc.
  - apply Forall_app. split; assumption.
Qed.

Lemma issues_weaken (P Q : Command -> Prop) (w w' : World) :
  (forall c, P c -> Q c) -> issues P w w' -> issues Q w w'.
Proof.
  intros HPQ (l & E & F). exists l. split; [exact E|].
  eapply List.Forall_impl; eauto.
Qed.

Lemma others_kept_refl (documentId : string) (w : World) :
  others_kept documentId w w.
Proof.
  repeat split; auto. intros topic. exists []. symmetry. apply app_nil_r.
Qed.

Lemma others_kept_trans (documentId : string) (a b c : World) :
  others_kept documentId a b -> others_kept documentId b c ->
  others_kept documentId a c.
Proof.
  intros (H1 & C1 & S1) (H2 & C2 & S2). repeat split.
  - intros key Hd Hc. rewrite H2, H1; auto.
  - intros key Hc. rewrite C2, C1; auto.
  - intros topic. destruct (S1 topic) as (n1 & E1).
    destruct (S2 topic) as (n2 & E2). exists (n1 ++ n2).
    rewrite E2, E1. symmetry. apply app_assoc.
Qed.

Lemma record_kept_refl (documentId : string) (w : World) :
  record_kept documentId w w.
Proof. repeat split; auto. Qed.

Lemma record_kept_trans (documentId : string) (a b c : World) :
  record_kept documentId a b -> record_kept documentId b c ->
  record_kept documentId a c.
Proof.
  unfold record_kept. intros (I1 & F1 & C1 & E1) (I2 & F2 & C2 & E2).
  repeat split; try congruence. auto.
Qed.

Lemma consumed_refl (w : World) : consumed w w.
Proof. exists []. reflexivity. Qed.

Lemma consumed_trans (a b c : World) :
  consumed a b -> consumed b c -> consumed a c.
Proof.
  intros (u1 & E1) (u2 & E2). exists (u1 ++ u2).
  rewrite E1, E2. apply app_assoc.
Qed.

Lemma confined_refl (stage : Stage) (documentId : string) (w : World) :
  confined stage documentId w w.
Proof.
  split; [apply issues_refl|]. split; [apply others_kept_refl|].
  split; [apply record_kept_refl | apply consumed_refl].
Qed.

Lemma confined_trans (stage : Stage) (documentId : string) (a b c : World) :
  confined stage documentId a b -> confined stage documentId b c ->
  confined stage documentId a c.
Proof.
  intros (I1 & O1 & K1 & U1) (I2 & O2 & K2 & U2).
  split; [eapply issues_trans; eauto|].
  split; [eapply others_kept_trans; eauto|].
  split; [eapply record_kept_trans; eauto | eapply consumed_trans; eauto].
Qed.

Lemma loop_confined_refl (stage : Stage) (w : World) : loop_confined stage w w.
Proof. split; [apply issues_refl | apply consumed_refl]. Qed.

Lemma loop_confined_trans (stage : Stage) (a b c : World) :
  loop_confined stage a b -> loop_confined stage b c -> loop_confined stage a c.
Proof.
  intros (I1 & U1) (I2 & U2).
  split; [eapply issues_trans; eauto | eapply consumed_trans; eauto].
Qed.

Lemma confined_in_loop (stage : Stage) (documentId : string) (w w' : World) :
  confined stage documentId w w' -> loop_confined stage w w'.
Proof.
  intros (I & _ & _ & U). split; [|exact U].
  apply (issues_weaken (own_command stage documentId)); [|exact I].
  intros c Hc. left. exists documentId. exact Hc.
Qed.

(** ** What the calls of the client keep *)

(** A step that leaves store, broker and journal as they are. *)
Lemma quiet_step (stage : Stage) (documentId : string) (w w' : World) :
  hashes w' = hashes w -> contents w' = contents w ->
  streams w' = streams w -> journal w' = journal w ->
  consumed w w' ->
  confined stage documentId w w'.
Proof.
  intros EH EC ES EJ U. split; [|split; [|split]].
  - exists []. split; [rewrite EJ; symmetry; apply app_nil_r | constructor].
  - split; [|split].
    + intros key _ _. rewrite EH. reflexivity.
    + intros key _. rewrite EC. reflexivity.
    + intros topic. exists []. unfold lookup_stream. rewrite ES.
      symmetry. apply app_nil_r.
  - unfold record_kept, lookup_hash. rewrite EH. repeat split; auto.
  - exact U.
Qed.

Lemma quiet_loop_step (stage : Stage) (w w' : World) :
  journal w' = journal w -> consumed w w' -> loop_confined stage w w'.
Proof.
  intros EJ U. split; [|exact U].
  exists []. split; [rewrite EJ; symmetry; apply app_nil_r | constructor].
Qed.

Lemma set_field_identity (h : DocHash) (f : Field) :
  result_field f = true ->
  h_id (set_field h f) = h_id h
  /\ h_filename (set_field h f) = h_filename h
  /\ h_createdAt (set_field h f) = h_createdAt h.
Proof. destruct f; simpl; intros H; try discriminate; auto. Qed.

Lemma set_field_nonempty (h : DocHash) (f : Field) :
  hash_is_empty h = false -> hash_is_empty (set_field h f) = false.
Proof.
  destruct h as [[?|] [?|] [?|] [?|] [?|] [?|] [?|] [?|]], f; simpl; congruence.
Qed.

Lemma set_fields_kept (fields : list Field) (h : DocHash) :
  forallb result_field fields = true ->
  let h' := fold_left set_field fields h in
  h_id h' = h_id h
  /\ h_filename h' = h_filename h
  /\ h_createdAt h' = h_createdAt h
  /\ (hash_is_empty h = false -> hash_is_empty h' = false).
Proof.
  revert h. induction fields as [|f fields IH]; simpl; intros h Hr.
  - auto.
  - apply andb_true_iff in Hr as [Hf Hr].
    destruct (IH (set_field h f) Hr) as (I & F & C & E).
    destruct (set_field_identity h f Hf) as (I0 & F0 & C0).
    repeat split; try congruence.
    intros Hne. apply E, set_field_nonempty, Hne.
Qed.

Section ClientCalls.
Variables (stage : Stage) (documentId : string).

Lemma confined_read {A : Type} (f : World -> A) :
  kept whole (confined stage documentId) (call (fun w => (f w, w))).
Proof.
  intros [H C S J L K [|[m|] later]]; unfold whole, call; simpl;
    apply quiet_step; try reflexivity.
  - exists []. reflexivity.
  - exists [Some m]. reflexivity.
  - exists [None]. reflexivity.
Qed.

Lemma confined_hgetall (key : string) :
  kept whole (confined stage documentId) (hgetall key).
Proof. apply confined_read. Qed.

Lemma confined_getBuffer (key : string) :
  kept whole (confined stage documentId) (getBuffer key).
Proof. apply confined_read. Qed.

Lemma confined_console_write (l : Level) (args : list LogArg) :
  kept whole (confined stage documentId) (console_write l args).
Proof.
  intros w. apply quiet_step; try reflexivity. exists []. reflexivity.
Qed.

Lemma confined_now : kept whole (confined stage documentId) now.
Proof.
  intros w. apply quiet_step; try reflexivity. exists []. reflexivity.
Qed.

Lemma confined_hset (fields : list Field) :
  forallb result_field fields = true ->
  List.incl (statuses_of fields) (stage_statuses stage) ->
  kept whole (confined stage documentId)
       (hset (document_key documentId) fields).
Proof.
  intros Hr Hs [H C S J L K F]. unfold whole.
  assert (Hstep : forall F',
    consumed (mkWorld H C S J L K F)
      (mkWorld (<[document_key documentId :=
                    fold_left set_field fields
                      (default empty_hash (H !! document_key documentId))]> H)
               C S (J ++ [HSET (document_key documentId) fields]) L K F') ->
    confined stage documentId (mkWorld H C S J L K F)
      (mkWorld (<[document_key documentId :=
                    fold_left set_field fields
                      (default empty_hash (H !! document_key documentId))]> H)
               C S (J ++ [HSET (document_key documentId) fields]) L K F')).
  { intros F' U. split; [|split; [|split]].
    - exists [HSET (document_key documentId) fields]. split; [reflexivity|].
      constructor; [|constructor]. simpl. auto.
    - split; [|split].
      + intros key Hd _. simpl. apply lookup_insert_ne. congruence.
      + reflexivity.
      + intros topic. exists []. symmetry. apply app_nil_r.
    - unfold record_kept, lookup_hash. simpl. rewrite lookup_insert_eq. simpl.
      apply set_fields_kept, Hr.
    - exact U. }
  destruct F as [|[m|] later]; unfold hset, call; simpl.
  - apply Hstep. exists []. reflexivity.
  - apply quiet_step; try reflexivity. exists [Some m]. reflexivity.
  - apply Hstep. exists [None]. reflexivity.
Qed.

Lemma confined_xadd (topic name value : string) :
  In topic (stage_topics stage) ->
  kept whole (confined stage documentId)
       (xadd topic ["documentId"; documentId; name; value]).
Proof.
  intros Ht [H C S J L K F]. unfold whole.
  set (entry := ["documentId"; documentId; name; value]).
  assert (Hstep : forall F',
    consumed (mkWorld H C S J L K F)
      (mkWorld H C (<[topic := default [] (S !! topic) ++ [entry]]> S)
               (J ++ [XADD topic entry]) L K F') ->
    confined stage documentId (mkWorld H C S J L K F)
      (mkWorld H C (<[topic := default [] (S !! topic) ++ [entry]]> S)
               (J ++ [XADD topic entry]) L K F')).
  { intros F' U. split; [|split; [|split]].
    - exists [XADD topic entry]. split; [reflexivity|].
      constructor; [|constructor]. simpl. split; [exact Ht|].
      exists name, value. reflexivity.
    - split; [|split]; try reflexivity.
      intros topic'. unfold lookup_stream. simpl.
      destruct (decide (topic = topic')) as [<-|Hne].
      + rewrite lookup_insert_eq. exists [entry]. reflexivity.
      + rewrite lookup_insert_ne by exact Hne. exists [].
        symmetry. apply app_nil_r.
    - unfold record_kept. repeat split; auto.
    - exact U. }
  destruct F as [|[m|] later]; unfold xadd, call; simpl.
  - apply Hstep. exists []. reflexivity.
  - apply quiet_step; try reflexivity. exists [Some m]. reflexivity.
  - apply Hstep. exists [None]. reflexivity.
Qed.

End ClientCalls.

Lemma confined_del (documentId : string) :
  kept whole (confined Persistence documentId) (del (content_key documentId)).
Proof.
  intros [H C S J L K F]. unfold whole.
  assert (Hstep : forall F',
    consumed (mkWorld H C S J L K F)
      (mkWorld (delete (content_key documentId) H)
               (delete (content_key documentId) C) S
               (J ++ [DEL (content_key documentId)]) L K F') ->
    confined Persistence documentId (mkWorld H C S J L K F)
      (mkWorld (delete (content_key documentId) H)
               (delete (content_key documentId) C) S
               (J ++ [DEL (content_key documentId)]) L K F')).
  { intros F' U. split; [|split; [|split]].
    - exists [DEL (content_key documentId)]. split; [reflexivity|].
      constructor; [|constructor]. simpl. auto.
    - split; [|split].
      + intros key _ Hc. simpl. apply lookup_delete_ne. congruence.
      + intros key Hc. simpl. apply lookup_delete_ne. congruence.
      + intros topic. exists []. symmetry. apply app_nil_r.
    - unfold record_kept, lookup_hash. simpl.
      rewrite (lookup_delete_ne _ _ _ (keys_apart documentId)).
      repeat split; auto.
    - exact U. }
  destruct F as [|[m|] later]; unfold del, call; simpl.
  - apply Hstep. exists []. reflexivity.
  - apply quiet_step; try reflexivity. exists [Some m]. reflexivity.
  - apply Hstep. exists [None]. reflexivity.
Qed.

(** ** What the handlers keep *)

(** Walks a computation along its structure, down to the calls. *)
Ltac walk refl trans leaf :=
  repeat first
    [ match goal with
      | |- kept _ _ (bind _ _) => apply (kept_bind _ _ trans); [|intro]
      | |- kept _ _ (try_catch _ _) =>
          apply (kept_try_catch _ _ trans); [|intro]
      | |- kept _ _ (ret _) => apply (kept_ret _ _ refl)
      | |- kept _ _ (throw _) => apply (kept_throw _ _ refl)
      | |- kept _ _ (io _) => apply kept_io
      | |- kept _ _ get_document => apply (kept_get_document _ refl)
      | |- kept _ _ (set_document _) => apply (kept_set_document _ refl)
      | |- kept _ _ (update_document _) => apply (kept_update_document _ refl)
      | |- kept _ _ (if ?b then _ else _) => destruct b
      | |- kept _ _ (match ?x with _ => _ end) => destruct x
      end
    | progress cbv zeta
    | leaf ].

Ltac confined_call :=
  first
    [ apply confined_hgetall
    | apply confined_getBuffer
    | apply confined_console_write
    | apply confined_now
    | apply confined_hset;
      [reflexivity | intros s Hs; simpl in Hs |- *; tauto]
    | apply confined_xadd; simpl; tauto
    | apply confined_del ].

Lemma handler_confined (stage : Stage) (documentId : string) :
  kept world (confined stage documentId)
       (handler (service_of stage) documentId).
Proof.
  destruct stage; unfold service_of, ocrService, validationService,
    persistenceService, handler.
  - unfold processDocumentForOCR.
    walk (confined_refl Recognition documentId)
         (confined_trans Recognition documentId) confined_call.
  - unfold processDocumentForValidation.
    walk (confined_refl ExtractionValidation documentId)
         (confined_trans ExtractionValidation documentId) confined_call.
  - unfold persistDocument.
    walk (confined_refl Persistence documentId)
         (confined_trans Persistence documentId) confined_call.
Qed.

Lemma run_stage_confined (stage : Stage) (documentId : string) (w : World) :
  confined stage documentId w (snd (run_stage stage documentId w)).
Proof.
  exact (kept_invoke _ _ (handler_confined stage documentId) w).
Qed.

(** ** What a handler lets escape *)

Lemma consumed_call {A : Type} (op : World -> A * World) :
  (forall w, faults (snd (op w)) = faults w) ->
  kept whole consumed (call op).
Proof.
  intros Hop [H C S J L K [|[m|] later]]; unfold whole, call, consumed, with_faults; simpl.
  - specialize (Hop (mkWorld H C S J L K [])).
    destruct (op (mkWorld H C S J L K [])) as [a w']. simpl in *.
    exists []. symmetry. exact Hop.
  - exists [Some m]. reflexivity.
  - specialize (Hop (mkWorld H C S J L K later)).
    destruct (op (mkWorld H C S J L K later)) as [a w']. simpl in *.
    exists [None]. simpl. congruence.
Qed.

Lemma consumed_console_write (l : Level) (args : list LogArg) :
  kept whole consumed (console_write l args).
Proof. intros w. exists []. reflexivity. Qed.

Lemma consumed_now : kept whole consumed now.
Proof. intros w. exists []. reflexivity. Qed.

Lemma handler_consumed (stage : Stage) (documentId : string) :
  kept world consumed (handler (service_of stage) documentId).
Proof.
  apply (kept_weaken _ (confined stage documentId)).
  - intros w w' (_ & _ & _ & U). exact U.
  - apply handler_confined.
Qed.

Ltac consumed_leaf :=
  first
    [ apply consumed_console_write
    | apply consumed_now
    | apply kept_invoke, handler_consumed
    | apply consumed_call; intros [? ? ? ? ? ? ?]; reflexivity ].

Ltac walk_consumed := walk consumed_refl consumed_trans consumed_leaf.

Section EscapeLaws.
Context {St : Type} (view : St -> World).

Lemma escapes_ret {A : Type} (a : A) : escapes view (ret a).
Proof. intros s e H. discriminate H. Qed.

Lemma escapes_bind {A B : Type} (c : Eff St A) (k : A -> Eff St B) :
  kept view consumed c -> escapes view c ->
  (forall a, escapes view (k a)) ->
  escapes view (bind c k).
Proof.
  intros Hc Ec Ek s e. unfold bind.
  specialize (Hc s). specialize (Ec s).
  destruct (c s) as [[a|e1] s1]; simpl in *.
  - intros Hk. destruct Hc as (u1 & E1).
    destruct (Ek a s1 e Hk) as (u2 & E2).
    exists (u1 ++ u2). rewrite E1, E2. apply app_assoc.
  - intros [= <-]. apply Ec. reflexivity.
Qed.

Lemma escapes_try_catch {A : Type} (body : Eff St A)
      (handler : string -> Eff St A) :
  kept view consumed body -> (forall e, escapes view (handler e)) ->
  escapes view (try_catch body handler).
Proof.
  intros Hb Eh s e. unfold try_catch. specialize (Hb s).
  destruct (body s) as [[a|e1] s1]; simpl in *.
  - intros H. discriminate H.
  - intros Hk. destruct Hb as (u1 & E1).
    destruct (Eh e1 s1 e Hk) as (u2 & E2).
    exists (u1 ++ u2). rewrite E1, E2. apply app_assoc.
Qed.

End EscapeLaws.

Lemma escapes_io {A : Type} (c : Eff World A) :
  escapes whole c -> escapes world (io c).
Proof.
  intros Hc f e. unfold io. specialize (Hc (world f) e). unfold whole in Hc.
  destruct (c (world f)) as [o w']. exact Hc.
Qed.

Lemma escapes_get_document : escapes world get_document.
Proof. intros f e H. discriminate H. Qed.

Lemma escapes_invoke (h : Eff Frame unit) :
  escapes world h -> escapes whole (invoke h).
Proof.
  intros Hh w e. unfold invoke, whole. specialize (Hh (mkFrame w None) e).
  destruct (h (mkFrame w None)) as [o f]. exact Hh.
Qed.

Lemma escapes_call {A : Type} (op : World -> A * World) :
  escapes whole (call op).
Proof.
  intros [H C S J L K [|[m|] later]] e; unfold whole, call, with_faults; simpl.
  - destruct (op (mkWorld H C S J L K [])) as [a w']. intros E. discriminate E.
  - intros [= <-]. exists []. reflexivity.
  - destruct (op (mkWorld H C S J L K later)) as [a w'].
    intros E. discriminate E.
Qed.

Lemma escapes_console_write (l : Level) (args : list LogArg) :
  escapes whole (console_write l args).
Proof. intros w e H. discriminate H. Qed.

Lemma escapes_now : escapes whole now.
Proof. intros w e H. discriminate H. Qed.

Lemma escapes_for_each {A : Type} (body : A -> Eff World unit) (l : list A) :
  (forall x, kept whole consumed (body x)) ->
  (forall x, escapes whole (body x)) ->
  escapes whole (for_each body l).
Proof.
  intros Hk He. induction l as [|x l IH]; simpl.
  - apply escapes_ret.
  - apply escapes_bind; auto.
Qed.

(** Walks a computation that raises nothing of its own. *)
Ltac walk_escapes leaf :=
  repeat first
    [ match goal with
      | |- escapes _ (bind _ _) =>
          apply escapes_bind; [walk_consumed | | intro]
      | |- escapes _ (ret _) => apply escapes_ret
      | |- escapes _ (io _) => apply escapes_io
      | |- escapes _ get_document => apply escapes_get_document
      | |- escapes _ (if ?b then _ else _) => destruct b
      | |- escapes _ (match ?x with _ => _ end) => destruct x
      end
    | progress cbv zeta
    | apply escapes_console_write
    | apply escapes_now
    | leaf
    | apply escapes_call ].

Lemma handler_escapes (stage : Stage) (documentId : string) :
  escapes world (handler (service_of stage) documentId).
Proof.
  destruct stage; unfold service_of, ocrService, validationService,
    persistenceService, handler.
  - unfold processDocumentForOCR.
    apply escapes_try_catch; [walk_consumed | intro; walk_escapes fail].
  - unfold processDocumentForValidation.
    apply escapes_try_catch; [walk_consumed | intro; walk_escapes fail].
  - unfold persistDocument.
    apply escapes_try_catch; [walk_consumed | intro; walk_escapes fail].
Qed.

Lemma reliable_returns {A : Type} (c : Eff World A) (w : World) :
  escapes whole c -> kept whole consumed c -> reliable w ->
  reliable (snd (c w)) /\ exists a, fst (c w) = Returned a.
Proof.
  intros He Hk Hrel. unfold reliable in *. split.
  - destruct (Hk w) as (used & E). unfold whole in E. rewrite Hrel in E.
    symmetry in E. apply app_eq_nil in E. tauto.
  - specialize (He w). destruct (fst (c w)) as [a|e]; [eauto|].
    destruct (He e eq_refl) as (used & E). unfold whole in E.
    rewrite Hrel in E. destruct used; discriminate E.
Qed.

(** ** Keys of different documents *)

Lemma document_key_inj (a b : string) :
  document_key a = document_key b -> a = b.
Proof. unfold document_key. simpl. intros E. injection E. auto. Qed.

Lemma content_key_inj (a b : string) :
  content_key a = content_key b -> a = b.
Proof. unfold content_key. simpl. intros E. injection E. auto. Qed.

Lemma keys_of_two_apart (a b : string) : document_key a <> content_key b.
Proof.
  unfold content_key, document_key. simpl. intros E. injection E. discriminate.
Qed.

(** ** What a list of commands of a handler holds *)

Lemma statuses_of_app (a b : list Field) :
  statuses_of (a ++ b) = statuses_of a ++ statuses_of b.
Proof. apply flat_map_app. Qed.

Lemma fields_written_cons (key k : string) (fields : list Field)
      (cmds : list Command) :
  fields_written key (HSET k fields :: cmds)
  = (if String.eqb k key then fields else []) ++ fields_written key cmds.
Proof. reflexivity. Qed.

Lemma emitted_cons (topic t : string) (entry : list string)
      (cmds : list Command) :
  emitted topic (XADD t entry :: cmds)
  = (if String.eqb t topic then [entry] else []) ++ emitted topic cmds.
Proof. reflexivity. Qed.

Lemma own_status_writes (stage : Stage) (documentId : string)
      (cmds : list Command) :
  Forall (own_command stage documentId) cmds ->
  List.incl (status_writes (document_key documentId) cmds)
            (stage_statuses stage).
Proof.
  unfold status_writes. induction 1 as [|c l Hc Hl IH].
  - intros s Hs. destruct Hs.
  - destruct c as [key fields| | |]; try exact IH.
    destruct Hc as (-> & _ & Hs).
    rewrite fields_written_hset, statuses_of_app.
    apply List.incl_app; assumption.
Qed.

Lemma own_fields_written (stage : Stage) (documentId : string)
      (cmds : list Command) (key : string) :
  Forall (own_command stage documentId) cmds ->
  key <> document_key documentId -> fields_written key cmds = [].
Proof.
  intros Hown Hne. induction Hown as [|c l Hc Hl IH]; [reflexivity|].
  destruct c as [k fields| | |]; try exact IH.
  destruct Hc as (-> & _). rewrite fields_written_cons, IH.
  destruct (String.eqb_spec (document_key documentId) key) as [E|_];
    [congruence | reflexivity].
Qed.

Lemma own_emitted (stage : Stage) (documentId : string)
      (cmds : list Command) (topic : string) :
  Forall (own_command stage documentId) cmds ->
  ~ In topic (stage_topics stage) -> emitted topic cmds = [].
Proof.
  intros Hown Hne. induction Hown as [|c l Hc Hl IH]; [reflexivity|].
  destruct c as [|  |t entry|]; try exact IH.
  destruct Hc as (Ht & _). rewrite emitted_cons, IH.
  destruct (String.eqb_spec t topic) as [E|_]; [|reflexivity].
  subst t. contradiction.
Qed.

Lemma own_deleted (stage : Stage) (documentId : string)
      (cmds : list Command) :
  Forall (own_command stage documentId) cmds ->
  List.incl (deleted cmds)
            (match stage with
             | Persistence => [content_key documentId]
             | _ => []
             end).
Proof.
  induction 1 as [|c l Hc Hl IH].
  - intros s Hs. destruct Hs.
  - destruct c as [|key| |]; try exact IH.
    destruct Hc as (-> & ->). intros k [<-|Hk]; [now left | apply IH, Hk].
Qed.

Lemma own_acknowledged (stage : Stage) (documentId : string)
      (cmds : list Command) :
  Forall (own_command stage documentId) cmds -> acknowledged cmds = [].
Proof.
  induction 1 as [|c l Hc Hl IH]; [reflexivity|].
  destruct c; try exact IH. destruct Hc.
Qed.

(** X8. Whatever the client does (any call may raise, at any point), the
    commands a handler issues are its own: it writes only to the record
    of its document, only result fields, and only status values of its
    stage; it appends only to the topics of its stage; only the
    persistence handler deletes, and only the payload of its document;
    it acknowledges nothing. *)
Theorem handler_commands_are_its_own (stage : Stage) (documentId : string)
        (w : World) :
  let cmds := performed w (snd (run_stage stage documentId w)) in
  Forall (own_command stage documentId) cmds
  /\ List.incl (status_writes (document_key documentId) cmds)
               (stage_statuses stage)
  /\ (forall key, key <> document_key documentId ->
                  fields_written key cmds = [])
  /\ (forall topic, ~ In topic (stage_topics stage) -> emitted topic cmds = [])
  /\ List.incl (deleted cmds)
               (match stage with
                | Persistence => [content_key documentId]
                | _ => []
                end)
  /\ acknowledged cmds = [].
Proof.
  intros cmds.
  destruct (run_stage_confined stage documentId w) as ((l & E & Hown) & _).
  assert (Hc : cmds = l) by (apply performed_app; exact E).
  rewrite Hc. split; [exact Hown|].
  split; [apply own_status_writes; exact Hown|].
  split; [intros key; apply (own_fields_written stage); exact Hown|].
  split; [intros topic; apply (own_emitted stage documentId); exact Hown|].
  split; [apply own_deleted; exact Hown|].
  apply (own_acknowledged stage documentId). exact Hown.
Qed.

(** X9. Whatever the client does, a handler leaves the records and
    payloads of other documents as they are, keeps the entries of every
    topic (it only appends), does not remove the record of its own
    document and leaves its [id], [filename] and [createdAt] alone. *)
Theorem handler_leaves_the_rest_alone (stage : Stage) (documentId : string)
        (w : World) :
  let w' := snd (run_stage stage documentId w) in
  let h := lookup_hash (document_key documentId) w in
  let h' := lookup_hash (document_key documentId) w' in
  (forall other, other <> documentId ->
     hashes w' !! document_key other = hashes w !! document_key other
     /\ contents w' !! content_key other = contents w !! content_key other)
  /\ (forall topic, lookup_stream topic w `prefix_of` lookup_stream topic w')
  /\ (record_exists documentId w -> record_exists documentId w')
  /\ h_id h' = h_id h
  /\ h_filename h' = h_filename h
  /\ h_createdAt h' = h_createdAt h.
Proof.
  intros w' h h'.
  destruct (run_stage_confined stage documentId w)
    as (_ & (HH & HC & HS) & (HI & HF & HT & HE) & _).
  fold w' in HH, HC, HS, HI, HF, HT, HE.
  split; [|split; [exact HS|]]; [|repeat split; assumption].
  intros other Hne. split.
  - apply HH.
    + intros E. apply Hne, document_key_inj, E.
    + apply keys_of_two_apart.
  - apply HC. intros E. apply Hne, content_key_inj, E.
Qed.

(** X10. An exception that leaves a handler is one the client raised:
    the failures the handler raises itself (payload or recognized text
    missing) are caught inside.  So with a client that never raises the
    handler returns, whatever the record holds. *)
Theorem handler_raises_only_what_the_client_raised (stage : Stage)
        (documentId : string) (w : World) (e : string) :
  fst (run_stage stage documentId w) = Thrown e ->
  (exists used,
      faults w = used ++ Some e :: faults (snd (run_stage stage documentId w)))
  /\ ~ reliable w.
Proof.
  intros H.
  destruct (escapes_invoke _ (handler_escapes stage documentId) w e H)
    as (used & E).
  split; [exists used; exact E|].
  unfold reliable. unfold whole in E. rewrite E.
  destruct used; discriminate.
Qed.

Lemma handler_raises_only_what_the_client_raised_witness :
  let w := world_of (record_of UPLOADED None) None
                    [None; None; Some "EPIPE"] in
  fst (run_stage Recognition "doc-1" w) = Thrown "EPIPE"
  /\ ~ reliable w.
Proof.
  assert (H : fst (run_stage Recognition "doc-1"
                     (world_of (record_of UPLOADED None) None
                               [None; None; Some "EPIPE"]))
              = Thrown "EPIPE") by (vm_compute; reflexivity).
  split; [exact H|].
  exact (proj2 (handler_raises_only_what_the_client_raised
                  Recognition "doc-1" _ "EPIPE" H)).
Defined.

(** ** The loops *)

Lemma indexOf_first (pre post : list string) (x : string) :
  ~ In x pre ->
  indexOf (pre ++ x :: post) x = Z.of_nat (List.length pre).
Proof.
  induction pre as [|y pre IH]; intros Hn.
  - simpl. rewrite String.eqb_refl. reflexivity.
  - change (indexOf ((y :: pre) ++ x :: post) x)
      with (if String.eqb y x then 0%Z
            else match indexOf (pre ++ x :: post) x with
                 | Zneg _ => (-1)%Z
                 | i => (i + 1)%Z
                 end).
    destruct (String.eqb_spec y x) as [->|Hne].
    + exfalso. apply Hn. now left.
    + rewrite IH by (intros Hin; apply Hn; now right).
      simpl List.length. destruct (List.length pre); simpl; lia.
Qed.

Lemma element_after (pre post : list string) (x : string) :
  element (pre ++ x :: post) (Z.of_nat (List.length pre) + 1)
  = nth_error post 0.
Proof.
  unfold element.
  replace (Z.of_nat (List.length pre) + 1)%Z
    with (Z.of_nat (S (List.length pre))) by lia.
  destruct (Z.ltb_spec (Z.of_nat (S (List.length pre))) 0) as [Hlt|_]; [lia|].
  rewrite Nat2Z.id.
  change (S (List.length pre)) with (1 + List.length pre)%nat.
  induction pre as [|y pre IH]; [reflexivity | exact IH].
Qed.

(** X11. The loop reads the identifier that follows the first element
    [documentId] of the entry: when that element is followed by a text
    that is not empty, the handler is called on it and the entry is then
    acknowledged; when it is the last element, or is followed by the
    empty text, the entry is acknowledged without calling the handler. *)
Theorem loop_reads_what_follows_first_documentId (s : Service)
        (messageId : string) (pre post : list string) (w : World) :
  ~ In "documentId" pre ->
  let message := (messageId, pre ++ "documentId" :: post) in
  handleMessage s message w
  = match post with
    | documentId :: _ =>
        if String.eqb documentId "" then skip_and_ack s message w
        else handle_and_ack s message documentId w
    | [] => skip_and_ack s message w
    end.
Proof.
  intros Hn message. unfold handleMessage, skip_and_ack, handle_and_ack.
  subst message. cbn [fst snd].
  rewrite (indexOf_first pre post "documentId" Hn).
  replace (negb (Z.of_nat (List.length pre) =? -1)%Z) with true
    by (symmetry; apply negb_true_iff, Z.eqb_neq; lia).
  rewrite element_after.
  destruct post as [|documentId post]; [reflexivity|].
  cbn [nth_error]. unfold truthy.
  destruct (String.eqb_spec documentId "") as [->|Hne]; [reflexivity|].
  destruct documentId; [congruence | reflexivity].
Qed.

Lemma loop_reads_what_follows_first_documentId_witness :
  handleMessage persistenceService
                ("1-0", ["status"; "VALIDATED"; "documentId"; "doc-1"])
                validated_world
  = handle_and_ack persistenceService
                   ("1-0", ["status"; "VALIDATED"; "documentId"; "doc-1"])
                   "doc-1" validated_world.
Proof.
  refine (loop_reads_what_follows_first_documentId persistenceService
            "1-0" ["status"; "VALIDATED"] ["doc-1"] validated_world _).
  simpl. intros [H|[H|[]]]; discriminate H.
Defined.

(** ** What a loop keeps *)

Section LoopCalls.
Variable stage : Stage.

Lemma loop_console_write (l : Level) (args : list LogArg) :
  kept whole (loop_confined stage) (console_write l args).
Proof.
  intros w. apply quiet_loop_step; [reflexivity|]. exists []. reflexivity.
Qed.

Lemma loop_xreadgroup {R : Type} (reply : R) :
  kept whole (loop_confined stage) (xreadgroup reply).
Proof.
  intros [H C S J L K [|[m|] later]]; unfold whole, xreadgroup, call; simpl;
    apply quiet_loop_step; try reflexivity.
  - exists []. reflexivity.
  - exists [Some m]. reflexivity.
  - exists [None]. reflexivity.
Qed.

Lemma loop_xack (messageId : string) :
  kept whole (loop_confined stage)
       (xack (STREAM_KEY (service_of stage)) (GROUP_NAME (service_of stage))
             messageId).
Proof.
  intros [H C S J L K F]. unfold whole.
  set (c := XACK (STREAM_KEY (service_of stage))
                 (GROUP_NAME (service_of stage)) messageId).
  assert (Hstep : forall F',
    consumed (mkWorld H C S J L K F) (mkWorld H C S (J ++ [c]) L K F') ->
    loop_confined stage (mkWorld H C S J L K F)
                  (mkWorld H C S (J ++ [c]) L K F')).
  { intros F' U. split; [|exact U]. exists [c]. split; [reflexivity|].
    constructor; [|constructor]. right. exists messageId. reflexivity. }
  destruct F as [|[m|] later]; unfold xack, call; simpl.
  - apply Hstep. exists []. reflexivity.
  - apply quiet_loop_step; [reflexivity|]. exists [Some m]. reflexivity.
  - apply Hstep. exists [None]. reflexivity.
Qed.

Lemma loop_invoke (documentId : string) :
  kept whole (loop_confined stage)
       (invoke (handler (service_of stage) documentId)).
Proof.
  apply (kept_weaken _ (confined stage documentId)).
  - apply confined_in_loop.
  - apply kept_invoke, handler_confined.
Qed.

End LoopCalls.

Ltac loop_call :=
  first
    [ apply loop_console_write
    | apply loop_xreadgroup
    | apply loop_xack
    | apply loop_invoke ].

Lemma handleMessage_confined (stage : Stage) (message : string * list string) :
  kept whole (loop_confined stage) (handleMessage (service_of stage) message).
Proof.
  unfold handleMessage.
  walk (loop_confined_refl stage) (loop_confined_trans stage) loop_call.
Qed.

Lemma turn_confined (stage : Stage) (reply : Reply) :
  kept whole (loop_confined stage) (turn (service_of stage) reply).
Proof.
  unfold turn.
  apply (kept_try_catch _ _ (loop_confined_trans stage));
    [|intro; apply loop_console_write].
  apply (kept_bind _ _ (loop_confined_trans stage));
    [apply loop_xreadgroup | intros [[|stream more]|]];
    try apply (kept_ret _ _ (loop_confined_refl stage)).
  apply (kept_for_each _ (loop_confined_refl stage)
                       (loop_confined_trans stage)).
  intros x.
  apply (kept_for_each _ (loop_confined_refl stage)
                       (loop_confined_trans stage)).
  apply handleMessage_confined.
Qed.

Lemma turn_returns (s : Service) (reply : Reply) (w : World) :
  fst (turn s reply w) = Returned tt.
Proof.
  unfold turn, try_catch.
  match goal with
  | |- context [match ?body w with _ => _ end] =>
      destruct (body w) as [[[]|e] w1]
  end; reflexivity.
Qed.

Lemma run_returns (s : Service) (replies : list Reply) (w : World) :
  fst (run s replies w) = Returned tt.
Proof.
  unfold run. revert w. induction replies as [|reply replies IH]; intros w.
  - reflexivity.
  - simpl. unfold bind. pose proof (turn_returns s reply w) as Ht.
    destruct (turn s reply w) as [[[]|e] w1]; simpl in Ht; [|discriminate Ht].
    apply IH.
Qed.

(** X12. A loop never ends with an exception, whatever the broker
    replies and whatever call raises; and all it does to the store and
    the broker, over any number of turns, are commands of the handler of
    its stage (for some document) and acknowledgements on its own topic
    and group. *)
Theorem loop_survives_and_stays_in_its_stage (stage : Stage)
        (replies : list Reply) (w : World) :
  let r := run (service_of stage) replies w in
  fst r = Returned tt
  /\ Forall (loop_command stage) (performed w (snd r)).
Proof.
  intros r. split; [apply run_returns|].
  assert (Hk : kept whole (loop_confined stage)
                    (run (service_of stage) replies)).
  { unfold run.
    apply (kept_for_each _ (loop_confined_refl stage)
                         (loop_confined_trans stage)).
    intros reply. apply turn_confined. }
  destruct (Hk w) as ((cmds & E & Hc) & _). unfold whole in E.
  subst r. rewrite (performed_app _ _ _ E). exact Hc.
Qed.

(** ** What a loop acknowledges *)

Lemma acknowledged_app (a b : list Command) :
  acknowledged (a ++ b) = acknowledged a ++ acknowledged b.
Proof. apply flat_map_app. Qed.

Lemma acknowledges_ret {A : Type} (a : A) : acknowledges [] (ret a).
Proof.
  intros w. exists []. split; [symmetry; apply app_nil_r | reflexivity].
Qed.

Lemma acknowledges_quiet {A : Type} (c : Eff World A) :
  (forall w, journal (snd (c w)) = journal w) -> acknowledges [] c.
Proof.
  intros Hq w. exists []. split; [rewrite Hq; symmetry; apply app_nil_r|].
  destruct (fst (c w)); [reflexivity | apply prefix_nil].
Qed.

Lemma acknowledges_bind {A B : Type} (l1 l2 : list (string * string * string))
      (c : Eff World A) (k : A -> Eff World B) :
  acknowledges l1 c -> (forall a, acknowledges l2 (k a)) ->
  acknowledges (l1 ++ l2) (bind c k).
Proof.
  intros Hc Hk w. unfold bind. destruct (Hc w) as (cmds1 & E1 & A1).
  destruct (c w) as [[a|e] w1]; simpl in *.
  - destruct (Hk a w1) as (cmds2 & E2 & A2). exists (cmds1 ++ cmds2). split.
    + rewrite E2, E1. symmetry. apply app_assoc.
    + rewrite acknowledged_app, A1.
      destruct (fst (k a w1)); [rewrite A2; reflexivity|].
      apply prefix_app, A2.
  - exists cmds1. split; [exact E1|]. apply prefix_app_r, A1.
Qed.

Lemma acknowledges_after {A B : Type} (l : list (string * string * string))
      (c : Eff World A) (k : A -> Eff World B) :
  acknowledges [] c -> (forall a, acknowledges l (k a)) ->
  acknowledges l (bind c k).
Proof. intros Hc Hk. exact (acknowledges_bind [] l c k Hc Hk). Qed.

Lemma acknowledges_before {A B : Type} (l : list (string * string * string))
      (c : Eff World A) (k : A -> Eff World B) :
  acknowledges l c -> (forall a, acknowledges [] (k a)) ->
  acknowledges l (bind c k).
Proof.
  intros Hc Hk. rewrite <- (app_nil_r l). apply acknowledges_bind; assumption.
Qed.

Lemma acknowledges_console_write (l : Level) (args : list LogArg) :
  acknowledges [] (console_write l args).
Proof. apply acknowledges_quiet. reflexivity. Qed.

Lemma acknowledges_xack (topic group messageId : string) :
  acknowledges [(topic, group, messageId)] (xack topic group messageId).
Proof.
  intros [H C S J L K [|[m|] later]]; unfold xack, call; simpl.
  - exists [XACK topic group messageId]. split; reflexivity.
  - exists []. split; [symmetry; apply app_nil_r | apply prefix_nil].
  - exists [XACK topic group messageId]. split; reflexivity.
Qed.

Lemma acknowledges_invoke (stage : Stage) (documentId : string) :
  acknowledges [] (invoke (handler (service_of stage) documentId)).
Proof.
  intros w.
  destruct (run_stage_confined stage documentId w) as ((cmds & E & Hown) & _).
  exists cmds. split; [exact E|].
  rewrite (own_acknowledged _ _ _ Hown).
  destruct (fst _); [reflexivity | apply prefix_nil].
Qed.

Lemma acknowledges_handleMessage (stage : Stage)
      (message : string * list string) :
  acknowledges [ack_of (service_of stage) message]
               (handleMessage (service_of stage) message).
Proof.
  unfold handleMessage, ack_of. apply acknowledges_after.
  - destruct (logs_data (service_of stage));
      [apply acknowledges_console_write | apply acknowledges_ret].
  - intros _. cbv zeta. destruct (truthy _).
    + apply acknowledges_after; [apply acknowledges_console_write | intros _].
      apply acknowledges_after; [apply acknowledges_invoke | intros _].
      apply acknowledges_before; [apply acknowledges_xack | intros _].
      apply acknowledges_console_write.
    + apply acknowledges_after; [apply acknowledges_console_write | intros _].
      apply acknowledges_xack.
Qed.

Lemma acknowledges_for_each {A : Type}
      (g : A -> list (string * string * string))
      (body : A -> Eff World unit) (l : list A) :
  (forall x, acknowledges (g x) (body x)) ->
  acknowledges (flat_map g l) (for_each body l).
Proof.
  intros Hb. induction l as [|x l IH]; simpl.
  - apply acknowledges_ret.
  - apply acknowledges_bind; auto.
Qed.

Lemma acknowledges_read {B : Type} (l : list (string * string * string))
      (reply : Reply) (k : Reply -> Eff World B) :
  acknowledges l (k reply) -> acknowledges l (bind (xreadgroup reply) k).
Proof.
  intros Hk [H C S J L K [|[m|] later]];
    unfold bind, xreadgroup, call, with_faults; simpl.
  - apply Hk.
  - exists []. split; [symmetry; apply app_nil_r | apply prefix_nil].
  - apply (Hk (mkWorld H C S J L K later)).
Qed.

Lemma flat_map_single {A B : Type} (f : A -> B) (l : list A) :
  flat_map (fun x => [f x]) l = map f l.
Proof. induction l as [|x l IH]; simpl; congruence. Qed.

Lemma map_entries {A B C : Type} (f : B -> C) (streams : list (A * list B)) :
  flat_map (fun stream => map f (snd stream)) streams
  = map f (flat_map snd streams).
Proof.
  induction streams as [|x l IH]; simpl; [reflexivity|].
  rewrite map_app, IH. reflexivity.
Qed.

(** The body of the [try] of a turn. *)
Lemma turn_body_acknowledges (stage : Stage) (reply : Reply) :
  acknowledges (map (ack_of (service_of stage)) (entries_of reply))
    (bind (xreadgroup reply)
       (fun messages =>
          match messages with
          | Some (stream :: more) =>
              for_each (fun stream =>
                          for_each (handleMessage (service_of stage))
                                   (snd stream))
                       (stream :: more)
          | _ => ret tt
          end)).
Proof.
  apply acknowledges_read. destruct reply as [[|stream more]|];
    try apply acknowledges_ret.
  unfold entries_of. rewrite <- map_entries.
  apply acknowledges_for_each. intros x. rewrite <- flat_map_single.
  apply acknowledges_for_each. intros message.
  apply acknowledges_handleMessage.
Qed.

Lemma turn_acknowledges_prefix (stage : Stage) (reply : Reply) (w : World) :
  acknowledged (performed w (snd (turn (service_of stage) reply w)))
  `prefix_of` map (ack_of (service_of stage)) (entries_of reply).
Proof.
  unfold turn, try_catch.
  destruct (turn_body_acknowledges stage reply w) as (cmds & E & Hc).
  match type of E with
  | journal (snd (?body w)) = _ => destruct (body w) as [[[]|e] w1]
  end; simpl in E, Hc |- *.
  - rewrite (performed_app _ _ _ E), Hc. reflexivity.
  - rewrite (performed_app w _ cmds); [exact Hc | exact E].
Qed.

(** *** The acknowledgement comes last *)

Lemma acknowledges_last_xack (topic group messageId : string) :
  acknowledges_last (XACK topic group messageId) (xack topic group messageId).
Proof.
  intros [H C S J L K [|[m|] later]]; unfold xack, call; simpl.
  - exists [XACK topic group messageId]. split; [reflexivity|].
    exists []. split; reflexivity.
  - exists []. split; [symmetry; apply app_nil_r | reflexivity].
  - exists [XACK topic group messageId]. split; [reflexivity|].
    exists []. split; reflexivity.
Qed.

Lemma acknowledges_last_after {A B : Type} (ack : Command)
      (c : Eff World A) (k : A -> Eff World B) :
  acknowledges [] c -> (forall a, acknowledges_last ack (k a)) ->
  acknowledges_last ack (bind c k).
Proof.
  intros Hc Hk w. unfold bind. destruct (Hc w) as (cmds1 & E1 & A1).
  assert (A0 : acknowledged cmds1 = []).
  { destruct (fst (c w)); [exact A1 | apply prefix_nil_inv, A1]. }
  clear A1. destruct (c w) as [[a|e] w1]; simpl in *.
  - destruct (Hk a w1) as (cmds2 & E2 & A2). exists (cmds1 ++ cmds2). split.
    + rewrite E2, E1. symmetry. apply app_assoc.
    + destruct (fst (k a w1)).
      * destruct A2 as (before & -> & A2). exists (cmds1 ++ before). split.
        -- apply app_assoc.
        -- rewrite acknowledged_app, A0, A2. reflexivity.
      * rewrite acknowledged_app, A0, A2. reflexivity.
  - exists cmds1. split; [exact E1 | exact A0].
Qed.

Lemma acknowledges_last_logged {A : Type} (ack : Command) (c : Eff World A)
      (l : Level) (args : list LogArg) :
  acknowledges_last ack c ->
  acknowledges_last ack (bind c (fun _ => console_write l args)).
Proof.
  intros Hc w. unfold bind. destruct (Hc w) as (cmds & E & Hcmds).
  destruct (c w) as [[a|e] w1]; simpl in *; exists cmds; split; assumption.
Qed.

Lemma handleMessage_acknowledges_last (stage : Stage)
      (message : string * list string) :
  acknowledges_last
    (XACK (STREAM_KEY (service_of stage)) (GROUP_NAME (service_of stage))
          (fst message))
    (handleMessage (service_of stage) message).
Proof.
  unfold handleMessage. apply acknowledges_last_after.
  - destruct (logs_data (service_of stage));
      [apply acknowledges_console_write | apply acknowledges_ret].
  - intros _. cbv zeta. destruct (truthy _).
    + apply acknowledges_last_after;
        [apply acknowledges_console_write | intros _].
      apply acknowledges_last_after; [apply acknowledges_invoke | intros _].
      apply acknowledges_last_logged, acknowledges_last_xack.
    + apply acknowledges_last_after;
        [apply acknowledges_console_write | intros _].
      apply acknowledges_last_xack.
Qed.

(** *** The entries handled, and those acknowledged *)

Lemma for_each_app {A : Type} (body : A -> Eff World unit) (l1 l2 : list A)
      (w : World) :
  for_each body (l1 ++ l2) w
  = bind (for_each body l1) (fun _ => for_each body l2) w.
Proof.
  revert w. induction l1 as [|x l1 IH]; intros w; [reflexivity|].
  simpl. unfold bind.
  destruct (body x w) as [[[]|e] w1]; [|reflexivity].
  rewrite IH. reflexivity.
Qed.

Lemma for_each_streams {A B : Type} (body : B -> Eff World unit)
      (streams : list (A * list B)) (w : World) :
  for_each (fun stream => for_each body (snd stream)) streams w
  = for_each body (flat_map snd streams) w.
Proof.
  revert w. induction streams as [|x l IH]; intros w; [reflexivity|].
  simpl. rewrite for_each_app. unfold bind.
  destruct (for_each body (snd x) w) as [[[]|e] w1]; [|reflexivity].
  apply IH.
Qed.

Lemma for_each_handled (stage : Stage) (entries : list (string * list string))
      (w : World) :
  exists cmds,
    journal (snd (for_each (handleMessage (service_of stage)) entries w))
    = journal w ++ cmds
    /\ acknowledged cmds
       = map (ack_of (service_of stage))
             (handled (service_of stage) entries w).
Proof.
  revert w. induction entries as [|message later IH]; intros w.
  - exists []. split; [symmetry; apply app_nil_r | reflexivity].
  - simpl for_each. simpl handled. unfold bind.
    destruct (handleMessage_acknowledges_last stage message w)
      as (cmds1 & E1 & A1).
    destruct (handleMessage (service_of stage) message w) as [[[]|e] w1];
      simpl in E1, A1 |- *.
    + destruct A1 as (before & -> & A1).
      destruct (IH w1) as (cmds2 & E2 & A2).
      exists ((before
               ++ [XACK (STREAM_KEY (service_of stage))
                        (GROUP_NAME (service_of stage)) (fst message)])
              ++ cmds2).
      split; [rewrite E2, E1; symmetry; apply app_assoc|].
      rewrite !acknowledged_app, A1, A2. reflexivity.
    + exists cmds1. split; [exact E1 | exact A1].
Qed.

(** A turn, once the read returned, goes through the entries of the
    reply; its [catch] block only logs. *)
Lemma turn_after_read (s : Service) (reply : Reply) (w : World) :
  match xreadgroup reply w with
  | (Returned _, w1) =>
      journal w1 = journal w
      /\ journal (snd (turn s reply w))
         = journal (snd (for_each (handleMessage s) (entries_of reply) w1))
  | (Thrown _, _) => journal (snd (turn s reply w)) = journal w
  end.
Proof.
  assert (Hgo : forall w1,
    journal (snd (try_catch
                    (match reply with
                     | Some (stream :: more) =>
                         for_each (fun stream =>
                                     for_each (handleMessage s) (snd stream))
                                  (stream :: more)
                     | _ => ret tt
                     end)
                    (fun error =>
                       console_write ERROR
                         [Str (tag s); Str " Error in main processing loop:";
                          Str error]) w1))
    = journal (snd (for_each (handleMessage s) (entries_of reply) w1))).
  { intros w1. unfold try_catch.
    destruct reply as [[|stream more]|]; try reflexivity.
    rewrite for_each_streams. unfold entries_of.
    destruct (for_each (handleMessage s) (flat_map snd (stream :: more)) w1)
      as [[[]|e] w2]; reflexivity. }
  destruct w as [H C S J L K [|[m|] later]];
    unfold turn, xreadgroup, call, with_faults; simpl.
  - split; [reflexivity|]. apply (Hgo (mkWorld H C S J L K [])).
  - reflexivity.
  - split; [reflexivity|]. apply (Hgo (mkWorld H C S J L K later)).
Qed.

(** *** An entry whose handler raises *)

Lemma handleMessage_with_id (s : Service) (messageId documentId : string)
      (pre post : list string) (w : World) :
  ~ In "documentId" pre -> documentId <> "" ->
  handleMessage s (messageId, pre ++ "documentId" :: documentId :: post) w
  = bind (announce s (messageId, pre ++ "documentId" :: documentId :: post)
                   documentId)
         (fun _ =>
            invoke (handler s documentId) ;;
            xack (STREAM_KEY s) (GROUP_NAME s) messageId ;;
            console_write LOG [Str (tag s); Str " Message ID "; Str messageId;
                               Str " acknowledged for document ";
                               Str documentId; Str "."]) w.
Proof.
  intros Hn Hne. unfold handleMessage, announce. cbn [fst snd].
  rewrite (indexOf_first pre (documentId :: post) "documentId" Hn).
  replace (negb (Z.of_nat (List.length pre) =? -1)%Z) with true
    by (symmetry; apply negb_true_iff, Z.eqb_neq; lia).
  rewrite element_after. cbn [nth_error]. unfold truthy.
  destruct (String.eqb_spec documentId "") as [E|_]; [contradiction|].
  cbn [negb default from_option]. unfold bind.
  destruct (logs_data s); reflexivity.
Qed.

(** X13. Whatever call raises, the entries a turn of a loop acknowledges
    are the entries of the reply handled to the end before the first
    whose handling raised: a front part of the entries of the reply, in
    their order, each once, on the topic and for the group of the loop.
    The acknowledgement of an entry is the last command of its handling,
    after all the handler did; when the handling of an entry raises, the
    handler or the acknowledgement itself, the entry is not acknowledged,
    and neither is a later one of the reply.  In particular an entry
    whose handler raises is not acknowledged. *)
Theorem turn_acknowledges_the_entries_handled (stage : Stage) (reply : Reply)
        (w : World) :
  let s := service_of stage in
  let acks := acknowledged (performed w (snd (turn s reply w))) in
  acks `prefix_of` map (ack_of s) (entries_of reply)
  /\ match xreadgroup reply w with
     | (Returned _, w1) =>
         acks = map (ack_of s) (handled s (entries_of reply) w1)
     | (Thrown _, _) => acks = []
     end
  /\ (forall message w1,
        let r := handleMessage s message w1 in
        match fst r with
        | Returned _ =>
            exists before,
              performed w1 (snd r)
              = before ++ [XACK (STREAM_KEY s) (GROUP_NAME s) (fst message)]
              /\ acknowledged before = []
        | Thrown _ => acknowledged (performed w1 (snd r)) = []
        end)
  /\ (forall messageId pre post documentId w1 e,
        ~ In "documentId" pre -> documentId <> "" ->
        let message := (messageId, pre ++ "documentId" :: documentId :: post) in
        fst (invoke (handler s documentId)
                    (snd (announce s message documentId w1))) = Thrown e ->
        fst (handleMessage s message w1) = Thrown e
        /\ acknowledged (performed w1 (snd (handleMessage s message w1))) = []).
Proof.
  intros s acks.
  assert (Hentry : forall message w1,
            let r := handleMessage s message w1 in
            match fst r with
            | Returned _ =>
                exists before,
                  performed w1 (snd r)
                  = before ++ [XACK (STREAM_KEY s) (GROUP_NAME s) (fst message)]
                  /\ acknowledged before = []
            | Thrown _ => acknowledged (performed w1 (snd r)) = []
            end).
  { intros message w1 r. subst r s.
    destruct (handleMessage_acknowledges_last stage message w1)
      as (cmds & E & A).
    rewrite (performed_app _ _ _ E). exact A. }
  split; [apply turn_acknowledges_prefix|].
  split; [|split; [exact Hentry|]].
  - subst acks. pose proof (turn_after_read s reply w) as Hturn.
    destruct (xreadgroup reply w) as [[a|e] w1].
    + destruct Hturn as (E1 & E2).
      destruct (for_each_handled stage (entries_of reply) w1)
        as (cmds & E & A).
      fold s in E, A. rewrite E, E1 in E2.
      rewrite (performed_app _ _ _ E2). exact A.
    + rewrite (performed_same _ _ Hturn). reflexivity.
  - intros messageId pre post documentId w1 e Hn Hne message Hraise.
    assert (Hout : fst (handleMessage s message w1) = Thrown e).
    { subst message. rewrite (handleMessage_with_id s _ _ _ _ w1 Hn Hne).
      unfold bind at 1.
      destruct (announce s (messageId, pre ++ "documentId" :: documentId :: post)
                         documentId w1) as [[[]|e0] w0] eqn:Ea.
      - simpl in Hraise. unfold bind.
        destruct (invoke (handler s documentId) w0) as [[[]|e1] w2];
          simpl in Hraise |- *; congruence.
      - exfalso. revert Ea. unfold announce, bind, console_write, ret.
        destruct (logs_data s); discriminate. }
    split; [exact Hout|].
    pose proof (Hentry message w1) as He. cbv zeta in He.
    rewrite Hout in He. exact He.
Qed.

Lemma turn_acknowledges_the_entries_handled_witness :
  let w := world_of (record_of VALIDATED None) (Some pdf)
                    [None; Some "ETIMEDOUT"; Some "EPIPE"] in
  let message := ("1-0", ["documentId"; "doc-1"]) in
  fst (handleMessage persistenceService message w) = Thrown "EPIPE"
  /\ acknowledged (performed w (snd (handleMessage persistenceService message w)))
     = [].
Proof.
  intros w message.
  destruct (turn_acknowledges_the_entries_handled Persistence None w)
    as (_ & _ & _ & H).
  refine (H "1-0" [] [] "doc-1" w "EPIPE" _ _ _).
  - intros [].
  - discriminate.
  - vm_compute. reflexivity.
Defined.

(** ** A loop whose client never raises *)

Lemma handleMessage_consumed (stage : Stage) (message : string * list string) :
  kept whole consumed (handleMessage (service_of stage) message).
Proof. unfold handleMessage. walk_consumed. Qed.

Lemma handleMessage_escapes (stage : Stage) (message : string * list string) :
  escapes whole (handleMessage (service_of stage) message).
Proof.
  unfold handleMessage.
  walk_escapes ltac:(apply escapes_invoke, handler_escapes).
Qed.

Lemma turn_reliable (stage : Stage) (reply : Reply) (w : World) :
  reliable w ->
  let r := turn (service_of stage) reply w in
  reliable (snd r)
  /\ exists cmds,
       journal (snd r) = journal w ++ cmds
       /\ acknowledged cmds = map (ack_of (service_of stage)) (entries_of reply).
Proof.
  intros Hrel r. subst r. unfold turn, try_catch.
  destruct (turn_body_acknowledges stage reply w) as (cmds & E & Hc).
  match type of E with
  | journal (snd (?c w)) = _ => set (body := c) in *
  end.
  assert (Hk : kept whole consumed body).
  { subst body. apply (kept_bind _ _ consumed_trans).
    - apply consumed_call. intros [? ? ? ? ? ? ?]. reflexivity.
    - intros [[|stream more]|]; try apply (kept_ret _ _ consumed_refl).
      apply (kept_for_each _ consumed_refl consumed_trans). intros x.
      apply (kept_for_each _ consumed_refl consumed_trans).
      apply handleMessage_consumed. }
  assert (He : escapes whole body).
  { subst body. apply escapes_bind.
    - apply consumed_call. intros [? ? ? ? ? ? ?]. reflexivity.
    - apply escapes_call.
    - intros [[|stream more]|]; try apply escapes_ret.
      apply escapes_for_each.
      + intros x. apply (kept_for_each _ consumed_refl consumed_trans).
        apply handleMessage_consumed.
      + intros x. apply escapes_for_each.
        * apply handleMessage_consumed.
        * apply handleMessage_escapes. }
  destruct (reliable_returns body w He Hk Hrel) as (Hrel1 & a & Ha).
  destruct (body w) as [o w1]. simpl in Ha, Hrel1, E, Hc |- *. subst o.
  simpl. split; [exact Hrel1|]. exists cmds. split; assumption.
Qed.

Lemma run_reliable (stage : Stage) (replies : list Reply) (w : World) :
  reliable w ->
  let r := run (service_of stage) replies w in
  reliable (snd r)
  /\ exists cmds,
       journal (snd r) = journal w ++ cmds
       /\ acknowledged cmds
          = map (ack_of (service_of stage)) (flat_map entries_of replies).
Proof.
  unfold run. revert w. induction replies as [|reply replies IH]; intros w Hrel.
  - split; [exact Hrel|]. exists []. split; [symmetry; apply app_nil_r|].
    reflexivity.
  - simpl. unfold bind.
    destruct (turn_reliable stage reply w Hrel) as (Hrel1 & c1 & E1 & A1).
    pose proof (turn_returns (service_of stage) reply w) as Ht.
    destruct (turn (service_of stage) reply w) as [[[]|e] w1];
      simpl in Ht, Hrel1, E1 |- *; [|discriminate Ht].
    destruct (IH w1 Hrel1) as (Hrel2 & c2 & E2 & A2).
    split; [exact Hrel2|]. exists (c1 ++ c2). split.
    + rewrite E2, E1. symmetry. apply app_assoc.
    + rewrite acknowledged_app, A1, A2, map_app. reflexivity.
Qed.

(** X14. With a client that never raises, a loop acknowledges every
    entry of every reply, once, in the order of the replies, on its own
    topic and for its own group, whatever the entries hold and whatever
    state the records are in; and it ends without an exception. *)
Theorem reliable_loop_acknowledges_every_entry (stage : Stage)
        (replies : list Reply) (w : World) :
  reliable w ->
  let r := run (service_of stage) replies w in
  fst r = Returned tt
  /\ reliable (snd r)
  /\ acknowledged (performed w (snd r))
     = map (ack_of (service_of stage)) (flat_map entries_of replies).
Proof.
  intros Hrel r. split; [apply run_returns|].
  destruct (run_reliable stage replies w Hrel) as (Hrel1 & cmds & E & A).
  split; [exact Hrel1|]. subst r. rewrite (performed_app _ _ _ E). exact A.
Qed.

Lemma reliable_loop_acknowledges_every_entry_witness :
  acknowledged
    (performed validated_world
       (snd (run persistenceService
               [Some [("validation_queue",
                       [("1-0", ["documentId"; "doc-1"; "status"; "VALIDATED"]);
                        ("1-1", ["status"; "VALIDATED"])])];
                None;
                Some [("validation_queue", [("2-0", ["documentId"; "doc-2"])])]]
               validated_world)))
  = [("validation_queue", "persistence_processor_group", "1-0");
     ("validation_queue", "persistence_processor_group", "1-1");
     ("validation_queue", "persistence_processor_group", "2-0")].
Proof.
  assert (Hrel : reliable validated_world) by reflexivity.
  exact (proj2 (proj2 (reliable_loop_acknowledges_every_entry
                         Persistence _ validated_world Hrel))).
Defined.

(** ** A call of the client raises after the fetch *)

(** Evaluates a run of a handler, leaving also the written hashes folded. *)
Ltac run_flat :=
  lazy beta iota zeta delta
    [run_stage service_of handler ocrService validationService
     persistenceService invoke processDocumentForOCR
     processDocumentForValidation persistDocument try_catch bind io hgetall
     getBuffer hset xadd del xack call now console_write get_document
     set_document update_document ret throw lookup_hash lookup_stream record
     with_hashes with_contents with_streams with_journal with_console
     with_clock with_faults hashes contents streams journal console clock
     faults world document fst snd option_map
     dropped current_status record_exists recognized_text reliable ready
     Nat.ltb Nat.leb List.length from_option Datatypes.id].

Ltac run_flat_in H :=
  lazy beta iota zeta delta
    [run_stage service_of handler ocrService validationService
     persistenceService invoke processDocumentForOCR
     processDocumentForValidation persistDocument try_catch bind io hgetall
     getBuffer hset xadd del xack call now console_write get_document
     set_document update_document ret throw lookup_hash lookup_stream record
     with_hashes with_contents with_streams with_journal with_console
     with_clock with_faults hashes contents streams journal console clock
     faults world document fst snd option_map
     dropped current_status record_exists recognized_text reliable ready
     Nat.ltb Nat.leb List.length from_option Datatypes.id] in H.

(** What is asked of a run in which a later call raised. *)
Ltac dead_lettered :=
  split; [reflexivity|]; split; [reflexivity|];
  split; [rewrite lookup_insert_eq; reflexivity|];
  eexists; split; [rewrite <- ?app_assoc; reflexivity|];
  split; reflexivity.

Lemma ocr_later_call_raises (w : World) (documentId e : string) (n : nat) :
  record_exists documentId w ->
  ready Recognition documentId w ->
  (n < later_calls Recognition)%nat ->
  faults w = None :: repeat None n ++ [Some e] ->
  let r := run_stage Recognition documentId w in
  fst r = Returned tt
  /\ reliable (snd r)
  /\ current_status documentId (snd r) = Some OCR_FAILED
  /\ exists cmds,
       journal (snd r) = journal w ++ cmds
       /\ emitted (dead_letter_topic Recognition) cmds
          = [["documentId"; documentId; "error"; e]]
       /\ emitted_downstream Recognition cmds = [].
Proof.
  intros Hrec Hready Hn Hf r. subst r.
  destruct w as [H C S J L K F]. cbn [faults] in Hf. subst F.
  run_flat_in Hready. run_flat_in Hrec.
  destruct (H !! document_key documentId) as [h|] eqn:Hh;
    [|discriminate Hrec].
  unfold later_calls in Hn.
  destruct n as [|[|[|[|n]]]]; [| | | |lia]; cbn [repeat app].
  all: run_flat; rewrite Hh; run_flat; rewrite Hrec; run_flat.
  2-4: destruct (C !! content_key documentId) as [content|]; [|congruence].
  all: run_flat; dead_lettered.
Qed.

Lemma validation_later_call_raises (w : World) (documentId e : string)
      (n : nat) :
  record_exists documentId w ->
  ready ExtractionValidation documentId w ->
  (n < later_calls ExtractionValidation)%nat ->
  faults w = None :: repeat None n ++ [Some e] ->
  let r := run_stage ExtractionValidation documentId w in
  fst r = Returned tt
  /\ reliable (snd r)
  /\ current_status documentId (snd r) = Some VALIDATION_FAILED
  /\ exists cmds,
       journal (snd r) = journal w ++ cmds
       /\ emitted (dead_letter_topic ExtractionValidation) cmds
          = [["documentId"; documentId; "error"; e]]
       /\ emitted_downstream ExtractionValidation cmds = [].
Proof.
  intros Hrec Hready Hn Hf r. subst r.
  destruct w as [H C S J L K F]. cbn [faults] in Hf. subst F.
  run_flat_in Hready. run_flat_in Hrec.
  destruct (H !! document_key documentId) as [h|] eqn:Hh;
    [|discriminate Hrec].
  unfold later_calls in Hn.
  destruct n as [|[|[|n]]]; [| | |lia]; cbn [repeat app].
  all: run_flat; rewrite Hh; run_flat; rewrite Hrec; run_flat.
  all: destruct (h_ocrResult h) as [ocr|]; [|congruence].
  all: destruct (String.eqb (text ocr) ""); [congruence|].
  all: run_flat.
  all: try destruct (validateInvoiceMetadata (extractInvoiceMetadata (text ocr)));
    run_flat; dead_lettered.
Qed.

Lemma persistence_later_call_raises (w : World) (documentId e : string)
      (n : nat) :
  record_exists documentId w ->
  ready Persistence documentId w ->
  (n < later_calls Persistence)%nat ->
  faults w = None :: repeat None n ++ [Some e] ->
  let r := run_stage Persistence documentId w in
  fst r = Returned tt
  /\ reliable (snd r)
  /\ current_status documentId (snd r) = Some FAILED
  /\ exists cmds,
       journal (snd r) = journal w ++ cmds
       /\ emitted (dead_letter_topic Persistence) cmds
          = [["documentId"; documentId; "error"; e]]
       /\ emitted_downstream Persistence cmds = [].
Proof.
  intros Hrec Hready Hn Hf r. subst r.
  destruct w as [H C S J L K F]. cbn [faults] in Hf. subst F.
  run_flat_in Hready. run_flat_in Hrec.
  destruct (H !! document_key documentId) as [h|] eqn:Hh;
    [|discriminate Hrec].
  unfold later_calls in Hn.
  destruct n as [|[|n]]; [| |lia]; cbn [repeat app].
  all: run_flat; rewrite Hh; run_flat; rewrite Hrec; run_flat.
  all: rewrite Hready; run_flat; dead_lettered.
Qed.

(** X15. A call of the client that raises in the [try] block after the
    record was fetched (its input being there), no other call raising:
    the handler catches the exception, returns, leaves the record with
    the failure status of its stage and appends one entry with the
    identifier and the message of the exception to the dead-letter topic
    of its stage; nothing goes downstream. *)
Theorem later_client_failure_is_dead_lettered (stage : Stage) (w : World)
        (documentId e : string) (n : nat) :
  record_exists documentId w ->
  ready stage documentId w ->
  (n < later_calls stage)%nat ->
  faults w = None :: repeat None n ++ [Some e] ->
  let r := run_stage stage documentId w in
  let cmds := performed w (snd r) in
  fst r = Returned tt
  /\ reliable (snd r)
  /\ current_status documentId (snd r) = Some (failure_status stage)
  /\ emitted (dead_letter_topic stage) cmds
     = [["documentId"; documentId; "error"; e]]
  /\ emitted_downstream stage cmds = [].
Proof.
  intros Hrec Hready Hn Hf r cmds. subst cmds r.
  assert (H : fst (run_stage stage documentId w) = Returned tt
              /\ reliable (snd (run_stage stage documentId w))
              /\ current_status documentId (snd (run_stage stage documentId w))
                 = Some (failure_status stage)
              /\ exists cmds,
                   journal (snd (run_stage stage documentId w))
                   = journal w ++ cmds
                   /\ emitted (dead_letter_topic stage) cmds
                      = [["documentId"; documentId; "error"; e]]
                   /\ emitted_downstream stage cmds = []).
  { destruct stage.
    - exact (ocr_later_call_raises w documentId e n Hrec Hready Hn Hf).
    - exact (validation_later_call_raises w documentId e n Hrec Hready Hn Hf).
    - exact (persistence_later_call_raises w documentId e n Hrec Hready Hn Hf). }
  destruct H as (H1 & H2 & H3 & cmds & E & H4 & H5).
  rewrite (performed_app _ _ _ E). auto.
Qed.

Lemma later_client_failure_is_dead_lettered_witness :
  let w := world_of (record_of UPLOADED None) (Some pdf)
                    [None; None; None; None; Some "EPIPE"] in
  let r := run_stage Recognition "doc-1" w in
  current_status "doc-1" (snd r) = Some OCR_FAILED
  /\ emitted "dlq_ocr_failed" (performed w (snd r))
     = [["documentId"; "doc-1"; "error"; "EPIPE"]].
Proof.
  intros w r.
  assert (Hrec : record_exists "doc-1" w) by (vm_compute; reflexivity).
  assert (Hready : ready Recognition "doc-1" w)
    by (vm_compute; discriminate).
  assert (Hn : (3 < later_calls Recognition)%nat) by (simpl; lia).
  assert (Hf : faults w = None :: repeat None 3 ++ [Some "EPIPE"])
    by reflexivity.
  destruct (later_client_failure_is_dead_lettered
              Recognition w "doc-1" "EPIPE" 3 Hrec Hready Hn Hf)
    as (_ & _ & H3 & H4 & _).
  split; [exact H3 | exact H4].
Defined.
